(** * OpenHowNet: the definition parser and the query facade of
    [OpenHowNet/Standards.py], embedded shallowly.

    Python values are modelled as follows.
    - A [str] is the list of its code points ([pystr]); indices are Python
      integers ([Z]) and indexing follows Python: a negative index counts
      from the end and an index outside [-len, len) raises [IndexError].
    - A [dict] keyed by strings is a [gmap]; the sense registry, whose
      iteration order is observable, is an association list.
    - A [set] is a [gset].
    - Exceptions are the [Raise] outcome of a small error monad; the extra
      outcome [Diverge] stands for a [while] loop that has not finished
      within its fuel, so that termination is a statement about the model. *)

From Stdlib Require Import ZArith Lia Ascii String.
From stdpp Require Import base option list gmap sorting.

Local Open Scope Z_scope.

(** ** Python strings *)

Abbreviation pychar := N (only parsing).
Abbreviation pystr := (list N) (only parsing).

(** An ASCII literal as a Python string. *)
Definition str (s : string) : pystr :=
  map N_of_ascii (list_ascii_of_string s).

(** The characters the parser tests for, by code point. *)
Definition LBRACE : N := 123.     (* opening brace *)
Definition RBRACE : N := 125.     (* closing brace *)
Definition QUOTE : N := 34.       (* double quote *)
Definition COLON : N := 58.       (* colon *)
Definition PIPE : N := 124.       (* vertical bar *)
Definition TILDE : N := 126.      (* tilde *)
Definition QMARK : N := 63.       (* question mark *)
Definition DOLLAR : N := 36.      (* dollar *)
Definition SEMI : N := 59.        (* semicolon *)
Definition EQUALS : N := 61.      (* equals sign *)
Definition COMMA : N := 44.       (* comma *)
Definition SPACE : N := 32.       (* space *)
Definition UNDERSCORE : N := 95.  (* underscore *)
Definition RMK : pystr := [82; 77; 75; 61]%N.  (* the four characters RMK= *)

(** ** Exceptions and outcomes *)

Inductive exn :=
| IndexError
| KeyError (k : pystr)
| AttributeError
| TypeError
| ValueError.

Inductive outcome (A : Type) :=
| Ret (a : A)
| Raise (e : exn)
| Diverge.
Arguments Ret {A} a.
Arguments Raise {A} e.
Arguments Diverge {A}.

#[global] Instance outcome_ret : MRet outcome := @Ret.
#[global] Instance outcome_bind : MBind outcome := λ A B f m,
  match m with
  | Ret a => f a
  | Raise e => Raise e
  | Diverge => Diverge
  end.

(** A [for] loop whose body may raise: the state is threaded through the
    iterations and the first exception ends the loop. *)
Fixpoint for_each {A S : Type} (l : list A) (body : S → A → outcome S)
    (s : S) : outcome S :=
  match l with
  | [] => Ret s
  | x :: l' => s' ← body s x; for_each l' body s'
  end.

(** ** Python sequence primitives *)

(** [s[i]] for a sequence. *)
Definition py_index {A : Type} (s : list A) (i : Z) : outcome A :=
  let n := Z.of_nat (length s) in
  let j := if i <? 0 then i + n else i in
  if (0 <=? j) && (j <? n) then
    match s !! Z.to_nat j with
    | Some c => Ret c
    | None => Raise IndexError
    end
  else Raise IndexError.

(** The normalisation of one bound of a slice [s[lo:hi]]. *)
Definition slice_bound (n i : Z) : Z :=
  let j := if i <? 0 then i + n else i in
  if j <? 0 then 0 else if n <? j then n else j.

(** [s[lo:hi]]. *)
Definition py_slice {A : Type} (s : list A) (lo hi : Z) : list A :=
  let n := Z.of_nat (length s) in
  let a := slice_bound n lo in
  let b := slice_bound n hi in
  take (Z.to_nat (b - a)) (drop (Z.to_nat a) s).

(** [s.replace(a, b)] for one-character [a] and [b]. *)
Definition py_replace (a b : N) (s : pystr) : pystr :=
  map (λ c, if (c =? a)%N then b else c) s.

Fixpoint prefixb (p s : pystr) : bool :=
  match p, s with
  | [], _ => true
  | _ :: _, [] => false
  | a :: p', b :: s' => (a =? b)%N && prefixb p' s'
  end.

(** [s.find(sub)], counting from position [i]. *)
Fixpoint find_from (sub s : pystr) (i : Z) : Z :=
  if prefixb sub s then i
  else match s with
       | [] => -1
       | _ :: s' => find_from sub s' (i + 1)
       end.

Definition py_find (s sub : pystr) : Z := find_from sub s 0.

(** [s.split(sep)] for a one-character separator. *)
Fixpoint py_split (sep : N) (s : pystr) : list pystr :=
  match s with
  | [] => [[]]
  | c :: s' =>
      if (c =? sep)%N then [] :: py_split sep s'
      else match py_split sep s' with
           | piece :: pieces => (c :: piece) :: pieces
           | [] => [[c]]
           end
  end.

(** [range(a, b, -1)]. *)
Definition range_down (a b : Z) : list Z :=
  map (λ k, a - Z.of_nat k) (seq 0 (Z.to_nat (a - b))).

(** [range(n)]. *)
Definition range (n : nat) : list nat := seq 0 n.

(** ** Data model *)

(** [class Sense]; [sememes] holds references into the sememe registry. *)
Record Sense := mkSense {
  No : pystr;
  en_word : pystr;
  en_grammar : pystr;
  ch_word : pystr;
  ch_grammar : pystr;
  Def : pystr;
  sememes : list (list N)
}.

(** [class Sememe].  The related maps hold references to other sememes,
    by registry key; [senses] holds the senses appended at load time. *)
Record Sememe := mkSememe {
  en : pystr;
  ch : pystr;
  en_ch : pystr;
  freq : Z;
  related_sememes_forward : gmap (list N) (list N);
  related_sememes_backward : gmap (list N) (list N);
  senses : list Sense
}.

(** The [name] of a tree node: the owning sense (root), a sememe of the
    registry, or the one-character string of an anaphora marker. *)
Inductive pyname :=
| NmSense (no : pystr)
| NmSememe (key : pystr)
| NmStr (s : pystr).

#[global] Instance pyname_eq_dec : EqDecision pyname.
Proof. solve_decision. Defined.

#[global] Instance pyname_countable : Countable pyname.
Proof.
  refine (inj_countable'
    (λ n, match n with
          | NmSense s => inl s
          | NmSememe s => inr (inl s)
          | NmStr s => inr (inr s)
          end)
    (λ x, match x with
          | inl s => NmSense s
          | inr (inl s) => NmSememe s
          | inr (inr s) => NmStr s
          end) _).
  by intros [].
Defined.

(** A reference to an [anytree] node of one parse: the root, or the
    entity stored at an index of the list [node]. *)
Inductive nref :=
| NRoot
| NEnt (i : nat).

#[global] Instance nref_eq_dec : EqDecision nref.
Proof. solve_decision. Defined.

(** An [anytree.Node] while the tree is being built. *)
Record anode := mkNode {
  name : pyname;
  role : pystr;
  parent : option nref
}.

Definition set_role (r : pystr) (nd : anode) : anode :=
  {| name := name nd; role := r; parent := parent nd |}.

Definition set_parent (p : option nref) (nd : anode) : anode :=
  {| name := name nd; role := role nd; parent := p |}.

(** What [DictExporter().export] returns, and the shape of a finished
    [Node] tree: the key [children] is present exactly when the list is
    not empty. *)
#[warnings="-register-all"]
Inductive dtree :=
| DNode (nm : pyname) (rl : pystr) (children : list dtree).

Definition dname (t : dtree) : pyname := let '(DNode nm _ _) := t in nm.
Definition drole (t : dtree) : pystr := let '(DNode _ rl _) := t in rl.
Definition dchildren (t : dtree) : list dtree :=
  let '(DNode _ _ cs) := t in cs.

(** The sememe registry [self.sememe_dic]. *)
Abbreviation sememe_registry := (gmap (list N) Sememe) (only parsing).

(** [self.sememe_dic[key]], giving the reference to the object found. *)
Definition registry_ref (sememe_dic : sememe_registry) (key : pystr)
    : outcome pystr :=
  match sememe_dic !! key with
  | Some _ => Ret key
  | None => Raise (KeyError key)
  end.

(** ** The scans of the definition parser *)

Definition is_opener (c : N) : bool := (c =? LBRACE)%N || (c =? QUOTE)%N.
Definition is_closer (c : N) : bool :=
  (c =? RBRACE)%N || (c =? COLON)%N || (c =? QUOTE)%N.
Definition is_marker (c : N) : bool :=
  (c =? TILDE)%N || (c =? QMARK)%N || (c =? DOLLAR)%N.

(** [while kdml[start_idx] not in opener: start_idx = start_idx - 1] *)
Fixpoint scan_start (fuel : nat) (kdml : pystr) (start_idx : Z) : outcome Z :=
  match fuel with
  | O => Diverge
  | S fuel' =>
      c ← py_index kdml start_idx;
      if is_opener c then Ret start_idx
      else scan_start fuel' kdml (start_idx - 1)
  end.

(** [while kdml[end_idx] not in closer: end_idx = end_idx + 1] *)
Fixpoint scan_end (fuel : nat) (kdml : pystr) (end_idx : Z) : outcome Z :=
  match fuel with
  | O => Diverge
  | S fuel' =>
      c ← py_index kdml end_idx;
      if is_closer c then Ret end_idx
      else scan_end fuel' kdml (end_idx + 1)
  end.

(** The fuel given to every [while] loop over a string of this length. *)
Definition scan_fuel (kdml : pystr) : nat := 2 * length kdml + 2.

(** [_gen_sememe_list]: one pass over the whole [Def]. *)
Definition list_step (fuel : nat) (sememe_dic : sememe_registry)
    (kdml : pystr) (res : list (list N)) (i : nat) : outcome (list (list N)) :=
  c ← py_index kdml (Z.of_nat i);
  if (c =? PIPE)%N then
    start_idx ← scan_start fuel kdml (Z.of_nat i);
    end_idx ← scan_end fuel kdml (Z.of_nat i);
    s ← registry_ref sememe_dic (py_slice kdml (start_idx + 1) end_idx);
    Ret (res ++ [s])
  else Ret res.

Definition gen_sememe_list_fuel (fuel : nat) (sememe_dic : sememe_registry)
    (sense : Sense) : outcome (list (list N)) :=
  let kdml := Def sense in
  for_each (range (length kdml)) (list_step fuel sememe_dic kdml) [].

Definition _gen_sememe_list (sememe_dic : sememe_registry) (sense : Sense)
    : outcome (list (list N)) :=
  gen_sememe_list_fuel (scan_fuel (Def sense)) sememe_dic sense.

(** ** [_gen_sememe_tree] *)

(** The three lists the first loop of the parser fills. *)
Record entities := mkEntities {
  entity_idx : list (Z * Z);
  node : list anode;
  pointer : list nat
}.

(** The body of [for i in range(len(kdml))]: record a marker, or the
    sememe reference around a vertical bar. *)
Definition entity_step (fuel : nat) (sememe_dic : sememe_registry)
    (kdml : pystr) (st : entities) (i : nat) : outcome entities :=
  c ← py_index kdml (Z.of_nat i);
  if is_marker c then
    Ret {| pointer := if (c =? TILDE)%N then pointer st ++ [length (node st)]
                      else pointer st;
           entity_idx := entity_idx st ++ [(Z.of_nat i, Z.of_nat i + 1)];
           node := node st ++ [mkNode (NmStr [c]) (str "None") None] |}
  else if (c =? PIPE)%N then
    start_idx ← scan_start fuel kdml (Z.of_nat i);
    end_idx ← scan_end fuel kdml (Z.of_nat i);
    s ← registry_ref sememe_dic
          (py_replace SPACE UNDERSCORE (py_slice kdml (start_idx + 1) end_idx));
    Ret {| pointer := pointer st;
           entity_idx := entity_idx st ++ [(start_idx + 1, end_idx)];
           node := node st ++ [mkNode (NmSememe s) (str "None") None] |}
  else Ret st.

(** The backward scan for the colon that closes the group an entity
    belongs to; it stops at position 0 at the latest. *)
Fixpoint find_owner (fuel : nat) (kdml : pystr)
    (cursor left_brace right_brace quotation : Z) : outcome Z :=
  match fuel with
  | O => Diverge
  | S fuel' =>
      c ← py_index kdml cursor;
      if (c =? COLON)%N &&
         (((quotation mod 2 =? 0) && (left_brace =? right_brace + 1)) ||
          ((quotation mod 2 =? 1) && (left_brace =? right_brace)))
      then Ret cursor
      else if cursor =? 0 then Ret cursor
      else if (c =? LBRACE)%N then
        find_owner fuel' kdml (cursor - 1) (left_brace + 1) right_brace quotation
      else if (c =? RBRACE)%N then
        find_owner fuel' kdml (cursor - 1) left_brace (right_brace + 1) quotation
      else if (c =? QUOTE)%N then
        find_owner fuel' kdml (cursor - 1) left_brace right_brace (quotation + 1)
      else
        find_owner fuel' kdml (cursor - 1) left_brace right_brace quotation
  end.

(** [for j in range(i - 1, -1, -1): if entity_idx[j][1] == cursor: ... break];
    [None] is the source's [parent_idx = -1]. *)
Fixpoint find_parent (entity_idx : list (Z * Z)) (cursor : Z) (i : nat)
    : outcome (option nat) :=
  match i with
  | O => Ret None
  | S j =>
      e ← py_index entity_idx (Z.of_nat j);
      if e.2 =? cursor then Ret (Some j)
      else find_parent entity_idx cursor j
  end.

(** The reverse scan of the role window; the pair is
    [(role_begin_idx, role_end_idx)]. *)
Fixpoint role_scan (kdml : pystr) (js : list Z)
    (role_begin_idx role_end_idx : Z) : outcome (Z * Z) :=
  match js with
  | [] => Ret (role_begin_idx, role_end_idx)
  | j :: js' =>
      c ← py_index kdml j;
      if (c =? EQUALS)%N then role_scan kdml js' role_begin_idx j
      else if (c =? COMMA)%N || (c =? COLON)%N then Ret (j, role_end_idx)
      else role_scan kdml js' role_begin_idx role_end_idx
  end.

(** [node[i].attr = ...] on the list of nodes. *)
Definition update_node (node : list anode) (i : nat) (f : anode → anode)
    : outcome (list anode) :=
  nd ← py_index node (Z.of_nat i);
  Ret (<[i := f nd]> node).

(** The body of [for i in range(len(entity_idx))]: parent, then role. *)
Definition resolve_step (fuel : nat) (kdml : pystr)
    (entity_idx : list (Z * Z)) (node : list anode) (i : nat)
    : outcome (list anode) :=
  e_i ← py_index entity_idx (Z.of_nat i);
  cursor ← find_owner fuel kdml e_i.1 0 0 0;
  parent_idx ← find_parent entity_idx cursor i;
  node1 ← match parent_idx with
           | Some j =>
               _ ← py_index node (Z.of_nat j);
               update_node node i (set_parent (Some (NEnt j)))
           | None => Ret node
           end;
  if (i =? 0)%nat then Ret node1
  else
    right_range ←
      match parent_idx with
      | Some j => e ← py_index entity_idx (Z.of_nat j); Ret (e.2 - 1)
      | None => e ← py_index entity_idx (Z.of_nat i - 1); Ret (e.2 - 1)
      end;
    '(role_begin_idx, role_end_idx) ←
      role_scan kdml (range_down (e_i.1 - 1) right_range) (-1) (-1);
    if role_end_idx =? -1 then Ret node1
    else update_node node1 i
           (set_role (py_slice kdml (role_begin_idx + 1) role_end_idx)).

(** The two root attributes and the entity nodes. *)
Record forest := mkForest {
  root : anode;
  nodes : list anode
}.

(** [n.role = r] for a node reference. *)
Definition assign_role (f : forest) (p : nref) (r : pystr) : outcome forest :=
  match p with
  | NRoot => Ret {| root := set_role r (root f); nodes := nodes f |}
  | NEnt j =>
      ns ← update_node (nodes f) j (set_role r);
      Ret {| root := root f; nodes := ns |}
  end.

(** The body of [for i in pointer]: the marker hands its role to its
    parent and leaves the tree.  A marker without a parent has
    [node[i].parent] equal to [None], whose attribute cannot be set. *)
Definition collapse_step (f : forest) (i : nat) : outcome forest :=
  nd ← py_index (nodes f) (Z.of_nat i);
  match parent nd with
  | None => Raise AttributeError
  | Some p =>
      f1 ← assign_role f p (role nd);
      ns ← update_node (nodes f1) i (set_parent None);
      Ret {| root := root f1; nodes := ns |}
  end.

(** The children of the node [p] among the entities [rest], each with the
    index it has in [node].  [anytree] keeps the children of a node in the
    order they were attached; the parser attaches entity [i] during
    iteration [i] of the resolution loop, only to an entity of smaller
    index, and never attaches it again elsewhere, so the children of a node
    are the later entities that name it as parent, by ascending index. *)
Fixpoint kids (rest : list (nat * anode)) (p : nref) : list dtree :=
  match rest with
  | [] => []
  | (k, nd) :: rest' =>
      if decide (parent nd = Some p)
      then DNode (name nd) (role nd) (kids rest' (NEnt k)) :: kids rest' p
      else kids rest' p
  end.

Definition indexed {A : Type} (l : list A) : list (nat * A) :=
  zip (seq 0 (length l)) l.

(** The tree below [root], as [DictExporter().export(root)] lays it out. *)
Definition export (f : forest) : dtree :=
  DNode (name (root f)) (role (root f)) (kids (indexed (nodes f)) NRoot).

(** What [_gen_sememe_tree] returns: the exported record, the root [Node]
    when [return_node] is set, or [None] when the clause loop has nothing
    to iterate over. *)
Inductive tree_value :=
| TreeDict (t : dtree)
| TreeNode (t : dtree)
| TreeNone.

(** The body of [for kdml in kdml_list], which returns in its first
    iteration. *)
Definition parse_clause (fuel : nat) (sememe_dic : sememe_registry)
    (sense : Sense) (return_node : bool) (kdml : pystr) : outcome tree_value :=
  let root_node := mkNode (NmSense (No sense)) (str "sense") None in
  st ← for_each (range (length kdml)) (entity_step fuel sememe_dic kdml)
         (mkEntities [] [] []);
  node1 ← for_each (range (length (entity_idx st)))
            (resolve_step fuel kdml (entity_idx st)) (node st);
  f ← for_each (pointer st) collapse_step (mkForest root_node node1);
  ns ← update_node (nodes f) 0 (set_parent (Some NRoot));
  let f' := {| root := root f; nodes := ns |} in
  if return_node then Ret (TreeNode (export f'))
  else Ret (TreeDict (export f')).

(** [kdml = kdml[:rmk_pos]] when [RMK=] occurs. *)
Definition strip_rmk (kdml : pystr) : pystr :=
  let rmk_pos := py_find kdml RMK in
  if 0 <=? rmk_pos then py_slice kdml 0 rmk_pos else kdml.

Definition gen_sememe_tree_fuel (fuel : pystr → nat)
    (sememe_dic : sememe_registry) (sense : Sense) (return_node : bool)
    : outcome tree_value :=
  let kdml := strip_rmk (Def sense) in
  let kdml_list := py_split SEMI kdml in
  match kdml_list with
  | kdml :: _ => parse_clause (fuel kdml) sememe_dic sense return_node kdml
  | [] => Ret TreeNone
  end.

Definition _gen_sememe_tree (sememe_dic : sememe_registry) (sense : Sense)
    (return_node : bool) : outcome tree_value :=
  gen_sememe_tree_fuel scan_fuel sememe_dic sense return_node.

(** ** [_expand_tree] *)

(** [item['name'] != s] for a one-character string [s]: a [Sememe] or
    [Sense] object never equals a string. *)
Definition name_is_str (nm : pyname) (c : N) : bool :=
  match nm with
  | NmStr s => bool_decide (s = [c])
  | _ => false
  end.

(** The argument of [_expand_tree]: an exported record or a list of them. *)
Inductive pytree :=
| PDict (t : dtree)
| PList (l : list dtree).

(** The body of [for item in target] at a [layer] that is not 0.  The
    recursive call [self._expand_tree(item["children"], layer - 1, False)]
    begins with its own test of [layer - 1] against 0, written out here. *)
Fixpoint expand_item (item : dtree) (layer : Z) (isRoot : bool)
    : gset pyname :=
  let '(DNode nm _ children) := item in
  (if isRoot then ∅
   else if negb (name_is_str nm DOLLAR) && negb (name_is_str nm QMARK)
        then {[ nm ]} else ∅)
  ∪ match children with
    | [] => ∅
    | _ :: _ =>
        if layer - 1 =? 0 then ∅
        else (fix loop (target : list dtree) : gset pyname :=
                match target with
                | [] => ∅
                | c :: target' => expand_item c (layer - 1) false ∪ loop target'
                end) children
    end.

Definition expand_items (target : list dtree) (layer : Z) (isRoot : bool)
    : gset pyname :=
  foldr (λ item res, expand_item item layer isRoot ∪ res) ∅ target.

Definition _expand_tree (tree : pytree) (layer : Z) (isRoot : bool)
    : gset pyname :=
  if layer =? 0 then ∅
  else match tree with
       | PDict t => expand_items [t] layer isRoot
       | PList l => expand_items l layer isRoot
       end.

(** ** The sememe registry and the taxonomy triples *)

(** [Sememe.__init__]: the label is split at the vertical bar. *)
Definition Sememe_init (hownet_sememe : pystr) (freq : Z) : outcome Sememe :=
  match py_split PIPE hownet_sememe with
  | [e; c] => Ret (mkSememe e c hownet_sememe freq ∅ ∅ [])
  | _ => Raise ValueError
  end.

(** [self.related_sememes_forward[relation] = tail] *)
Definition add_related_sememes_forward (self : Sememe)
    (head relation tail : pystr) : Sememe :=
  {| en := en self; ch := ch self; en_ch := en_ch self; freq := freq self;
     related_sememes_forward := <[relation := tail]> (related_sememes_forward self);
     related_sememes_backward := related_sememes_backward self;
     senses := senses self |}.

(** [self.related_sememes_backward[relation] = head] *)
Definition add_related_sememes_backward (self : Sememe)
    (head relation tail : pystr) : Sememe :=
  {| en := en self; ch := ch self; en_ch := en_ch self; freq := freq self;
     related_sememes_forward := related_sememes_forward self;
     related_sememes_backward := <[relation := head]> (related_sememes_backward self);
     senses := senses self |}.

(** The two statements of the triple loop of [__init__], for one line
    already split into head, relation and tail.  Each statement looks up
    the receiver and both arguments before the method runs. *)
Definition add_triple (sememe_dic : gmap (list N) Sememe)
    (line : list N * list N * list N) : outcome (gmap (list N) Sememe) :=
  let '(h, r, t) := line in
  _ ← registry_ref sememe_dic h;
  _ ← registry_ref sememe_dic t;
  let dic1 := alter (λ s, add_related_sememes_forward s h r t) h sememe_dic in
  _ ← registry_ref dic1 t;
  _ ← registry_ref dic1 h;
  Ret (alter (λ s, add_related_sememes_backward s h r t) t dic1).

Definition add_triples (sememe_dic : gmap (list N) Sememe)
    (lines : list (list N * list N * list N))
    : outcome (gmap (list N) Sememe) :=
  for_each lines add_triple sememe_dic.

(** [forward(h, r)] and [backward(t, r)]: the entry of a registered
    sememe's map, if any. *)
Definition forward (sememe_dic : gmap (list N) Sememe) (h r : pystr)
    : option (list N) :=
  s ← sememe_dic !! h; related_sememes_forward s !! r.

Definition backward (sememe_dic : gmap (list N) Sememe) (t r : pystr)
    : option (list N) :=
  s ← sememe_dic !! t; related_sememes_backward s !! r.

(** ** The knowledge base *)

(** A [dict] whose iteration order is observed: insertion order, an
    assignment to a key already present keeping its place. *)
Fixpoint odict_set {V : Type} (d : list (list N * V)) (k : pystr) (v : V)
    : list (list N * V) :=
  match d with
  | [] => [(k, v)]
  | (k', v') :: d' =>
      if decide (k' = k) then (k, v) :: d' else (k', v') :: odict_set d' k v
  end.

Fixpoint odict_get {V : Type} (d : list (list N * V)) (k : pystr) : option V :=
  match d with
  | [] => None
  | (k', v') :: d' => if decide (k' = k) then Some v' else odict_get d' k
  end.

Record HowNetDict := mkHowNetDict {
  sememe_dic : gmap (list N) Sememe;
  sense_dic : list (list N * Sense);
  en_map : gmap (list N) (list Sense);
  zh_map : gmap (list N) (list Sense)
}.

(** [res.extend(x)] where [x] is a [Sense]: [class Sense] defines neither
    [__iter__] nor [__getitem__], so the object is not iterable. *)
Definition extend_with_sense (res : list Sense) (x : Sense)
    : outcome (list Sense) :=
  Raise TypeError.

Definition I_WANT_ALL : pystr := str "I WANT ALL!".

(** [HowNetDict.__getitem__] *)
Definition getitem (self : HowNetDict) (item : pystr) : outcome (list Sense) :=
  let res := [] in
  if decide (item = I_WANT_ALL) then
    for_each (sense_dic self).*2 extend_with_sense res
  else
    let res := match en_map self !! item with
               | Some l => res ++ l
               | None => res
               end in
    let res := match zh_map self !! item with
               | Some l => res ++ l
               | None => res
               end in
    match odict_get (sense_dic self) item with
    | Some x => extend_with_sense res x
    | None => Ret res
    end.

(** [HowNetDict.get] *)
Definition get (self : HowNetDict) (word : pystr) (language : option (list N))
    : outcome (list Sense) :=
  if decide (language = Some (str "en")) then
    Ret (default [] (en_map self !! word))
  else if decide (language = Some (str "zh")) then
    Ret (default [] (zh_map self !! word))
  else getitem self word.

(** [HowNetDict.has] *)
Definition has (self : HowNetDict) (item : pystr) (language : option (list N))
    : bool :=
  if decide (language = Some (str "en")) then
    bool_decide (is_Some (en_map self !! item))
  else if decide (language = Some (str "zh")) then
    bool_decide (is_Some (zh_map self !! item))
  else bool_decide (is_Some (en_map self !! item))
       || bool_decide (is_Some (zh_map self !! item))
       || bool_decide (is_Some (odict_get (sense_dic self) item)).

(** ** [get_sememes_by_word] *)

(** [a < b] on strings: lexicographic by code point, a proper prefix
    being smaller. *)
Fixpoint str_ltb (a b : pystr) : bool :=
  match a, b with
  | _, [] => false
  | [], _ :: _ => true
  | x :: a', y :: b' => (x <? y)%N || ((x =? y)%N && str_ltb a' b')
  end.

(** [list.sort(key=lambda x: x.No)]: the sort is stable, so its result is
    the one of any stable sort; here, insertion from the right, an element
    going before the first one whose key is not smaller. *)
Fixpoint sort_insert (x : Sense) (l : list Sense) : list Sense :=
  match l with
  | [] => [x]
  | y :: l' => if str_ltb (No y) (No x) then y :: sort_insert x l'
               else x :: y :: l'
  end.

Definition sort_by_No (l : list Sense) : list Sense :=
  foldr sort_insert [] l.

(** What the function prints, one entry per [print] call (one per tree
    for [_visualize_sememe_trees], whose rendering is [anytree]'s). *)
Inductive event :=
| PrintFailed (no : pystr)
| PrintException (e : exn)
| PrintWord (word : pystr)
| PrintWrongItem (no : pystr)
| PrintFind (n : nat)
| PrintDisplay (index : nat)
| PrintTree (t : tree_value)
| PrintWrongMode (display : pystr).

Inductive qitem :=
| QTree (t : tree_value)
| QPair (sense : Sense) (sememes : gset pyname).

(** [result]: a list, or a set when [merge] is given. *)
Inductive qresult :=
| QList (l : list qitem)
| QSet (s : gset pyname).

(** [self._expand_tree(self._gen_sememe_tree(item), expanded_layer)] *)
Definition expand_sense (sememe_dic : gmap (list N) Sememe) (item : Sense)
    (expanded_layer : Z) : outcome (gset pyname) :=
  t ← _gen_sememe_tree sememe_dic item false;
  match t with
  | TreeDict d => Ret (_expand_tree (PDict d) expanded_layer true)
  | TreeNode _ | TreeNone =>
      if expanded_layer =? 0 then Ret ∅ else Raise TypeError
  end.

(** The loop of the modes [dict] and [tree]: an exception of one item is
    printed and the loop goes on.  [result.append] is looked up before the
    tree is built, and a [set] has no such attribute. *)
Fixpoint trees_loop (sememe_dic : gmap (list N) Sememe) (return_node : bool)
    (queryResult : list Sense) (log : list event) (result : qresult)
    : list event * qresult :=
  match queryResult with
  | [] => (log, result)
  | item :: rest =>
      let attempt :=
        match result with
        | QSet _ => Raise AttributeError
        | QList l =>
            t ← _gen_sememe_tree sememe_dic item return_node;
            Ret (QList (l ++ [QTree t]))
        end in
      match attempt with
      | Ret result' => trees_loop sememe_dic return_node rest log result'
      | Raise e =>
          trees_loop sememe_dic return_node rest
            (log ++ [PrintFailed (No item); PrintException e]) result
      | Diverge => (log, result)
      end
  end.

(** The loop of the mode [list]: an exception of one item is printed and
    raised again. *)
Fixpoint list_loop (sememe_dic : gmap (list N) Sememe) (word : pystr)
    (expanded_layer : Z) (queryResult : list Sense) (log : list event)
    (result : qresult) : list event * outcome qresult :=
  match queryResult with
  | [] => (log, Ret result)
  | item :: rest =>
      match expand_sense sememe_dic item expanded_layer with
      | Ret s =>
          let result' := match result with
                         | QList l => QList (l ++ [QPair item s])
                         | QSet acc => QSet (acc ∪ s)
                         end in
          list_loop sememe_dic word expanded_layer rest log result'
      | Raise e =>
          (log ++ [PrintWord word; PrintWrongItem (No item); PrintException e],
           Raise e)
      | Diverge => (log, Diverge)
      end
  end.

(** The loop of the mode [visual]; an exception of the tree builder is
    not caught. *)
Fixpoint visual_loop (sememe_dic : gmap (list N) Sememe) (index : nat)
    (queryResult : list Sense) (log : list event)
    : list event * outcome unit :=
  match queryResult with
  | [] => (log, Ret ())
  | item :: rest =>
      match _gen_sememe_tree sememe_dic item true with
      | Ret t =>
          visual_loop sememe_dic (S index) rest
            (log ++ [PrintDisplay index; PrintTree t])
      | Raise e => (log ++ [PrintDisplay index], Raise e)
      | Diverge => (log ++ [PrintDisplay index], Diverge)
      end
  end.

(** [queryResult = self[word]; queryResult.sort(key=lambda x: x.No)] *)
Definition query_candidates (self : HowNetDict) (word : pystr)
    : outcome (list Sense) :=
  queryResult ← getitem self word;
  Ret (sort_by_No queryResult).

(** [HowNetDict.get_sememes_by_word]; [K] is [None] or an [int]. *)
Definition get_sememes_by_word (self : HowNetDict) (word display : pystr)
    (merge : bool) (expanded_layer : Z) (K : option Z)
    : list event * outcome qresult :=
  match query_candidates self word with
  | Raise e => ([], Raise e)
  | Diverge => ([], Diverge)
  | Ret queryResult =>
      let result := if merge then QSet ∅ else QList [] in
      if bool_decide (display = str "dict") || bool_decide (display = str "tree")
      then
        let '(log, r) :=
          trees_loop (sememe_dic self) (bool_decide (display = str "tree"))
            queryResult [] result in
        (log, Ret r)
      else if bool_decide (display = str "list") then
        list_loop (sememe_dic self) word expanded_layer queryResult [] result
      else if bool_decide (display = str "visual") then
        let log := [PrintFind (length queryResult)] in
        let queryResult :=
          match K with
          | Some k => if 1 <=? k then py_slice queryResult 0 k else queryResult
          | None => queryResult
          end in
        let '(log', r) := visual_loop (sememe_dic self) 0 queryResult log in
        (log', _ ← r; Ret result)
      else ([PrintWrongMode display], Ret result)
  end.

(** ** Loading *)

(** The characters [str.strip()] removes. *)
Definition is_space (c : N) : bool :=
  ((9 <=? c) && (c <=? 13) || (28 <=? c) && (c <=? 32) || (c =? 133)
   || (c =? 160) || (c =? 5760) || (8192 <=? c) && (c <=? 8202)
   || (c =? 8232) || (c =? 8233) || (c =? 8239) || (c =? 8287)
   || (c =? 12288))%N.

Fixpoint lstrip (s : pystr) : pystr :=
  match s with
  | c :: s' => if is_space c then lstrip s' else s
  | [] => []
  end.

Definition py_strip (s : pystr) : pystr := rev (lstrip (rev (lstrip s))).

(** One entry of the pickled dictionary [HowNet_dict_complete]. *)
Record hownet_item := mkItem {
  item_No : pystr;
  item_en_word : pystr;
  item_en_grammar : pystr;
  item_ch_word : pystr;
  item_ch_grammar : pystr;
  item_Def : pystr
}.

(** [Sense.__init__] *)
Definition Sense_init (hownet_sense : hownet_item) : Sense :=
  mkSense (item_No hownet_sense) (item_en_word hownet_sense)
    (item_en_grammar hownet_sense) (item_ch_word hownet_sense)
    (item_ch_grammar hownet_sense) (item_Def hownet_sense) [].

Definition set_sememes (l : list (list N)) (s : Sense) : Sense :=
  mkSense (No s) (en_word s) (en_grammar s) (ch_word s) (ch_grammar s)
    (Def s) l.

Definition append_sense (x : Sense) (s : Sememe) : Sememe :=
  {| en := en s; ch := ch s; en_ch := en_ch s; freq := freq s;
     related_sememes_forward := related_sememes_forward s;
     related_sememes_backward := related_sememes_backward s;
     senses := senses s ++ [x] |}.

(** The body of [for line in sememe_triples.readlines()].  The line is
    stripped and split at single spaces.  Each of the two statements
    evaluates its receiver and then its arguments from left to right, so
    the head is looked up in the registry before the fields 1 and 2 of
    the line are read. *)
Definition load_triple (sememe_dic : gmap (list N) Sememe) (line : pystr)
    : outcome (gmap (list N) Sememe) :=
  let line := py_split SPACE (py_strip line) in
  h ← py_index line 0;
  _ ← registry_ref sememe_dic h;
  r ← py_index line 1;
  t ← py_index line 2;
  _ ← registry_ref sememe_dic t;
  let dic1 := alter (λ s, add_related_sememes_forward s h r t) h sememe_dic in
  _ ← registry_ref dic1 t;
  _ ← registry_ref dic1 h;
  Ret (alter (λ s, add_related_sememes_backward s h r t) t dic1).

(** The body of [for k, v in hownet_dict.items()]. *)
Definition load_sense (st : gmap (list N) Sememe * list (list N * Sense))
    (kv : list N * hownet_item)
    : outcome (gmap (list N) Sememe * list (list N * Sense)) :=
  let '(sememe_dic, sense_dic) := st in
  let '(k, v) := kv in
  l ← _gen_sememe_list sememe_dic (Sense_init v);
  let sense := set_sememes l (Sense_init v) in
  Ret (foldl (λ dic s, alter (append_sense sense) s dic) sememe_dic l,
       odict_set sense_dic k sense).

(** The body of [for k in self.sense_dic.keys()]. *)
Definition index_sense (maps : gmap (list N) (list Sense) * gmap (list N) (list Sense))
    (sense : Sense) : gmap (list N) (list Sense) * gmap (list N) (list Sense) :=
  let en_w := py_strip (en_word sense) in
  let zh_w := py_strip (ch_word sense) in
  (<[en_w := default [] (maps.1 !! en_w) ++ [sense]]> maps.1,
   <[zh_w := default [] (maps.2 !! zh_w) ++ [sense]]> maps.2).

(** [HowNetDict.__init__] on the contents of the three data files. *)
Definition HowNetDict_init (sememe_all : list (list N * Z))
    (sememe_triples : list (list N))
    (hownet_dict : list (list N * hownet_item)) : outcome HowNetDict :=
  dic0 ← for_each sememe_all
            (λ dic kv, s ← Sememe_init kv.1 kv.2; Ret (<[kv.1 := s]> dic))
            (∅ : gmap (list N) Sememe);
  dic1 ← for_each sememe_triples load_triple dic0;
  '(dic2, senses) ← for_each hownet_dict load_sense (dic1, []);
  let maps := foldl index_sense (∅, ∅) senses.*2 in
  Ret (mkHowNetDict dic2 senses maps.1 maps.2).

(** ** Auxiliary notions used in the statements *)

(** The head, the relation and the tail a line of the triples file names:
    the first three fields of the stripped line, split at single spaces.
    A line with fewer fields names no triple. *)
Definition parse_triple (line : pystr) : outcome (list N * list N * list N) :=
  let fields := py_split SPACE (py_strip line) in
  h ← py_index fields 0;
  r ← py_index fields 1;
  t ← py_index fields 2;
  Ret (h, r, t).

(** The string the clause loop of [_gen_sememe_tree] parses: the first
    piece of the definition once the remark is cut off. *)
Definition first_clause (kdml : pystr) : pystr :=
  match py_split SEMI (strip_rmk kdml) with
  | clause :: _ => clause
  | [] => []
  end.

(** No closing delimiter from position [i] on. *)
Definition unclosed_from (kdml : pystr) (i : nat) : bool :=
  forallb (λ c, negb (is_closer c)) (drop i kdml).

(** The names of all nodes of a tree, root first, and of the nodes below
    the root. *)
Fixpoint tree_names (t : dtree) : list pyname :=
  let '(DNode nm _ children) := t in
  nm :: (fix go (l : list dtree) : list pyname :=
           match l with
           | [] => []
           | c :: l' => tree_names c ++ go l'
           end) children.

Definition forest_names (l : list dtree) : list pyname :=
  flat_map tree_names l.

Definition non_root_names (t : dtree) : list pyname :=
  forest_names (dchildren t).

(** A wildcard or variable marker, as [_expand_tree] tests for it. *)
Definition is_wild (nm : pyname) : bool :=
  name_is_str nm DOLLAR || name_is_str nm QMARK.

(** The tree inside a value returned by [_gen_sememe_tree]. *)
Definition tree_of (v : tree_value) : option dtree :=
  match v with
  | TreeDict t | TreeNode t => Some t
  | TreeNone => None
  end.

(** A clause without any entity: no vertical bar and no marker. *)
Definition no_entity (kdml : pystr) : bool :=
  forallb (λ c, negb (is_marker c) && negb (c =? PIPE)%N) kdml.

(** The names a node contributes itself to the result of [_expand_tree]. *)
Definition own_names (nm : pyname) (isRoot : bool) : gset pyname :=
  if isRoot then ∅ else if is_wild nm then ∅ else {[ nm ]}.

(** The same sense with another definition string. *)
Definition with_Def (s : Sense) (d : pystr) : Sense :=
  mkSense (No s) (en_word s) (en_grammar s) (ch_word s) (ch_grammar s) d
    (sememes s).

(** [strip_rmk] by recursion on the string: cut at the first place where
    [RMK=] begins. *)
Fixpoint cut_rmk (s : pystr) : pystr :=
  if prefixb RMK s then []
  else match s with
       | [] => []
       | c :: s' => c :: cut_rmk s'
       end.

(** The positions of the vertical bars of a string, counted from [i]. *)
Fixpoint bars_from (i : nat) (s : pystr) : list nat :=
  match s with
  | [] => []
  | c :: s' => if (c =? PIPE)%N then i :: bars_from (S i) s'
               else bars_from (S i) s'
  end.

Definition bars (s : pystr) : list nat := bars_from 0 s.

(** The sememe reference around the vertical bar at [i]: the registered
    label between the opening delimiter found backwards and the closing
    delimiter found forwards. *)
Definition reference_at (sememe_dic : gmap (list N) Sememe) (kdml : pystr)
    (i : nat) (s : pystr) : Prop :=
  ∃ a b, scan_start (scan_fuel kdml) kdml (Z.of_nat i) = Ret a ∧
         scan_end (scan_fuel kdml) kdml (Z.of_nat i) = Ret b ∧
         s = py_slice kdml (a + 1) b ∧ is_Some (sememe_dic !! s).

(** [int(s)] for a string of decimal digits. *)
Definition py_int (s : pystr) : option Z :=
  match s with
  | [] => None
  | _ :: _ =>
      foldl (λ acc c, n ← acc;
                      if ((48 <=? c) && (c <=? 57))%N
                      then Some (10 * n + (Z.of_N c - 48)) else None)
            (Some 0) s
  end.

(** [a <= b] on the identifiers of two senses, as the sort compares them. *)
Definition No_le (a b : Sense) : Prop := str_ltb (No b) (No a) = false.

(** The sense of an entry of a result of the mode [list]. *)
Definition qitem_sense (q : qitem) : option Sense :=
  match q with
  | QPair s _ => Some s
  | QTree _ => None
  end.

(** What the modes [dict] and [tree] keep of a candidate, and what they
    print about it. *)
Definition tree_or_skip (sememe_dic : gmap (list N) Sememe)
    (return_node : bool) (item : Sense) : option qitem :=
  match _gen_sememe_tree sememe_dic item return_node with
  | Ret t => Some (QTree t)
  | _ => None
  end.

Definition failure_report (sememe_dic : gmap (list N) Sememe)
    (return_node : bool) (item : Sense) : list event :=
  match _gen_sememe_tree sememe_dic item return_node with
  | Raise e => [PrintFailed (No item); PrintException e]
  | _ => []
  end.

(** ** A small knowledge base for the examples *)

Definition example_sememes : list (list N * Z) :=
  [(str "a|A", 1); (str "b|B", 2); (str "c|C", 3)].

Definition example_triples : list (list N) :=
  [str "a|A r c|C"; str "b|B r c|C"].

Definition example_senses : list (list N * hownet_item) :=
  [(str "9", mkItem (str "9") (str "w") (str "noun") (str "x") (str "noun")
               (str "{a|A:r={b|B}}"));
   (str "10", mkItem (str "10") (str "w") (str "noun") (str "y") (str "noun")
                (str "{c|C}"));
   (str "20", mkItem (str "20") (str "u") (str "noun") (str "u") (str "noun")
                (str "{a|A}"));
   (str "21", mkItem (str "21") (str "u") (str "noun") (str "t") (str "noun")
                (str "undefined"))].

Definition empty_kb : HowNetDict := mkHowNetDict ∅ [] ∅ ∅.

Definition example_kb : HowNetDict :=
  match HowNetDict_init example_sememes example_triples example_senses with
  | Ret kb => kb
  | _ => empty_kb
  end.

(** The registry before any triple is applied. *)
Definition example_registry : gmap (list N) Sememe :=
  list_to_map
    (map (λ kv, (kv.1, mkSememe (hd [] (py_split PIPE kv.1))
                         (hd [] (tl (py_split PIPE kv.1))) kv.1 kv.2 ∅ ∅ []))
       example_sememes).

Definition sense_9 : Sense :=
  mkSense (str "9") (str "w") (str "noun") (str "x") (str "noun")
    (str "{a|A:r={b|B}}") [str "a|A"; str "b|B"].
Definition sense_10 : Sense :=
  mkSense (str "10") (str "w") (str "noun") (str "y") (str "noun")
    (str "{c|C}") [str "c|C"].
Definition sense_20 : Sense :=
  mkSense (str "20") (str "u") (str "noun") (str "u") (str "noun")
    (str "{a|A}") [str "a|A"].
Definition sense_21 : Sense :=
  mkSense (str "21") (str "u") (str "noun") (str "t") (str "noun")
    (str "undefined") [].

(** The example of the specification, with both of its sememes registered. *)
Definition belong_zh : pystr := str "belong|" ++ [23646; 20110]%N.
Definition human_zh : pystr := str "human|" ++ [20154]%N.

Definition belong_registry : gmap (list N) Sememe :=
  <[belong_zh := mkSememe (str "belong") [23646; 20110]%N belong_zh 1 ∅ ∅ []]>
    (<[human_zh := mkSememe (str "human") [20154]%N human_zh 1 ∅ ∅ []]> ∅).

Definition belong_sense (d : pystr) : Sense :=
  mkSense (str "1") (str "belong") (str "verb") [23646; 20110]%N (str "verb")
    d [].

(** The definition of the example: the marker follows the closing brace
    of the inner reference. *)
Definition belong_human_def : pystr :=
  str "{" ++ belong_zh ++ str ":{" ++ human_zh ++ str "}~}".

(** A definition whose marker stands in a group of its own. *)
Definition belong_marker_def : pystr :=
  str "{" ++ belong_zh ++ str ":{~}}".

(** Every head and tail of the triples is a registered sememe. *)
Definition registered (dic : gmap (list N) Sememe)
    (lines : list (list N * list N * list N)) : Prop :=
  ∀ h r t, (h, r, t) ∈ lines → is_Some (dic !! h) ∧ is_Some (dic !! t).

(** A clause without anaphora markers and without spaces. *)
Definition plain_clause (kdml : pystr) : bool :=
  forallb (λ c, negb (is_marker c) && negb (c =? SPACE)%N) kdml.

(** The entity nodes of a clause after the first two loops of the parser:
    the entity scan, then parent and role resolution. *)
Definition attached_entities (sememe_dic : gmap (list N) Sememe)
    (kdml : pystr) : outcome (list anode) :=
  st ← for_each (range (length kdml))
         (entity_step (scan_fuel kdml) sememe_dic kdml) (mkEntities [] [] []);
  for_each (range (length (entity_idx st)))
    (resolve_step (scan_fuel kdml) kdml (entity_idx st)) (node st).

(** Entity 0 hangs below the root and every later entity below an
    earlier one. *)
Definition well_attached (ns : list anode) : Prop :=
  ∀ k nd, ns !! k = Some nd →
    (k = 0%nat ∧ parent nd = Some NRoot) ∨
    (∃ j, (j < k)%nat ∧ parent nd = Some (NEnt j)).

(** A sense of the example registry with the given definition. *)
Definition example_sense (d : pystr) : Sense :=
  mkSense (str "7") (str "word") (str "noun") (str "ci") (str "noun") d [].

(** Two clauses and a remark. *)
Definition two_clause_def : pystr := str "{a|A:r={b|B}};{c|C}RMK={b|B}".

(** A reference whose closing delimiter is missing. *)
Definition unclosed_def : pystr := str "{a|A".

(** Two groups side by side: the second reference finds no parent. *)
Definition side_by_side_def : pystr := str "{a|A}{c|C}".

Definition tree_9 : dtree :=
  DNode (NmSense (str "9")) (str "sense")
    [DNode (NmSememe (str "a|A")) (str "None")
       [DNode (NmSememe (str "b|B")) (str "r") []]].

Definition tree_side_by_side : dtree :=
  DNode (NmSense (str "7")) (str "sense")
    [DNode (NmSememe (str "a|A")) (str "None") []].

(** Two triples with different heads and the same relation and tail. *)
Definition two_heads_one_tail : list (list N * list N * list N) :=
  [(str "a|A", str "r", str "c|C"); (str "b|B", str "r", str "c|C")].

(** ** Invariants of the loops of the tree builder *)


(** What the entity scan guarantees about the three lists. *)
Record entities_ok (st : entities) : Prop := {
  ok_length : length (entity_idx st) = length (node st);
  ok_parent : ∀ k nd, node st !! k = Some nd → parent nd = None;
  ok_pointer_lt : ∀ k, k ∈ pointer st → (k < length (node st))%nat;
  ok_pointer : ∀ k nd, node st !! k = Some nd →
                 (name nd = NmStr [TILDE] ↔ k ∈ pointer st)
}.

(** After the resolution loop a parent, if any, is an earlier entity. *)
Definition resolved_ok (ns : list anode) : Prop :=
  ∀ k nd, ns !! k = Some nd →
    parent nd = None ∨ ∃ j, (j < k)%nat ∧ parent nd = Some (NEnt j).

(** The state of the collapse loop after the markers [pre]. *)
Record collapsed_ok (names : list pyname) (pre : list nat) (f : forest)
    : Prop := {
  co_first : 0%nat ∉ pre;
  co_names : name <$> nodes f = names;
  co_root : parent (root f) = None;
  co_resolved : resolved_ok (nodes f);
  co_detached : ∀ k nd, k ∈ pre → nodes f !! k = Some nd → parent nd = None
}.

(** ** Further notions used in the statements *)

(** The names of the nodes of a tree at depth less than [n], the node
    itself being at depth 0. *)
Fixpoint names_within (n : nat) (t : dtree) : list pyname :=
  match n with
  | O => []
  | S n' => let '(DNode nm _ children) := t in
            nm :: flat_map (names_within n') children
  end.

(** The name of an entity node: a registered sememe or a marker. *)
Definition entity_name_ok (sememe_dic : gmap (list N) Sememe) (nm : pyname)
    : Prop :=
  match nm with
  | NmSememe k => is_Some (sememe_dic !! k)
  | NmStr s => ∃ c, s = [c] ∧ is_marker c = true
  | NmSense _ => False
  end.

(** The exceptions the two parsers of a definition can raise. *)
Definition lookup_exn (sememe_dic : gmap (list N) Sememe) (e : exn) : Prop :=
  e = IndexError ∨ ∃ k, e = KeyError k ∧ sememe_dic !! k = None.

(** What the mode [visual] prints for the trees [ts], the first one
    having the number [index]. *)
Fixpoint display_log (index : nat) (ts : list tree_value) : list event :=
  match ts with
  | [] => []
  | t :: ts' => PrintDisplay index :: PrintTree t :: display_log (S index) ts'
  end.

(** The candidates the mode [visual] shows. *)
Definition shown (K : option Z) (cands : list Sense) : list Sense :=
  match K with
  | Some k => if 1 <=? k then take (Z.to_nat k) cands else cands
  | None => cands
  end.

Definition empty_result (merge : bool) : qresult :=
  if merge then QSet ∅ else QList [].

(** ** Notions used for the loaded knowledge base *)

(** A registry entry made from the entry [k] of [sememe_all]. *)
Definition labelled (sememe_all : list (list N * Z)) (k : pystr)
    (s : Sememe) : Prop :=
  en_ch s = k ∧ k = en s ++ PIPE :: ch s ∧ (PIPE ∉ en s) ∧ (PIPE ∉ ch s) ∧
  (k, freq s) ∈ sememe_all.

(** The fields of a sememe set by [Sememe.__init__] and never again. *)
Definition same_labels (s s' : Sememe) : Prop :=
  en s' = en s ∧ ch s' = ch s ∧ en_ch s' = en_ch s ∧ freq s' = freq s.

(** Two registries with the same keys whose entries are related. *)
Definition preserves (R : Sememe → Sememe → Prop)
    (d d' : gmap (list N) Sememe) : Prop :=
  ∀ k, option_Forall2 R (d !! k) (d' !! k).

Definition same_senses (s s' : Sememe) : Prop :=
  same_labels s s' ∧ senses s' = senses s.

Definition same_relations (s s' : Sememe) : Prop :=
  same_labels s s' ∧
  related_sememes_forward s' = related_sememes_forward s ∧
  related_sememes_backward s' = related_sememes_backward s.

(** [HowNetDict.__len__] *)
Definition HowNetDict_len (self : HowNetDict) : nat := length (sense_dic self).

(** How often the key [k] occurs in a list of references. *)
Definition occurrences (k : pystr) (l : list (list N)) : nat :=
  length (filter (λ s, s = k) l).

(** The value a word index holds for a list of senses: no entry for the
    empty list. *)
Definition index_entry (l : list Sense) : option (list Sense) :=
  match l with [] => None | _ :: _ => Some l end.

(** ** Further examples *)

(** A definition with a vertical bar and no opening delimiter. *)
Definition no_opener_def : pystr := str "a|A".

(** A line of the triples file, indented and with its line feed. *)
Definition example_line : pystr := [32; 32]%N ++ str "a|A r c|C" ++ [10]%N.

Definition tree_10 : dtree :=
  DNode (NmSense (str "10")) (str "sense")
    [DNode (NmSememe (str "c|C")) (str "None") []].

(** ** References and clauses, by position *)

(** The characters at the positions from [p] up to, not including, [q]. *)
Definition between {A : Type} (p q : nat) (l : list A) : list A :=
  take (q - p) (drop p l).

(** The text of the reference around the position [i]: what stands
    between the nearest opening delimiter (a brace or a quote) before [i]
    and the nearest closing delimiter (a brace, a colon or a quote) from
    [i] on. *)
Definition reference_text (kdml : pystr) (i : nat) (s : pystr) : Prop :=
  ∃ p q : nat,
    (p < i)%nat ∧ (i ≤ q)%nat ∧
    (kdml !! p = Some LBRACE ∨ kdml !! p = Some QUOTE) ∧
    (∀ j, (p < j < i)%nat →
          kdml !! j ≠ Some LBRACE ∧ kdml !! j ≠ Some QUOTE) ∧
    (kdml !! q = Some RBRACE ∨ kdml !! q = Some COLON ∨
     kdml !! q = Some QUOTE) ∧
    (∀ j, (i ≤ j < q)%nat →
          kdml !! j ≠ Some RBRACE ∧ kdml !! j ≠ Some COLON ∧
          kdml !! j ≠ Some QUOTE) ∧
    s = between (S p) q kdml.

(** Every vertical bar has an opening delimiter somewhere before it. *)
Definition opened (kdml : pystr) : Prop :=
  Forall (λ i, LBRACE ∈ take i kdml ∨ QUOTE ∈ take i kdml) (bars kdml).

(** The marker of a remark begins at no position of the string. *)
Definition no_remark (c : pystr) : Prop :=
  Forall (λ k, ¬ RMK `prefix_of` drop k c) (seq 0 (length c)).

(** A label with every space turned into an underscore. *)
Definition underscored (s : pystr) : pystr :=
  map (λ ch, if decide (ch = SPACE) then UNDERSCORE else ch) s.

(** What a node below the root can be named in the tree of the clause
    [c]: a reference of the clause, or a wildcard or variable marker that
    occurs in it. *)
Definition named_in_clause (c : pystr) (x : pyname) : Prop :=
  (∃ i s, c !! i = Some PIPE ∧ reference_text c i s ∧
          x = NmSememe (underscored s)) ∨
  (x = NmStr [QMARK] ∧ QMARK ∈ c) ∨
  (x = NmStr [DOLLAR] ∧ DOLLAR ∈ c).


(** The tree of the sense 7 whose first reference has the second one
    below it, in the role [r]. *)
Definition tree_7 : dtree :=
  DNode (NmSense (str "7")) (str "sense")
    [DNode (NmSememe (str "a|A")) (str "None")
       [DNode (NmSememe (str "b|B")) (str "r") []]].


Definition tree_belong : dtree :=
  DNode (NmSense (str "1")) (str "sense")
    [DNode (NmSememe belong_zh) (str "None") []].

(** A line of the triples file with white space only. *)
Definition blank_line : pystr := [32; 10]%N.

(** * Properties *)

(** ** The error monad and the loops *)

Lemma bind_Ret {A B : Type} (m : outcome A) (f : A → outcome B) (b : B) :
  m ≫= f = Ret b → ∃ a, m = Ret a ∧ f a = Ret b.
Proof. destruct m; simpl; intros; eauto; discriminate. Qed.

Lemma bind_not_Diverge {A B : Type} (m : outcome A) (f : A → outcome B) :
  m ≠ Diverge → (∀ a, m = Ret a → f a ≠ Diverge) → m ≫= f ≠ Diverge.
Proof. destruct m; simpl; intros; eauto. Qed.

Lemma for_each_app {A S : Type} (l1 l2 : list A) (body : S → A → outcome S) s :
  for_each (l1 ++ l2) body s = for_each l1 body s ≫= for_each l2 body.
Proof.
  revert s. induction l1 as [|x l1 IH]; intros s; simpl; [done|].
  destruct (body s x); simpl; auto.
Qed.

Lemma for_each_ext {A S : Type} (l : list A) (body1 body2 : S → A → outcome S) s :
  (∀ s x, x ∈ l → body1 s x = body2 s x) →
  for_each l body1 s = for_each l body2 s.
Proof.
  revert s. induction l as [|x l IH]; intros s H; simpl; [done|].
  rewrite H; [|left]. destruct (body2 s x); simpl; auto.
  apply IH. intros. apply H. by right.
Qed.

Lemma for_each_not_Diverge {A S : Type} (l : list A) (body : S → A → outcome S) s :
  (∀ s x, body s x ≠ Diverge) → for_each l body s ≠ Diverge.
Proof.
  intros H. revert s. induction l as [|x l IH]; intros s; simpl; [done|].
  apply bind_not_Diverge; auto.
Qed.

(** An invariant that may mention the items already processed. *)
Lemma for_each_invariant {A S : Type} (I : list A → S → Prop)
    (l : list A) (body : S → A → outcome S) s s' :
  I [] s →
  (∀ pre x post s1 s2, l = pre ++ x :: post → I pre s1 →
     body s1 x = Ret s2 → I (pre ++ [x]) s2) →
  for_each l body s = Ret s' → I l s'.
Proof.
  intros H0 Hstep.
  assert (∀ post pre s1, l = pre ++ post → I pre s1 →
            for_each post body s1 = Ret s' → I l s') as G.
  { induction post as [|x post IH]; intros pre s1 El Hp Hr; simpl in Hr.
    - rewrite app_nil_r in El. congruence.
    - apply bind_Ret in Hr as (s2 & Hb & Hr).
      apply (IH (pre ++ [x]) s2); [by rewrite <- app_assoc| |done].
      by eapply Hstep. }
  by apply (G l [] s).
Qed.

Lemma py_index_not_Diverge {A : Type} (s : list A) i : py_index s i ≠ Diverge.
Proof.
  unfold py_index. destruct (_ && _); [|done]. by destruct (s !! _).
Qed.

Lemma py_index_Ret {A : Type} (s : list A) (i : Z) (c : A) :
  py_index s i = Ret c →
  - Z.of_nat (length s) ≤ i < Z.of_nat (length s).
Proof.
  unfold py_index. destruct (i <? 0) eqn:E;
    destruct (_ && _) eqn:E2; try discriminate; intros _;
    apply andb_true_iff in E2 as [?%Z.leb_le ?%Z.ltb_lt];
    [apply Z.ltb_lt in E | apply Z.ltb_ge in E]; lia.
Qed.

Lemma py_index_nat {A : Type} (s : list A) (i : nat) :
  py_index s (Z.of_nat i) =
    match s !! i with Some c => Ret c | None => Raise IndexError end.
Proof.
  unfold py_index. destruct (Z.of_nat i <? 0) eqn:E;
    [apply Z.ltb_lt in E; lia|].
  rewrite Nat2Z.id. destruct (s !! i) eqn:El.
  - apply lookup_lt_Some in El.
    destruct (_ && _) eqn:E2; [done|].
    apply andb_false_iff in E2 as [?%Z.leb_gt | ?%Z.ltb_ge]; lia.
  - by destruct (_ && _).
Qed.

(** ** Termination of the scans *)

Lemma scan_start_fuel (kdml : pystr) (f1 f2 : nat) (idx : Z) :
  (1 ≤ f1)%nat → (1 ≤ f2)%nat →
  (idx < Z.of_nat (length kdml) →
     idx + Z.of_nat (length kdml) + 2 ≤ Z.of_nat f1 ∧
     idx + Z.of_nat (length kdml) + 2 ≤ Z.of_nat f2) →
  scan_start f1 kdml idx = scan_start f2 kdml idx ∧
  scan_start f1 kdml idx ≠ Diverge.
Proof.
  revert f2 idx. induction f1 as [|f1 IH]; intros f2 idx H1 H2 Hb; [lia|].
  destruct f2 as [|f2]; [lia|]. simpl.
  destruct (py_index kdml idx) as [c| |] eqn:Ei; simpl; [|done|].
  - apply py_index_Ret in Ei.
    destruct (is_opener c); [done|]. apply IH; lia.
  - by apply py_index_not_Diverge in Ei.
Qed.

Lemma scan_end_fuel (kdml : pystr) (f1 f2 : nat) (idx : Z) :
  (1 ≤ f1)%nat → (1 ≤ f2)%nat →
  (- Z.of_nat (length kdml) ≤ idx →
     Z.of_nat (length kdml) - idx + 1 ≤ Z.of_nat f1 ∧
     Z.of_nat (length kdml) - idx + 1 ≤ Z.of_nat f2) →
  scan_end f1 kdml idx = scan_end f2 kdml idx ∧
  scan_end f1 kdml idx ≠ Diverge.
Proof.
  revert f2 idx. induction f1 as [|f1 IH]; intros f2 idx H1 H2 Hb; [lia|].
  destruct f2 as [|f2]; [lia|]. simpl.
  destruct (py_index kdml idx) as [c| |] eqn:Ei; simpl; [|done|].
  - apply py_index_Ret in Ei.
    destruct (is_closer c); [done|]. apply IH; lia.
  - by apply py_index_not_Diverge in Ei.
Qed.

Lemma find_owner_fuel (kdml : pystr) (f1 f2 : nat) (cursor l r q : Z) :
  (1 ≤ f1)%nat → (1 ≤ f2)%nat →
  (cursor < Z.of_nat (length kdml) →
     cursor + Z.of_nat (length kdml) + 2 ≤ Z.of_nat f1 ∧
     cursor + Z.of_nat (length kdml) + 2 ≤ Z.of_nat f2) →
  find_owner f1 kdml cursor l r q = find_owner f2 kdml cursor l r q ∧
  find_owner f1 kdml cursor l r q ≠ Diverge.
Proof.
  revert f2 cursor l r q.
  induction f1 as [|f1 IH]; intros f2 cursor l r q H1 H2 Hb; [lia|].
  destruct f2 as [|f2]; [lia|]. simpl.
  destruct (py_index kdml cursor) as [c| |] eqn:Ei; simpl; [|done|].
  - apply py_index_Ret in Ei.
    destruct (_ && _); [done|]. destruct (cursor =? 0); [done|].
    repeat (destruct (_ =? _)%N); apply IH; lia.
  - by apply py_index_not_Diverge in Ei.
Qed.

Lemma registry_ref_not_Diverge (dic : gmap (list N) Sememe) k :
  registry_ref dic k ≠ Diverge.
Proof. unfold registry_ref. by destruct (dic !! k). Qed.

Lemma update_node_not_Diverge ns i f : update_node ns i f ≠ Diverge.
Proof.
  unfold update_node. apply bind_not_Diverge; [apply py_index_not_Diverge|done].
Qed.

Lemma find_parent_not_Diverge es cursor i : find_parent es cursor i ≠ Diverge.
Proof.
  induction i as [|i IH]; simpl; [done|].
  apply bind_not_Diverge; [apply py_index_not_Diverge|].
  intros e _. by destruct (_ =? _).
Qed.

Lemma role_scan_not_Diverge kdml js b e : role_scan kdml js b e ≠ Diverge.
Proof.
  revert b e. induction js as [|j js IH]; intros b e; simpl; [done|].
  apply bind_not_Diverge; [apply py_index_not_Diverge|].
  intros c _. destruct (_ =? _)%N; [apply IH|]. by destruct (_ || _).
Qed.

Lemma collapse_step_not_Diverge f i : collapse_step f i ≠ Diverge.
Proof.
  unfold collapse_step.
  apply bind_not_Diverge; [apply py_index_not_Diverge|].
  intros nd _. destruct (parent nd) as [p|]; [|done].
  apply bind_not_Diverge.
  - destruct p; simpl; [done|].
    apply bind_not_Diverge; [apply update_node_not_Diverge|done].
  - intros f1 _. apply bind_not_Diverge; [apply update_node_not_Diverge|done].
Qed.

Create HintDb nodiv.
#[local] Hint Resolve py_index_not_Diverge registry_ref_not_Diverge
  update_node_not_Diverge find_parent_not_Diverge role_scan_not_Diverge
  collapse_step_not_Diverge : nodiv.

Lemma scan_fuel_start (kdml : pystr) (f : nat) (i : nat) :
  (scan_fuel kdml ≤ f)%nat →
  scan_start f kdml (Z.of_nat i) = scan_start (scan_fuel kdml) kdml (Z.of_nat i) ∧
  scan_start f kdml (Z.of_nat i) ≠ Diverge.
Proof. unfold scan_fuel. intros H. apply scan_start_fuel; lia. Qed.

Lemma scan_fuel_end (kdml : pystr) (f : nat) (i : nat) :
  (scan_fuel kdml ≤ f)%nat →
  scan_end f kdml (Z.of_nat i) = scan_end (scan_fuel kdml) kdml (Z.of_nat i) ∧
  scan_end f kdml (Z.of_nat i) ≠ Diverge.
Proof. unfold scan_fuel. intros H. apply scan_end_fuel; lia. Qed.

Lemma scan_fuel_owner (kdml : pystr) (f : nat) (cursor : Z) :
  (scan_fuel kdml ≤ f)%nat →
  find_owner f kdml cursor 0 0 0
    = find_owner (scan_fuel kdml) kdml cursor 0 0 0 ∧
  find_owner f kdml cursor 0 0 0 ≠ Diverge.
Proof. unfold scan_fuel. intros H. apply find_owner_fuel; lia. Qed.

Lemma entity_step_fuel dic kdml f st i :
  (scan_fuel kdml ≤ f)%nat →
  entity_step f dic kdml st i = entity_step (scan_fuel kdml) dic kdml st i ∧
  entity_step f dic kdml st i ≠ Diverge.
Proof.
  intros H. unfold entity_step.
  destruct (scan_fuel_start kdml f i H) as [-> _].
  destruct (scan_fuel_end kdml f i H) as [-> _].
  split; [done|].
  apply bind_not_Diverge; [auto with nodiv|]. intros c _.
  destruct (is_marker c); [done|]. destruct (_ =? _)%N; [|done].
  apply bind_not_Diverge; [apply (scan_fuel_start kdml _ i); lia|]. intros a _.
  apply bind_not_Diverge; [apply (scan_fuel_end kdml _ i); lia|]. intros b _.
  apply bind_not_Diverge; [auto with nodiv|done].
Qed.

Lemma resolve_step_fuel kdml f es ns i :
  (scan_fuel kdml ≤ f)%nat →
  resolve_step f kdml es ns i = resolve_step (scan_fuel kdml) kdml es ns i ∧
  resolve_step f kdml es ns i ≠ Diverge.
Proof.
  intros H. unfold resolve_step.
  assert (∀ c, find_owner f kdml c 0 0 0
               = find_owner (scan_fuel kdml) kdml c 0 0 0) as E
    by (intros c; by apply scan_fuel_owner).
  split.
  { destruct (py_index es (Z.of_nat i)); simpl; [|done..]. by rewrite E. }
  apply bind_not_Diverge; [auto with nodiv|]. intros e_i _.
  apply bind_not_Diverge; [by apply scan_fuel_owner|]. intros cursor _.
  apply bind_not_Diverge; [auto with nodiv|]. intros parent_idx _.
  apply bind_not_Diverge.
  { destruct parent_idx; [|done].
    apply bind_not_Diverge; auto with nodiv. }
  intros node1 _. destruct (_ =? _)%nat; [done|].
  apply bind_not_Diverge.
  { destruct parent_idx; (apply bind_not_Diverge; [auto with nodiv|done]). }
  intros right_range _.
  apply bind_not_Diverge; [auto with nodiv|]. intros [b e] _.
  destruct (_ =? _); [done|auto with nodiv].
Qed.

Lemma parse_clause_fuel dic sense ret kdml f :
  (scan_fuel kdml ≤ f)%nat →
  parse_clause f dic sense ret kdml
    = parse_clause (scan_fuel kdml) dic sense ret kdml ∧
  parse_clause f dic sense ret kdml ≠ Diverge.
Proof.
  intros H. unfold parse_clause.
  rewrite (for_each_ext _ (entity_step f dic kdml)
             (entity_step (scan_fuel kdml) dic kdml))
    by (intros; by apply entity_step_fuel).
  assert (∀ es ns l, for_each l (resolve_step f kdml es) ns
            = for_each l (resolve_step (scan_fuel kdml) kdml es) ns) as E
    by (intros; apply for_each_ext; intros; by apply resolve_step_fuel).
  split.
  { destruct (for_each _ (entity_step _ _ _) _); simpl; [|done..].
    by rewrite E. }
  apply bind_not_Diverge.
  { apply for_each_not_Diverge. intros. by apply entity_step_fuel. }
  intros st _. apply bind_not_Diverge.
  { apply for_each_not_Diverge. intros. by apply resolve_step_fuel. }
  intros node1 _. apply bind_not_Diverge.
  { apply for_each_not_Diverge. auto with nodiv. }
  intros fo _. apply bind_not_Diverge; [auto with nodiv|].
  intros ns _. by destruct ret.
Qed.

Lemma py_split_nonempty sep s : py_split sep s ≠ [].
Proof.
  induction s as [|c s IH]; simpl; [done|].
  destruct (_ =? _)%N; [done|]. by destruct (py_split sep s).
Qed.

(** The parser terminates on every input, and more fuel never changes
    what it returns. *)
Lemma gen_sememe_tree_total dic sense ret :
  _gen_sememe_tree dic sense ret ≠ Diverge ∧
  ∀ fuel : list N → nat,
    (∀ kdml, (scan_fuel kdml ≤ fuel kdml)%nat) →
    gen_sememe_tree_fuel fuel dic sense ret = _gen_sememe_tree dic sense ret.
Proof.
  unfold _gen_sememe_tree, gen_sememe_tree_fuel.
  destruct (py_split SEMI (strip_rmk (Def sense))) as [|kdml rest]; [done|].
  split; [by apply parse_clause_fuel|].
  intros fuel Hf. by apply parse_clause_fuel.
Qed.

Lemma gen_sememe_list_total dic sense :
  _gen_sememe_list dic sense ≠ Diverge.
Proof.
  unfold _gen_sememe_list, gen_sememe_list_fuel.
  apply for_each_not_Diverge. intros res i. unfold list_step.
  apply bind_not_Diverge; [auto with nodiv|]. intros c _.
  destruct (_ =? _)%N; [|done].
  apply bind_not_Diverge; [apply (scan_fuel_start _ _ i); lia|]. intros a _.
  apply bind_not_Diverge; [apply (scan_fuel_end _ _ i); lia|]. intros b _.
  apply bind_not_Diverge; [auto with nodiv|done].
Qed.

(** ** Exceptions of the entity scan *)

Lemma py_index_Raise {A : Type} (s : list A) i e :
  py_index s i = Raise e → e = IndexError.
Proof.
  unfold py_index. destruct (_ && _); [destruct (s !! _)|]; congruence.
Qed.

Lemma scan_start_Raise f kdml idx e :
  scan_start f kdml idx = Raise e → e = IndexError.
Proof.
  revert idx. induction f as [|f IH]; intros idx; simpl; [done|].
  destruct (py_index kdml idx) as [c| |] eqn:E; simpl; [|intros [= <-]|done].
  - destruct (is_opener c); [done|apply IH].
  - by apply py_index_Raise in E.
Qed.

Lemma scan_end_Raise f kdml idx e :
  scan_end f kdml idx = Raise e → e = IndexError.
Proof.
  revert idx. induction f as [|f IH]; intros idx; simpl; [done|].
  destruct (py_index kdml idx) as [c| |] eqn:E; simpl; [|intros [= <-]|done].
  - destruct (is_closer c); [done|apply IH].
  - by apply py_index_Raise in E.
Qed.


Lemma for_each_Raise {A S : Type} (l : list A) (body : S → A → outcome S) s e :
  for_each l body s = Raise e → ∃ s1 x, x ∈ l ∧ body s1 x = Raise e.
Proof.
  revert s. induction l as [|x l IH]; intros s; simpl; [done|].
  destruct (body s x) as [s2| |] eqn:E; simpl; [|intros [= <-]|done].
  - intros (s1 & y & Hy & Hb)%IH. exists s1, y. split; [by right|done].
  - exists s, x. split; [left|done].
Qed.

Lemma scan_end_unclosed f (kdml : pystr) (idx : nat) :
  unclosed_from kdml idx = true →
  scan_end f kdml (Z.of_nat idx) = Raise IndexError ∨
  scan_end f kdml (Z.of_nat idx) = Diverge.
Proof.
  unfold unclosed_from. revert idx.
  induction f as [|f IH]; intros idx H; simpl; [by right|].
  rewrite py_index_nat. destruct (kdml !! idx) as [c|] eqn:E; simpl; [|by left].
  rewrite (drop_S _ _ _ E) in H. simpl in H.
  apply andb_true_iff in H as [Hc H].
  apply negb_true_iff in Hc. rewrite Hc.
  replace (Z.of_nat idx + 1) with (Z.of_nat (S idx)) by lia. by apply IH.
Qed.





(** ** Invariants of the tree builder *)

Lemma tree_names_eq nm rl cs :
  tree_names (DNode nm rl cs) = nm :: forest_names cs.
Proof. reflexivity. Qed.

Lemma update_node_Ret ns i f ns' :
  update_node ns i f = Ret ns' →
  ∃ nd, ns !! i = Some nd ∧ ns' = <[i := f nd]> ns.
Proof.
  unfold update_node. rewrite py_index_nat.
  destruct (ns !! i) as [nd|]; simpl; [|done]. intros [= <-]. eauto.
Qed.

Lemma entity_step_ok f dic kdml st i st' :
  entities_ok st → entity_step f dic kdml st i = Ret st' → entities_ok st'.
Proof.
  intros [Hl Hp Hlt Hptr]. unfold entity_step.
  destruct (py_index kdml (Z.of_nat i)) as [c| |]; simpl; [|done..].
  destruct (is_marker c) eqn:Em.
  - intros [= <-]. split; simpl.
    + rewrite !length_app. simpl. lia.
    + intros k nd [[_ H]|[_ <-]]%lookup_snoc_Some; [by eapply Hp|done].
    + intros k. rewrite length_app. simpl.
      destruct (c =? TILDE)%N.
      * intros [H| ->%list_elem_of_singleton]%elem_of_app; [apply Hlt in H|]; lia.
      * intros H%Hlt. lia.
    + intros k nd [[Hk H]|[-> <-]]%lookup_snoc_Some.
      * rewrite (Hptr k nd H). destruct (c =? TILDE)%N; [|done].
        rewrite elem_of_app, list_elem_of_singleton.
        split; [by left|]. intros [?| ->]; [done|lia].
      * simpl. destruct (c =? TILDE)%N eqn:Ec.
        -- apply N.eqb_eq in Ec as ->.
           rewrite elem_of_app, list_elem_of_singleton. split; auto.
        -- apply N.eqb_neq in Ec. split; [congruence|].
           intros H%Hlt. lia.
  - destruct (c =? PIPE)%N; [|intros [= <-]; by split].
    destruct (scan_start _ _ _) as [a| |]; simpl; [|done..].
    destruct (scan_end _ _ _) as [b| |]; simpl; [|done..].
    destruct (registry_ref _ _) as [s| |]; simpl; [|done..].
    intros [= <-]. split; simpl.
    + rewrite !length_app. simpl. lia.
    + intros k nd [[_ H]|[_ <-]]%lookup_snoc_Some; [by eapply Hp|done].
    + intros k H%Hlt. rewrite length_app. simpl. lia.
    + intros k nd [[Hk H]|[-> <-]]%lookup_snoc_Some; [by apply Hptr|].
      simpl. split; [done|]. intros H%Hlt. lia.
Qed.

Lemma entity_scan_ok f dic kdml l st :
  for_each l (entity_step f dic kdml) (mkEntities [] [] []) = Ret st →
  entities_ok st.
Proof.
  apply (for_each_invariant (λ _, entities_ok)).
  - split; simpl; try done. intros k H. by apply elem_of_nil in H.
  - intros. by eapply entity_step_ok.
Qed.

Lemma update_node_names ns i f ns' :
  update_node ns i f = Ret ns' →
  (∀ nd, name (f nd) = name nd) → name <$> ns' = name <$> ns.
Proof.
  intros (nd & Hi & ->)%update_node_Ret Hf.
  rewrite list_fmap_insert, Hf. apply list_insert_id.
  by rewrite list_lookup_fmap, Hi.
Qed.

Lemma update_node_lookup ns i f ns' k nd' :
  update_node ns i f = Ret ns' → ns' !! k = Some nd' →
  ∃ nd, ns !! k = Some nd ∧ nd' = if decide (k = i) then f nd else nd.
Proof.
  intros (nd & Hi & ->)%update_node_Ret Hk.
  destruct (decide (k = i)) as [->|Hne].
  - exists nd. split; [done|].
    rewrite list_lookup_insert_eq in Hk by by eapply lookup_lt_Some.
    congruence.
  - rewrite list_lookup_insert_ne in Hk by done. eauto.
Qed.

Lemma find_parent_lt es cursor i j :
  find_parent es cursor i = Ret (Some j) → (j < i)%nat.
Proof.
  induction i as [|i IH]; simpl; [done|].
  destruct (py_index es _) as [e| |]; simpl; [|done..].
  destruct (_ =? _); [intros [= <-]; lia|]. intros H%IH. lia.
Qed.

Lemma resolve_step_ok f kdml es ns i ns' :
  resolve_step f kdml es ns i = Ret ns' →
  name <$> ns' = name <$> ns ∧ (resolved_ok ns → resolved_ok ns').
Proof.
  unfold resolve_step. intros H.
  apply bind_Ret in H as (e_i & _ & H).
  apply bind_Ret in H as (cursor & _ & H).
  apply bind_Ret in H as (parent_idx & Hpi & H).
  apply bind_Ret in H as (node1 & H1 & H).
  assert (name <$> node1 = name <$> ns ∧ (resolved_ok ns → resolved_ok node1))
    as [Hn1 Hr1].
  { destruct parent_idx as [j|]; [|by injection H1 as <-].
    apply bind_Ret in H1 as (_ & _ & H1). split.
    - by eapply update_node_names.
    - intros Hok k nd' Hk.
      destruct (update_node_lookup _ _ _ _ _ _ H1 Hk) as (nd & Hnd & ->).
      destruct (decide (k = i)) as [->|_]; [|by eapply Hok].
      right. exists j. split; [by eapply find_parent_lt|done]. }
  destruct (i =? 0)%nat; [injection H as <-; by split|].
  apply bind_Ret in H as (right_range & _ & H).
  apply bind_Ret in H as ([b e] & _ & H).
  destruct (e =? -1); [injection H as <-; by split|]. split.
  - rewrite <- Hn1. by eapply update_node_names.
  - intros Hok k nd' Hk.
    destruct (update_node_lookup _ _ _ _ _ _ H Hk) as (nd & Hnd & ->).
    specialize (Hr1 Hok k nd Hnd). by destruct (decide (k = i)).
Qed.

Lemma resolve_loop_ok f kdml es l ns ns' :
  for_each l (resolve_step f kdml es) ns = Ret ns' →
  (∀ k nd, ns !! k = Some nd → parent nd = None) →
  name <$> ns' = name <$> ns ∧ resolved_ok ns'.
Proof.
  intros H Hp.
  apply (for_each_invariant
           (λ _ s, name <$> s = name <$> ns ∧ resolved_ok s)) in H; [done| |].
  - split; [done|]. intros k nd Hk. left. by eapply Hp.
  - intros pre x post s1 s2 _ [Hn Hok] Hb.
    apply resolve_step_ok in Hb as [Hn2 Hok2].
    split; [congruence|auto].
Qed.

Lemma collapse_step_ok names pre f i f' :
  collapsed_ok names pre f → collapse_step f i = Ret f' →
  collapsed_ok names (pre ++ [i]) f' ∧ name (root f') = name (root f).
Proof.
  intros [H0 Hn Hrp Hok Hd]. unfold collapse_step. rewrite py_index_nat.
  destruct (nodes f !! i) as [nd|] eqn:Ei; simpl; [|done].
  destruct (parent nd) as [p|] eqn:Ep; [|done]. intros H.
  apply bind_Ret in H as (f1 & H1 & H).
  apply bind_Ret in H as (ns & H2 & [= <-]). simpl.
  assert (i ≠ 0%nat) as Hi0.
  { intros ->. destruct (Hok _ _ Ei) as [?|(j & ? & _)]; [congruence|lia]. }
  assert (name (root f1) = name (root f) ∧ parent (root f1) = None ∧
          name <$> nodes f1 = names ∧
          ∀ k nd1, nodes f1 !! k = Some nd1 →
            ∃ nd0, nodes f !! k = Some nd0 ∧ parent nd1 = parent nd0)
    as (Hr1 & Hrp1 & Hn1 & Hp1).
  { destruct p as [|j]; simpl in H1.
    - injection H1 as <-. simpl.
      split; [done|]. split; [done|]. split; [done|]. eauto.
    - apply bind_Ret in H1 as (ns1 & Hu & [= <-]). simpl.
      split; [done|]. split; [done|]. split.
      + rewrite <- Hn. by eapply update_node_names.
      + intros k nd1 Hk.
        destruct (update_node_lookup _ _ _ _ _ _ Hu Hk) as (nd0 & Hnd & ->).
        exists nd0. split; [done|]. by destruct (decide (k = j)). }
  split; [|done]. split; simpl.
  - rewrite elem_of_app, list_elem_of_singleton. intros [?|?]; [done|lia].
  - rewrite <- Hn1. by eapply update_node_names.
  - done.
  - intros k nd2 Hk.
    destruct (update_node_lookup _ _ _ _ _ _ H2 Hk) as (nd1 & Hnd1 & ->).
    destruct (decide (k = i)); [by left|].
    destruct (Hp1 _ _ Hnd1) as (nd0 & Hnd0 & ->). by eapply Hok.
  - intros k nd2 Hin Hk.
    destruct (update_node_lookup _ _ _ _ _ _ H2 Hk) as (nd1 & Hnd1 & ->).
    destruct (decide (k = i)); [done|].
    destruct (Hp1 _ _ Hnd1) as (nd0 & Hnd0 & ->).
    apply elem_of_app in Hin as [Hin|Hin%list_elem_of_singleton]; [|done].
    by eapply Hd.
Qed.

Lemma collapse_loop_ok l rt ns f :
  for_each l collapse_step (mkForest rt ns) = Ret f →
  resolved_ok ns → parent rt = None →
  collapsed_ok (name <$> ns) l f ∧ name (root f) = name rt.
Proof.
  intros H Hok Hrt.
  apply (for_each_invariant
           (λ pre s, collapsed_ok (name <$> ns) pre s ∧ name (root s) = name rt))
    in H; [done| |].
  - split; [|done]. split; simpl; try done.
    + apply not_elem_of_nil.
    + intros k nd Hk. by apply elem_of_nil in Hk.
  - intros pre x post s1 s2 _ [Hc Hr] Hb.
    destruct (collapse_step_ok _ _ _ _ _ Hc Hb) as [Hc2 Hr2].
    split; [done|congruence].
Qed.

(** ** The exported tree *)

Lemma elem_of_indexed_from {A : Type} (l : list A) (a k : nat) (x : A) :
  (k, x) ∈ zip (seq a (length l)) l ↔ (a ≤ k)%nat ∧ l !! (k - a)%nat = Some x.
Proof.
  revert a. induction l as [|y l IH]; intros a; simpl.
  - split; [by intros ?%elem_of_nil|by intros [_ ?]].
  - rewrite elem_of_cons, IH. split.
    + intros [[= -> ->]|[Hle Hl]].
      * split; [lia|]. by rewrite Nat.sub_diag.
      * split; [lia|]. by replace (k - a)%nat with (S (k - S a)) by lia.
    + intros [Hle Hl]. destruct (decide (k = a)) as [->|Hne].
      * left. rewrite Nat.sub_diag in Hl. simpl in Hl. congruence.
      * right. split; [lia|].
        by replace (k - a)%nat with (S (k - S a)) in Hl by lia.
Qed.

Lemma kids_none rest p :
  (∀ k nd, (k, nd) ∈ rest → parent nd ≠ Some p) → kids rest p = [].
Proof.
  induction rest as [|[k nd] rest IH]; intros H; simpl; [done|].
  destruct (decide (parent nd = Some p)) as [E|_].
  - exfalso. apply (H k nd); [left|done].
  - apply IH. intros k' nd' Hin. apply (H k' nd'). by right.
Qed.

(** Every node of the exported forest is an entity that has a parent. *)
Lemma kids_names rest p x :
  x ∈ forest_names (kids rest p) →
  ∃ k nd, (k, nd) ∈ rest ∧ name nd = x ∧ is_Some (parent nd).
Proof.
  revert p. induction rest as [|[k nd] rest IH]; intros p; simpl.
  - by intros ?%elem_of_nil.
  - assert (x ∈ forest_names (kids rest p) →
            ∃ k0 nd0, (k0, nd0) ∈ (k, nd) :: rest ∧ name nd0 = x
                      ∧ is_Some (parent nd0)) as Hrec.
    { intros (k0 & nd0 & Hin & Hx)%IH. exists k0, nd0. split; [by right|done]. }
    destruct (decide (parent nd = Some p)) as [E|_]; [|done].
    unfold forest_names. simpl. fold (forest_names (kids rest (NEnt k))).
    fold (forest_names (kids rest p)).
    rewrite elem_of_cons, elem_of_app. intros [->|[H|H]]; [| |by auto].
    + exists k, nd. split; [left|]. split; [done|]. rewrite E. eauto.
    + apply IH in H as (k0 & nd0 & Hin & Hx).
      exists k0, nd0. split; [by right|done].
Qed.

(** What a successful parse of a clause is made of. *)
Lemma parse_clause_Ret f dic sense ret kdml v :
  parse_clause f dic sense ret kdml = Ret v →
  ∃ st node1 fo nd0 rest,
    for_each (range (length kdml)) (entity_step f dic kdml)
      (mkEntities [] [] []) = Ret st ∧
    for_each (range (length (entity_idx st)))
      (resolve_step f kdml (entity_idx st)) (node st) = Ret node1 ∧
    for_each (pointer st) collapse_step
      (mkForest (mkNode (NmSense (No sense)) (str "sense") None) node1)
      = Ret fo ∧
    nodes fo = nd0 :: rest ∧
    v = (if ret then TreeNode else TreeDict)
          (DNode (name (root fo)) (role (root fo))
             (kids ((0%nat, set_parent (Some NRoot) nd0)
                      :: zip (seq 1 (length rest)) rest) NRoot)).
Proof.
  unfold parse_clause. intros H.
  apply bind_Ret in H as (st & H1 & H).
  apply bind_Ret in H as (node1 & H2 & H).
  apply bind_Ret in H as (fo & H3 & H).
  apply bind_Ret in H as (ns & H4 & H).
  apply update_node_Ret in H4 as (nd0 & Hnd0 & ->).
  destruct (nodes fo) as [|nd0' rest] eqn:En; [done|].
  injection Hnd0 as ->.
  exists st, node1, fo, nd0, rest. repeat (split; [done|]).
  unfold export, indexed in H. simpl in H.
  destruct ret; by injection H as <-.
Qed.

(** A tree the parser returns: the root has the one child built from
    entity 0, and no node below it is a same-as-previous marker. *)
Lemma parse_clause_shape f dic sense ret kdml v :
  parse_clause f dic sense ret kdml = Ret v →
  ∃ rl child,
    v = (if ret then TreeNode else TreeDict)
          (DNode (NmSense (No sense)) rl [child]) ∧
    NmStr [TILDE] ∉ tree_names child.
Proof.
  intros (st & node1 & fo & nd0 & rest & H1 & H2 & H3 & En & ->)%parse_clause_Ret.
  pose proof (entity_scan_ok _ _ _ _ _ H1) as [Hl Hp Hlt Hptr].
  destruct (resolve_loop_ok _ _ _ _ _ _ H2 Hp) as [Hn2 Hok2].
  destruct (collapse_loop_ok _ _ _ _ H3 Hok2 eq_refl)
    as [[H0 Hn3 Hrp Hok3 Hd] Hroot].
  simpl in Hroot. rewrite Hroot, En in *.
  assert (∀ k nd, (k, nd) ∈ zip (seq 1 (length rest)) rest →
            (nd0 :: rest) !! k = Some nd ∧ (1 ≤ k)%nat) as Hrest.
  { intros k nd [Hk Hnd]%elem_of_indexed_from. split; [|done].
    by replace k with (S (k - 1)) by lia. }
  assert (∀ k nd, (nd0 :: rest) !! k = Some nd → name nd = NmStr [TILDE] →
            (1 ≤ k)%nat ∧ parent nd = None) as Htilde.
  { intros k nd Hk Hname.
    assert (k ∈ pointer st) as Hin.
    { assert ((name <$> node st) !! k = Some (name nd)) as Hk'.
      { rewrite <- Hn2, <- Hn3, list_lookup_fmap, Hk. done. }
      rewrite list_lookup_fmap in Hk'.
      destruct (node st !! k) as [nd'|] eqn:Ek; [|done].
      injection Hk' as Hk'. apply (Hptr k nd' Ek). congruence. }
    split; [|by eapply Hd].
    destruct k; [done|lia]. }
  simpl. destruct (decide (Some NRoot = Some NRoot)) as [_|]; [|done].
  rewrite (kids_none _ NRoot).
  2:{ intros k nd [Hk Hge]%Hrest.
      destruct (Hok3 _ _ Hk) as [->|(j & _ & ->)]; done. }
  eexists _, _. split; [done|].
  rewrite tree_names_eq, not_elem_of_cons. split.
  - intros Heq. destruct (Htilde 0%nat nd0 eq_refl) as [? _]; [done|lia].
  - intros (k & nd & Hin & Hname & Hsome)%kids_names.
    apply Hrest in Hin as [Hk _].
    destruct (Htilde k nd Hk Hname) as [_ Hnone].
    rewrite Hnone in Hsome. by destruct Hsome.
Qed.

Lemma gen_sememe_tree_shape dic sense ret v :
  _gen_sememe_tree dic sense ret = Ret v →
  ∃ rl child,
    v = (if ret then TreeNode else TreeDict)
          (DNode (NmSense (No sense)) rl [child]) ∧
    NmStr [TILDE] ∉ tree_names child.
Proof.
  unfold _gen_sememe_tree, gen_sememe_tree_fuel.
  destruct (py_split SEMI (strip_rmk (Def sense))) as [|kdml rest] eqn:E.
  - by apply py_split_nonempty in E.
  - apply parse_clause_shape.
Qed.

Lemma entity_step_no_entity f dic (kdml : pystr) (i : nat) st :
  no_entity kdml = true → (i < length kdml)%nat →
  entity_step f dic kdml st i = Ret st.
Proof.
  intros Hno Hi. unfold entity_step. rewrite py_index_nat.
  destruct (lookup_lt_is_Some_2 _ _ Hi) as [c Hc]. rewrite Hc.
  unfold no_entity in Hno. rewrite forallb_forall in Hno.
  specialize (Hno c). rewrite <- list_elem_of_In in Hno.
  specialize (Hno (list_elem_of_lookup_2 _ _ _ Hc)).
  apply andb_true_iff in Hno as [Hm%negb_true_iff Hp%negb_true_iff].
  cbn [mbind outcome_bind]. by rewrite Hm, Hp.
Qed.

Lemma entity_scan_no_entity f dic (kdml : pystr) (l : list nat) st :
  no_entity kdml = true → Forall (λ i, (i < length kdml)%nat) l →
  for_each l (entity_step f dic kdml) st = Ret st.
Proof.
  intros Hno Hl. induction Hl as [|i l Hi _ IH]; cbn [for_each]; [done|].
  by rewrite entity_step_no_entity.
Qed.

(** C10: a first clause without any vertical bar or marker makes
    [_gen_sememe_tree] raise [IndexError] at [node[0]], and whenever a tree
    is returned its root has exactly one child, so a tree made of the root
    alone is never produced. *)
Theorem empty_clause_raises_never_root_only dic sense ret :
  (no_entity (first_clause (Def sense)) = true →
   _gen_sememe_tree dic sense ret = Raise IndexError) ∧
  (∀ v, _gen_sememe_tree dic sense ret = Ret v →
        ∃ t child, tree_of v = Some t ∧ dchildren t = [child]).
Proof.
  split.
  - unfold first_clause, _gen_sememe_tree, gen_sememe_tree_fuel.
    destruct (py_split SEMI (strip_rmk (Def sense))) as [|kdml rest] eqn:E.
    { by apply py_split_nonempty in E. }
    intros Hno. unfold parse_clause.
    rewrite (entity_scan_no_entity _ _ _ _ _ Hno).
    + reflexivity.
    + apply Forall_forall. intros i Hi%elem_of_seq. lia.
  - intros v (rl & child & -> & _)%gen_sememe_tree_shape.
    eexists _, child. by destruct ret.
Qed.

(** ** [_expand_tree] *)

Lemma dtree_induction (P : dtree → Prop) :
  (∀ nm rl cs, Forall P cs → P (DNode nm rl cs)) → ∀ t, P t.
Proof.
  intros H. fix IH 1. intros [nm rl cs]. apply H.
  induction cs as [|c cs IHcs]; constructor; [apply IH|apply IHcs].
Qed.

(** The recursive call of the source, as it is written there. *)
Lemma expand_item_eq nm rl cs layer isRoot :
  expand_item (DNode nm rl cs) layer isRoot =
    own_names nm isRoot ∪
    match cs with
    | [] => ∅
    | _ :: _ => _expand_tree (PList cs) (layer - 1) false
    end.
Proof.
  cbn [expand_item]. f_equal.
  unfold own_names, is_wild. destruct isRoot; [done|].
  by destruct (name_is_str nm DOLLAR), (name_is_str nm QMARK).
Qed.

Lemma elem_of_expand_items x l layer isRoot :
  x ∈ expand_items l layer isRoot ↔ ∃ t, t ∈ l ∧ x ∈ expand_item t layer isRoot.
Proof.
  unfold expand_items. induction l as [|t l IH]; simpl.
  - rewrite elem_of_empty. split; [done|]. by intros (t & ?%elem_of_nil & _).
  - rewrite elem_of_union, IH. split.
    + intros [H|(t' & Hin & H)]; [exists t|exists t']; split; auto; by constructor.
    + intros (t' & [->|Hin]%elem_of_cons & H); eauto.
Qed.

Lemma elem_of_forest_names x l :
  x ∈ forest_names l ↔ ∃ t, t ∈ l ∧ x ∈ tree_names t.
Proof.
  unfold forest_names. rewrite list_elem_of_In, in_flat_map.
  split; intros (t & Hin & H); exists t;
    by rewrite ?list_elem_of_In in *.
Qed.

(** Whatever the depth, [_expand_tree] yields names of nodes, never a
    wildcard or a variable marker. *)
Lemma expand_item_sound t layer isRoot x :
  x ∈ expand_item t layer isRoot →
  is_wild x = false ∧
  x ∈ (if isRoot then non_root_names t else tree_names t).
Proof.
  revert layer isRoot. induction t as [nm rl cs IH] using dtree_induction.
  intros layer isRoot. rewrite expand_item_eq, elem_of_union.
  assert (x ∈ match cs with
              | [] => ∅
              | _ :: _ => _expand_tree (PList cs) (layer - 1) false
              end → is_wild x = false ∧ x ∈ forest_names cs) as Hcs.
  { destruct cs as [|c cs]; [by intros ?%elem_of_empty|].
    unfold _expand_tree. destruct (layer - 1 =? 0); [by intros ?%elem_of_empty|].
    intros (t & Hin & Hx)%elem_of_expand_items.
    rewrite Forall_forall in IH. apply IH in Hx as [Hw Hx]; [|done].
    split; [done|]. apply elem_of_forest_names. eauto. }
  intros [Hown|Hsub].
  - unfold own_names in Hown. destruct isRoot; [by apply elem_of_empty in Hown|].
    destruct (is_wild nm) eqn:Ew; [by apply elem_of_empty in Hown|].
    apply elem_of_singleton in Hown as ->. split; [done|].
    rewrite tree_names_eq. by left.
  - apply Hcs in Hsub as [Hw Hx]. split; [done|].
    destruct isRoot; [done|]. rewrite tree_names_eq. by right.
Qed.

(** With a negative depth no level is cut off. *)
Lemma expand_item_unbounded t layer isRoot x :
  layer < 0 →
  x ∈ expand_item t layer isRoot ↔
  is_wild x = false ∧
  x ∈ (if isRoot then non_root_names t else tree_names t).
Proof.
  intros Hneg. split; [apply expand_item_sound|].
  revert layer isRoot Hneg.
  induction t as [nm rl cs IH] using dtree_induction.
  intros layer isRoot Hneg [Hw Hx].
  rewrite expand_item_eq, elem_of_union.
  assert (x ∈ forest_names cs →
          x ∈ match cs with
              | [] => ∅
              | _ :: _ => _expand_tree (PList cs) (layer - 1) false
              end) as Hcs.
  { intros (t & Hin & Ht)%elem_of_forest_names.
    destruct cs as [|c cs]; [by apply elem_of_nil in Hin|].
    unfold _expand_tree. destruct (layer - 1 =? 0) eqn:E;
      [apply Z.eqb_eq in E; lia|].
    apply elem_of_expand_items. exists t. split; [done|].
    rewrite Forall_forall in IH. apply (IH t Hin (layer - 1) false); [lia|done]. }
  destruct isRoot; [right; by apply Hcs|].
  rewrite tree_names_eq in Hx. apply elem_of_cons in Hx as [->|Hx].
  - left. unfold own_names. rewrite Hw. by apply elem_of_singleton.
  - right. by apply Hcs.
Qed.

Lemma elem_of_expand_tree x tree layer isRoot :
  x ∈ _expand_tree tree layer isRoot ↔
  layer ≠ 0 ∧
  ∃ t, t ∈ match tree with PDict t => [t] | PList l => l end
       ∧ x ∈ expand_item t layer isRoot.
Proof.
  unfold _expand_tree. destruct (layer =? 0) eqn:E.
  - apply Z.eqb_eq in E. rewrite elem_of_empty. split; [done|]. by intros [].
  - apply Z.eqb_neq in E. destruct tree; rewrite elem_of_expand_items;
      split; [by split|by intros []|by split|by intros []].
Qed.

(** The test of [_expand_tree] lets through every name but the two
    one-character strings of the wildcard and the variable marker. *)
Lemma is_wild_false nm :
  is_wild nm = false ↔ nm ≠ NmStr [QMARK] ∧ nm ≠ NmStr [DOLLAR].
Proof.
  unfold is_wild, name_is_str. destruct nm as [no|k|s]; [by split..|].
  rewrite orb_false_iff, !bool_decide_eq_false. split.
  - intros [H1 H2]. split; congruence.
  - intros [H1 H2]. split; congruence.
Qed.

Lemma filter_is_wild (l : list pyname) :
  filter (λ nm, is_wild nm = false) l
    = filter (λ nm, nm ≠ NmStr [QMARK] ∧ nm ≠ NmStr [DOLLAR]) l.
Proof. apply list_filter_iff. intros nm. apply is_wild_false. Qed.

(** C6: [_expand_tree] with depth 0 is empty; with depth -1 it is the set
    of the names of all nodes below the root, whatever their depth, less
    the one-character strings of the wildcard and of the variable marker;
    at no depth does the result hold either of the two; and a tree
    exported by [_gen_sememe_tree] has no same-as-previous marker among
    its nodes, so none is in any expansion of it. *)
Theorem expand_tree_depths :
  (∀ tree isRoot, _expand_tree tree 0 isRoot = ∅) ∧
  (∀ t, _expand_tree (PDict t) (-1) true
        = list_to_set (filter (λ nm, nm ≠ NmStr [QMARK] ∧ nm ≠ NmStr [DOLLAR])
                         (non_root_names t))) ∧
  (∀ tree layer isRoot,
     (NmStr [QMARK] ∉ _expand_tree tree layer isRoot) ∧
     (NmStr [DOLLAR] ∉ _expand_tree tree layer isRoot)) ∧
  (∀ dic sense t,
     _gen_sememe_tree dic sense false = Ret (TreeDict t) →
     (NmStr [TILDE] ∉ non_root_names t) ∧
     ∀ layer, NmStr [TILDE] ∉ _expand_tree (PDict t) layer true).
Proof.
  split; [done|]. split; [|split].
  - intros t. rewrite <- filter_is_wild. apply set_eq. intros x.
    rewrite elem_of_list_to_set, list_elem_of_filter, elem_of_expand_tree.
    rewrite <- (expand_item_unbounded t (-1) true x) by lia. split.
    + intros [_ (t' & ->%list_elem_of_singleton & H)]. done.
    + intros H. split; [done|]. exists t. split; [by left|done].
  - intros tree layer isRoot.
    split; intros (_ & t & _ & [Hw _]%expand_item_sound)%elem_of_expand_tree;
      discriminate Hw.
  - intros dic sense t (rl & child & [= ->] & Hno)%gen_sememe_tree_shape.
    assert (NmStr [TILDE] ∉ non_root_names (DNode (NmSense (No sense)) rl [child]))
      as Hnr.
    { unfold non_root_names, forest_names. simpl. by rewrite app_nil_r. }
    split; [done|].
    intros layer
      (_ & t & ->%list_elem_of_singleton & [_ H]%expand_item_sound)%elem_of_expand_tree.
    done.
Qed.

(** ** Clauses and the remark *)

Lemma find_from_range sub s :
  find_from sub s 0 = -1 ∨ 0 ≤ find_from sub s 0 ≤ Z.of_nat (length s).
Proof.
  assert (∀ i, 0 ≤ i → find_from sub s i = -1 ∨
                 i ≤ find_from sub s i ≤ i + Z.of_nat (length s)) as H.
  { induction s as [|c s IH]; intros i Hi; simpl.
    - destruct (prefixb sub []); [right; lia|by left].
    - destruct (prefixb sub (c :: s)); [right; lia|].
      destruct (IH (i + 1)) as [->|?]; [lia|by left|right; lia]. }
  destruct (H 0) as [?|?]; [lia|by left|right; lia].
Qed.

Lemma find_from_shift sub s i :
  find_from sub s i =
    if find_from sub s 0 <? 0 then -1 else find_from sub s 0 + i.
Proof.
  revert i. induction s as [|c s IH]; intros i; simpl.
  - by destruct (prefixb sub []).
  - destruct (prefixb sub (c :: s)); [done|].
    rewrite (IH (i + 1)), (IH (0 + 1)).
    destruct (find_from_range sub s) as [E|E].
    + by rewrite E.
    + destruct (find_from sub s 0 <? 0) eqn:E1; [apply Z.ltb_lt in E1; lia|].
      destruct (find_from sub s 0 + (0 + 1) <? 0) eqn:E2;
        [apply Z.ltb_lt in E2; lia|lia].
Qed.

Lemma slice_bound_id (n i : Z) : 0 ≤ i ≤ n → slice_bound n i = i.
Proof.
  intros H. unfold slice_bound.
  destruct (Z.ltb_spec i 0); [lia|].
  destruct (Z.ltb_spec i 0); [lia|].
  destruct (Z.ltb_spec n i); lia.
Qed.

Lemma py_slice_range {A : Type} (s : list A) (a b : Z) :
  0 ≤ a ≤ Z.of_nat (length s) → 0 ≤ b ≤ Z.of_nat (length s) →
  py_slice s a b = take (Z.to_nat (b - a)) (drop (Z.to_nat a) s).
Proof.
  intros Ha Hb. unfold py_slice. by rewrite !slice_bound_id.
Qed.

Lemma py_slice_prefix {A : Type} (s : list A) (p : Z) :
  0 ≤ p ≤ Z.of_nat (length s) → py_slice s 0 p = take (Z.to_nat p) s.
Proof.
  intros Hp. rewrite py_slice_range by lia. by rewrite Z.sub_0_r.
Qed.

Lemma strip_rmk_cut s : strip_rmk s = cut_rmk s.
Proof.
  unfold strip_rmk, py_find. induction s as [|c s IH].
  - reflexivity.
  - cbn [find_from cut_rmk]. destruct (prefixb RMK (c :: s)); [done|].
    rewrite find_from_shift. change (0 + 1) with 1. rewrite <- IH.
    destruct (find_from_range RMK s) as [E|E].
    + by rewrite E.
    + destruct (find_from RMK s 0 <? 0) eqn:E1; [apply Z.ltb_lt in E1; lia|].
      destruct (0 <=? find_from RMK s 0 + 1) eqn:E2; [|apply Z.leb_gt in E2; lia].
      destruct (0 <=? find_from RMK s 0) eqn:E3; [|apply Z.leb_gt in E3; lia].
      rewrite !py_slice_prefix by (simpl length; lia).
      replace (Z.to_nat (find_from RMK s 0 + 1))
        with (S (Z.to_nat (find_from RMK s 0))) by lia.
      done.
Qed.

Lemma prefixb_before_sep (p c rest : pystr) (sep : N) :
  sep ∉ p → sep ∉ c → prefixb p (c ++ sep :: rest) = prefixb p c.
Proof.
  revert c. induction p as [|x p IH]; intros c Hp Hc; [done|].
  apply not_elem_of_cons in Hp as [Hx Hp].
  destruct c as [|a c]; simpl.
  - destruct (x =? sep)%N eqn:E; [apply N.eqb_eq in E; congruence|done].
  - apply not_elem_of_cons in Hc as [_ Hc]. by rewrite IH.
Qed.

Lemma first_piece_cons sep a s :
  a ≠ sep → hd [] (py_split sep (a :: s)) = a :: hd [] (py_split sep s).
Proof.
  intros Ha. simpl. destruct (a =? sep)%N eqn:E;
    [apply N.eqb_eq in E; congruence|].
  destruct (py_split sep s) eqn:Es; [by apply py_split_nonempty in Es|done].
Qed.

Lemma first_clause_hd s : first_clause s = hd [] (py_split SEMI (cut_rmk s)).
Proof.
  unfold first_clause. rewrite strip_rmk_cut. by destruct (py_split _ _).
Qed.

(** What follows the first semicolon does not reach the tree builder. *)
Lemma first_clause_semicolon c rest :
  SEMI ∉ c → first_clause (c ++ SEMI :: rest) = first_clause c.
Proof.
  rewrite !first_clause_hd. induction c as [|a c IH]; intros Hc.
  - reflexivity.
  - apply not_elem_of_cons in Hc as [Ha Hc].
    change ((a :: c) ++ SEMI :: rest) with (a :: (c ++ SEMI :: rest)).
    cbn [cut_rmk].
    change (prefixb RMK (a :: c ++ SEMI :: rest))
      with (prefixb RMK ((a :: c) ++ SEMI :: rest)).
    rewrite prefixb_before_sep.
    + destruct (prefixb RMK (a :: c)); [done|].
      rewrite !first_piece_cons by done. by rewrite IH.
    + unfold RMK, SEMI. rewrite !not_elem_of_cons.
      repeat split; try done. apply not_elem_of_nil.
    + by apply not_elem_of_cons.
Qed.

Lemma cut_rmk_app c rest : cut_rmk (c ++ RMK ++ rest) = cut_rmk c.
Proof.
  induction c as [|a c IH]; [done|].
  change ((a :: c) ++ RMK ++ rest) with (a :: (c ++ RMK ++ rest)).
  cbn [cut_rmk]. rewrite IH.
  assert (prefixb RMK (a :: c ++ RMK ++ rest) = prefixb RMK (a :: c)) as ->;
    [|done].
  unfold RMK.
  by destruct c as [|b [|d [|e c]]].
Qed.

(** Nor does what follows the remark marker. *)
Lemma first_clause_remark c rest :
  first_clause (c ++ RMK ++ rest) = first_clause c.
Proof. by rewrite !first_clause_hd, cut_rmk_app. Qed.

Lemma gen_sememe_tree_first_clause dic s1 s2 ret :
  No s1 = No s2 → first_clause (Def s1) = first_clause (Def s2) →
  _gen_sememe_tree dic s1 ret = _gen_sememe_tree dic s2 ret.
Proof.
  unfold first_clause, _gen_sememe_tree, gen_sememe_tree_fuel.
  intros HNo.
  destruct (py_split SEMI (strip_rmk (Def s1))) as [|k1 r1] eqn:E1;
    [by apply py_split_nonempty in E1|].
  destruct (py_split SEMI (strip_rmk (Def s2))) as [|k2 r2] eqn:E2;
    [by apply py_split_nonempty in E2|].
  intros ->. unfold parse_clause. by rewrite HNo.
Qed.

(** ** [_gen_sememe_list] reads the whole definition *)

Lemma list_step_Ret dic (kdml : pystr) (i : nat) c res res' :
  kdml !! i = Some c →
  list_step (scan_fuel kdml) dic kdml res i = Ret res' →
  if (c =? PIPE)%N
  then ∃ s, res' = res ++ [s] ∧ reference_at dic kdml i s
  else res' = res.
Proof.
  intros Hc. unfold list_step. rewrite py_index_nat, Hc.
  cbn [mbind outcome_bind]. destruct (c =? PIPE)%N; [|by intros [= <-]].
  intros H.
  apply bind_Ret in H as (a & Ha & H).
  apply bind_Ret in H as (b & Hb & H).
  apply bind_Ret in H as (s & Hs & [= <-]).
  unfold registry_ref in Hs.
  destruct (dic !! py_slice kdml (a + 1) b) as [x|] eqn:E; [|done].
  injection Hs as <-. eexists. split; [done|].
  exists a, b. rewrite E. eauto.
Qed.

Lemma list_scan_refs dic (kdml suf pre : pystr) res res' :
  kdml = pre ++ suf →
  for_each (seq (length pre) (length suf))
    (list_step (scan_fuel kdml) dic kdml) res = Ret res' →
  ∃ new, res' = res ++ new ∧
         Forall2 (reference_at dic kdml) (bars_from (length pre) suf) new.
Proof.
  revert pre res. induction suf as [|c suf IH]; intros pre res Hk H.
  - injection H as <-. exists []. by rewrite app_nil_r.
  - cbn [length seq for_each] in H.
    apply bind_Ret in H as (res1 & Hstep & H).
    assert (kdml !! length pre = Some c) as Hc.
    { rewrite Hk. by rewrite list_lookup_middle. }
    apply (list_step_Ret _ _ _ _ _ _ Hc) in Hstep.
    specialize (IH (pre ++ [c]) res1).
    rewrite length_app, Nat.add_1_r in IH.
    destruct IH as (new & -> & Hnew); [by rewrite <- app_assoc|done|].
    cbn [bars_from]. destruct (c =? PIPE)%N.
    + destruct Hstep as (s & -> & Hs). exists (s :: new).
      split; [by rewrite <- app_assoc|by apply Forall2_cons].
    + subst res1. by exists new.
Qed.

Lemma bars_from_length i j s : length (bars_from i s) = length (bars_from j s).
Proof.
  revert i j. induction s as [|c s IH]; intros i j; simpl; [done|].
  destruct (c =? PIPE)%N; simpl; by rewrite (IH (S i) (S j)).
Qed.

Lemma bars_app_length a b :
  length (bars (a ++ b)) = (length (bars a) + length (bars b))%nat.
Proof.
  unfold bars. generalize 0%nat. induction a as [|c a IH]; intros i; simpl.
  - apply bars_from_length.
  - destruct (c =? PIPE)%N; simpl; by rewrite IH, (bars_from_length (S i) i b).
Qed.


(** ** Taxonomy triples *)

Lemma add_triple_Ret (dic : gmap (list N) Sememe) h r t :
  is_Some (dic !! h) → is_Some (dic !! t) →
  add_triple dic (h, r, t) =
    Ret (alter (λ s, add_related_sememes_backward s h r t) t
           (alter (λ s, add_related_sememes_forward s h r t) h dic)).
Proof.
  intros [sh Hh] [st Ht]. unfold add_triple, registry_ref.
  rewrite Hh, Ht. cbn [mbind outcome_bind].
  rewrite !lookup_alter, Hh, Ht.
  by destruct (decide (h = t)), (decide (h = h)).
Qed.

Lemma lookup_alter_fmap {A : Type} (f : A → A) (m : gmap (list N) A) i j :
  alter f i m !! j = (if decide (i = j) then f else id) <$> m !! j.
Proof.
  rewrite lookup_alter. case_decide; [by subst|]. by rewrite option_fmap_id.
Qed.

Lemma add_triple_dom (dic dic' : gmap (list N) Sememe) line k :
  add_triple dic line = Ret dic' → is_Some (dic' !! k) ↔ is_Some (dic !! k).
Proof.
  destruct line as [[h r] t]. unfold add_triple. intros H.
  apply bind_Ret in H as (_ & _ & H). apply bind_Ret in H as (_ & _ & H).
  apply bind_Ret in H as (_ & _ & H). apply bind_Ret in H as (_ & _ & H).
  injection H as <-. by rewrite !lookup_alter_fmap, !fmap_is_Some.
Qed.

Lemma add_triple_forward (dic dic' : gmap (list N) Sememe) h' r' t' h r :
  is_Some (dic !! h') →
  add_triple dic (h', r', t') = Ret dic' →
  forward dic' h r =
    if decide (h' = h ∧ r' = r) then Some t' else forward dic h r.
Proof.
  intros [sh Hh] H. unfold add_triple in H.
  apply bind_Ret in H as (_ & _ & H). apply bind_Ret in H as (_ & _ & H).
  apply bind_Ret in H as (_ & _ & H). apply bind_Ret in H as (_ & _ & H).
  injection H as <-. unfold forward. rewrite !lookup_alter_fmap.
  destruct (dic !! h) as [s|] eqn:E; simpl.
  - destruct (decide (t' = h)), (decide (h' = h)); simpl;
      rewrite ?lookup_insert; repeat case_decide; try done;
      intuition congruence.
  - case_decide as Hc; [|done]. destruct Hc as [-> _]. congruence.
Qed.

Lemma add_triple_backward (dic dic' : gmap (list N) Sememe) h' r' t' t r :
  is_Some (dic !! t') →
  add_triple dic (h', r', t') = Ret dic' →
  backward dic' t r =
    if decide (t' = t ∧ r' = r) then Some h' else backward dic t r.
Proof.
  intros [st Ht] H. unfold add_triple in H.
  apply bind_Ret in H as (_ & _ & H). apply bind_Ret in H as (_ & _ & H).
  apply bind_Ret in H as (_ & _ & H). apply bind_Ret in H as (_ & _ & H).
  injection H as <-. unfold backward. rewrite !lookup_alter_fmap.
  destruct (dic !! t) as [s|] eqn:E; simpl.
  - destruct (decide (t' = t)), (decide (h' = t)); simpl;
      rewrite ?lookup_insert; repeat case_decide; try done;
      intuition congruence.
  - case_decide as Hc; [|done]. destruct Hc as [-> _]. congruence.
Qed.

Lemma add_triples_Ret dic lines :
  registered dic lines →
  ∃ dic', add_triples dic lines = Ret dic' ∧
          ∀ k, is_Some (dic' !! k) ↔ is_Some (dic !! k).
Proof.
  unfold add_triples. revert dic.
  induction lines as [|[[h r] t] lines IH]; intros dic Hreg.
  - by exists dic.
  - destruct (Hreg h r t) as [Hh Ht]; [left|].
    cbn [for_each]. rewrite (add_triple_Ret dic h r t Hh Ht).
    cbn [mbind outcome_bind].
    set (dic1 := alter _ t (alter _ h dic)).
    assert (∀ k, is_Some (dic1 !! k) ↔ is_Some (dic !! k)) as Hdom.
    { intros k. apply (add_triple_dom dic dic1 (h, r, t)).
      by apply add_triple_Ret. }
    destruct (IH dic1) as (dic' & Hd & Hdom').
    + intros h0 r0 t0 Hin. rewrite !Hdom. apply (Hreg h0 r0 t0). by right.
    + exists dic'. split; [done|]. intros k. by rewrite Hdom', Hdom.
Qed.

Lemma add_triples_keep dic lines dic' h r t :
  registered dic lines → add_triples dic lines = Ret dic' →
  ((∀ h' r' t', (h', r', t') ∈ lines → ¬ (h' = h ∧ r' = r)) →
     forward dic' h r = forward dic h r) ∧
  ((∀ h' r' t', (h', r', t') ∈ lines → ¬ (t' = t ∧ r' = r)) →
     backward dic' t r = backward dic t r).
Proof.
  unfold add_triples. revert dic.
  induction lines as [|[[h0 r0] t0] lines IH]; intros dic Hreg H.
  - injection H as <-. by split.
  - cbn [for_each] in H. apply bind_Ret in H as (dic1 & H1 & H).
    destruct (Hreg h0 r0 t0) as [Hh Ht]; [left|].
    destruct (IH dic1) as [IHf IHb]; [|done|].
    { intros h1 r1 t1 Hin.
      rewrite !(add_triple_dom _ _ _ _ H1). apply (Hreg h1 r1 t1). by right. }
    split; intros Hno.
    + rewrite IHf by (intros h1 r1 t1 Hin; apply (Hno h1 r1 t1); by right).
      rewrite (add_triple_forward _ _ _ _ _ _ _ Hh H1).
      case_decide as Hc; [|done]. exfalso. apply (Hno h0 r0 t0); [left|done].
    + rewrite IHb by (intros h1 r1 t1 Hin; apply (Hno h1 r1 t1); by right).
      rewrite (add_triple_backward _ _ _ _ _ _ _ Ht H1).
      case_decide as Hc; [|done]. exfalso. apply (Hno h0 r0 t0); [left|done].
Qed.

(** C7, as the code has it: applying triples to registered sememes never
    raises; afterwards [forward(h, r)] is [t] for a triple that no later
    triple with the same head and relation follows, and [backward(t, r)]
    is [h] for a triple that no later triple with the same tail and
    relation follows: in both maps the last write wins. *)
Theorem triples_last_write_wins dic pre h r t post :
  registered dic (pre ++ (h, r, t) :: post) →
  ∃ dic', add_triples dic (pre ++ (h, r, t) :: post) = Ret dic' ∧
    ((∀ h' r' t', (h', r', t') ∈ post → ¬ (h' = h ∧ r' = r)) →
       forward dic' h r = Some t) ∧
    ((∀ h' r' t', (h', r', t') ∈ post → ¬ (t' = t ∧ r' = r)) →
       backward dic' t r = Some h).
Proof.
  intros Hreg.
  destruct (add_triples_Ret dic _ Hreg) as (dic' & Hd & _).
  exists dic'. split; [done|].
  unfold add_triples in Hd. rewrite for_each_app in Hd.
  apply bind_Ret in Hd as (dic1 & H1 & Hd). cbn [for_each] in Hd.
  apply bind_Ret in Hd as (dic2 & H2 & Hd).
  assert (registered dic pre) as Hreg1.
  { intros h0 r0 t0 Hin. apply (Hreg h0 r0 t0), elem_of_app. by left. }
  destruct (add_triples_Ret dic pre Hreg1) as (dic1' & H1' & Hdom1).
  unfold add_triples in H1'. rewrite H1 in H1'. injection H1' as <-.
  destruct (Hreg h r t) as [Hh Ht]; [apply elem_of_app; right; left|].
  apply Hdom1 in Hh, Ht.
  assert (registered dic2 post) as Hreg2.
  { intros h0 r0 t0 Hin. rewrite !(add_triple_dom _ _ _ _ H2), !Hdom1.
    apply (Hreg h0 r0 t0), elem_of_app. right. by right. }
  destruct (add_triples_keep dic2 post dic' h r t Hreg2 Hd) as [Hf Hb].
  split; intros Hno.
  - rewrite Hf by done. rewrite (add_triple_forward _ _ _ _ _ _ _ Hh H2).
    case_decide as Hc; [done|]. exfalso. by apply Hc.
  - rewrite Hb by done. rewrite (add_triple_backward _ _ _ _ _ _ _ Ht H2).
    case_decide as Hc; [done|]. exfalso. by apply Hc.
Qed.

(** ** The order of the candidates *)

Lemma str_ltb_asym a b : str_ltb a b = true → str_ltb b a = false.
Proof.
  revert b. induction a as [|x a IH]; intros [|y b]; simpl; try done.
  rewrite orb_true_iff, andb_true_iff, orb_false_iff, andb_false_iff.
  intros [H|[H1 H2]].
  - apply N.ltb_lt in H. split; [apply N.ltb_ge; lia|].
    left. apply N.eqb_neq. lia.
  - apply N.eqb_eq in H1 as ->. split; [apply N.ltb_irrefl|].
    right. by apply IH.
Qed.

Lemma sort_insert_perm x l : sort_insert x l ≡ₚ x :: l.
Proof.
  induction l as [|y l IH]; simpl; [done|].
  destruct (str_ltb (No y) (No x)); [|done].
  rewrite IH. apply perm_swap.
Qed.

Lemma sort_by_No_perm l : sort_by_No l ≡ₚ l.
Proof.
  induction l as [|x l IH]; simpl; [done|].
  by rewrite sort_insert_perm, IH.
Qed.

Lemma sort_insert_sorted x l :
  Sorted No_le l → Sorted No_le (sort_insert x l).
Proof.
  induction 1 as [|y l Hs IH Hhd]; simpl.
  - by repeat constructor.
  - destruct (str_ltb (No y) (No x)) eqn:E.
    + constructor; [done|].
      destruct Hhd as [|z l Hyz]; simpl.
      * constructor. by apply str_ltb_asym.
      * destruct (str_ltb (No z) (No x)); constructor;
          [done|by apply str_ltb_asym].
    + by repeat constructor.
Qed.

Lemma sort_by_No_sorted l : Sorted No_le (sort_by_No l).
Proof.
  induction l as [|x l IH]; simpl; [constructor|by apply sort_insert_sorted].
Qed.

Lemma expand_sense_not_Diverge dic item layer :
  expand_sense dic item layer ≠ Diverge.
Proof.
  unfold expand_sense.
  apply bind_not_Diverge; [apply gen_sememe_tree_total|].
  intros [d|d|] _; [done|by destruct (_ =? _)..].
Qed.

(** The mode [list] without [merge] appends one pair per candidate, in
    the order of the candidates. *)
Lemma list_loop_senses dic word layer cands log l0 log' r :
  list_loop dic word layer cands log (QList l0) = (log', Ret r) →
  ∃ l1, r = QList (l0 ++ l1) ∧ omap qitem_sense l1 = cands ∧
        length l1 = length cands.
Proof.
  revert log l0. induction cands as [|item cands IH]; intros log l0; simpl.
  - intros [= _ <-]. exists []. by rewrite app_nil_r.
  - destruct (expand_sense dic item layer) as [s| |]; [|done..].
    intros (l1 & -> & Hs & Hlen)%IH. exists (QPair item s :: l1).
    rewrite <- app_assoc. split; [done|].
    split; [simpl; f_equal; exact Hs|simpl; by rewrite Hlen].
Qed.

(** C8, as the code has it: the candidates are the result of the
    lookup, sorted by their identifier compared as a string (code point
    by code point, a proper prefix first), and the mode [list] builds its
    result in that order. *)
Theorem candidates_sorted_by_string_id self word cands :
  query_candidates self word = Ret cands →
  (∃ l0, getitem self word = Ret l0 ∧ cands ≡ₚ l0) ∧
  Sorted No_le cands ∧
  (∀ layer K log items,
     get_sememes_by_word self word (str "list") false layer K
       = (log, Ret (QList items)) →
     omap qitem_sense items = cands ∧ length items = length cands).
Proof.
  intros Hq. pose proof Hq as Hq'. unfold query_candidates in Hq'.
  apply bind_Ret in Hq' as (l0 & Hl0 & [= <-]).
  split; [|split].
  - exists l0. split; [done|apply sort_by_No_perm].
  - apply sort_by_No_sorted.
  - intros layer K log items. unfold get_sememes_by_word. rewrite Hq.
    replace (bool_decide (str "list" = str "dict")) with false
      by (vm_compute; reflexivity).
    replace (bool_decide (str "list" = str "tree")) with false
      by (vm_compute; reflexivity).
    rewrite bool_decide_true by done. cbn [orb].
    intros (l1 & [= ->] & H)%list_loop_senses. done.
Qed.

(** ** Errors of single senses in a query *)

Lemma trees_loop_list dic ret cands log l0 :
  trees_loop dic ret cands log (QList l0) =
    (log ++ flat_map (failure_report dic ret) cands,
     QList (l0 ++ omap (tree_or_skip dic ret) cands)).
Proof.
  revert log l0. induction cands as [|item cands IH]; intros log l0.
  - simpl. by rewrite !app_nil_r.
  - cbn [trees_loop flat_map]. unfold failure_report at 1.
    change (omap (tree_or_skip dic ret) (item :: cands))
      with (match tree_or_skip dic ret item with
            | Some y => y :: omap (tree_or_skip dic ret) cands
            | None => omap (tree_or_skip dic ret) cands
            end).
    unfold tree_or_skip at 1.
    destruct (_gen_sememe_tree dic item ret) as [t|e|] eqn:E;
      cbn [mbind outcome_bind].
    + rewrite IH. by rewrite <- app_assoc.
    + rewrite IH. by rewrite <- app_assoc.
    + by apply gen_sememe_tree_total in E.
Qed.

Lemma trees_loop_set dic ret cands log acc :
  ∃ log', trees_loop dic ret cands log (QSet acc) = (log', QSet acc).
Proof.
  revert log. induction cands as [|item cands IH]; intros log; simpl; eauto.
Qed.

Lemma list_loop_reraises dic word layer pre bad post e log result :
  (∀ s, s ∈ pre → ∃ x, expand_sense dic s layer = Ret x) →
  _gen_sememe_tree dic bad false = Raise e →
  list_loop dic word layer (pre ++ bad :: post) log result =
    (log ++ [PrintWord word; PrintWrongItem (No bad); PrintException e],
     Raise e).
Proof.
  intros Hpre Hbad. revert log result.
  induction pre as [|s pre IH]; intros log result; simpl.
  - unfold expand_sense. by rewrite Hbad.
  - destruct (Hpre s) as [x ->]; [left|]. apply IH.
    intros s' Hin. apply Hpre. by right.
Qed.

(** C2, as the code has it: in the modes [dict] and [tree] the error of
    one sense is caught, printed with the identifier of the sense, and
    the sense is left out while the others are kept, so the query always
    returns; in the mode [list] the error is printed and raised again,
    which ends the query. *)
Theorem batch_errors_skipped_or_reraised self word cands :
  query_candidates self word = Ret cands →
  (∀ display merge layer K,
     display = str "dict" ∨ display = str "tree" →
     ∃ log r,
       get_sememes_by_word self word display merge layer K = (log, Ret r) ∧
       (merge = false →
        log = flat_map (failure_report (sememe_dic self)
                          (bool_decide (display = str "tree"))) cands ∧
        r = QList (omap (tree_or_skip (sememe_dic self)
                           (bool_decide (display = str "tree"))) cands))) ∧
  (∀ merge layer K pre bad post e,
     cands = pre ++ bad :: post →
     (∀ s, s ∈ pre → ∃ x, expand_sense (sememe_dic self) s layer = Ret x) →
     _gen_sememe_tree (sememe_dic self) bad false = Raise e →
     get_sememes_by_word self word (str "list") merge layer K =
       ([PrintWord word; PrintWrongItem (No bad); PrintException e], Raise e)).
Proof.
  intros Hq. split.
  - intros display merge layer K Hd. unfold get_sememes_by_word. rewrite Hq.
    assert (bool_decide (display = str "dict")
            || bool_decide (display = str "tree") = true) as ->.
    { destruct Hd as [-> | ->]; [by rewrite bool_decide_true|].
      rewrite (bool_decide_true (str "tree" = str "tree")) by done.
      apply orb_true_r. }
    destruct merge.
    + destruct (trees_loop_set (sememe_dic self)
                  (bool_decide (display = str "tree")) cands [] ∅)
        as [log' ->].
      eexists _, _. split; [done|]. done.
    + rewrite trees_loop_list. eexists _, _. split; [done|]. done.
  - intros merge layer K pre bad post e -> Hpre Hbad.
    unfold get_sememes_by_word. rewrite Hq.
    replace (bool_decide (str "list" = str "dict")) with false
      by (vm_compute; reflexivity).
    replace (bool_decide (str "list" = str "tree")) with false
      by (vm_compute; reflexivity).
    rewrite bool_decide_true by done. cbn [orb].
    by rewrite (list_loop_reraises _ _ _ _ _ _ e).
Qed.

(** ** Lookup by word *)

(** The part of C3 the code implements: for a word that is not the
    identifier of a sense, the English matches come first, then the
    Chinese ones, nothing being removed. *)
Lemma getitem_word self item :
  item ≠ I_WANT_ALL → odict_get (sense_dic self) item = None →
  getitem self item =
    Ret (default [] (en_map self !! item) ++ default [] (zh_map self !! item)).
Proof.
  intros Hne Hid. unfold getitem. rewrite decide_False by done. rewrite Hid.
  destruct (en_map self !! item), (zh_map self !! item); simpl;
    by rewrite ?app_nil_r.
Qed.

(** For the identifier of a sense the lookup raises: the sense found is
    handed to [extend], which iterates over its argument. *)
Lemma getitem_sense_id self item x :
  item ≠ I_WANT_ALL → odict_get (sense_dic self) item = Some x →
  getitem self item = Raise TypeError.
Proof.
  intros Hne Hid. unfold getitem. rewrite decide_False by done. by rewrite Hid.
Qed.

(** ** The same-as-previous marker *)

Lemma collapse_step_effect f i nd j f' :
  nodes f !! i = Some nd → parent nd = Some (NEnt j) → i ≠ j →
  collapse_step f i = Ret f' →
  (∃ pj, nodes f' !! j = Some pj ∧ role pj = role nd) ∧
  (∃ nd', nodes f' !! i = Some nd' ∧ parent nd' = None ∧ name nd' = name nd).
Proof.
  intros Hi Hp Hne. unfold collapse_step. rewrite py_index_nat, Hi.
  cbn [mbind outcome_bind]. rewrite Hp. cbn [assign_role]. intros H.
  apply bind_Ret in H as (f1 & H1 & H).
  apply bind_Ret in H1 as (ns1 & (pj & Hj & ->)%update_node_Ret & [= <-]).
  apply bind_Ret in H as (ns2 & (ni & Hi2 & ->)%update_node_Ret & [= <-]).
  simpl in *. rewrite list_lookup_insert_ne in Hi2 by done.
  assert (ni = nd) as -> by congruence.
  split.
  - exists (set_role (role nd) pj). split; [|done].
    rewrite list_lookup_insert_ne by done.
    apply list_lookup_insert_eq. by eapply lookup_lt_Some.
  - exists (set_parent None nd). split; [|done].
    apply list_lookup_insert_eq. rewrite length_insert.
    by eapply lookup_lt_Some.
Qed.

(** C9, as the code has it: a marker whose parent was resolved hands its
    role to the parent and is detached; no tree the builder returns has a
    same-as-previous marker among its nodes; and for the definition whose
    marker stands in a group of its own below [belong], the tree is the
    root with that one child, and its full expansion is that one sememe. *)
Theorem same_as_previous_collapsed :
  (∀ f i nd j f',
     nodes f !! i = Some nd → parent nd = Some (NEnt j) → i ≠ j →
     collapse_step f i = Ret f' →
     (∃ pj, nodes f' !! j = Some pj ∧ role pj = role nd) ∧
     (∃ nd', nodes f' !! i = Some nd' ∧ parent nd' = None
             ∧ name nd' = name nd)) ∧
  (∀ dic sense ret v,
     _gen_sememe_tree dic sense ret = Ret v →
     ∃ t, tree_of v = Some t ∧ NmStr [TILDE] ∉ tree_names t) ∧
  _gen_sememe_tree belong_registry (belong_sense belong_marker_def) false
    = Ret (TreeDict (DNode (NmSense (str "1")) (str "sense")
                       [DNode (NmSememe belong_zh) (str "None") []])) ∧
  expand_sense belong_registry (belong_sense belong_marker_def) (-1)
    = Ret {[ NmSememe belong_zh ]}.
Proof.
  split; [apply collapse_step_effect|]. split; [|split].
  - intros dic sense ret v (rl & child & -> & Hno)%gen_sememe_tree_shape.
    eexists. split; [by destruct ret|].
    rewrite tree_names_eq, not_elem_of_cons. split; [done|].
    unfold forest_names. simpl. by rewrite app_nil_r.
  - vm_compute. reflexivity.
  - vm_compute. reflexivity.
Qed.

(** ** The tree against the flattened list *)

Lemma py_replace_id a b (s : pystr) : a ∉ s → py_replace a b s = s.
Proof.
  unfold py_replace. induction s as [|c s IH]; intros H; simpl; [done|].
  apply not_elem_of_cons in H as [Hc Hs].
  destruct (N.eqb_spec c a); [congruence|]. by rewrite IH.
Qed.

Lemma elem_of_py_slice {A : Type} (s : list A) lo hi x :
  x ∈ py_slice s lo hi → x ∈ s.
Proof.
  unfold py_slice. intros (i & Hi & _)%elem_of_take.
  rewrite lookup_drop in Hi. by eapply list_elem_of_lookup_2.
Qed.

Lemma plain_clause_elem (kdml : pystr) c :
  plain_clause kdml = true → c ∈ kdml → is_marker c = false ∧ c ≠ SPACE.
Proof.
  unfold plain_clause. rewrite forallb_forall. intros H Hc.
  apply list_elem_of_In, H, andb_true_iff in Hc as [Hm Hs].
  apply negb_true_iff in Hm, Hs. apply N.eqb_neq in Hs. done.
Qed.

(** On a plain clause the entity scan and the flattening pass look up the
    same labels. *)
Lemma entity_list_step dic (kdml : pystr) st res i st' :
  plain_clause kdml = true →
  name <$> node st = NmSememe <$> res → pointer st = [] →
  entity_step (scan_fuel kdml) dic kdml st i = Ret st' →
  ∃ res', list_step (scan_fuel kdml) dic kdml res i = Ret res' ∧
          name <$> node st' = NmSememe <$> res' ∧ pointer st' = [].
Proof.
  intros Hplain Hn Hp. unfold entity_step, list_step. rewrite py_index_nat.
  destruct (kdml !! i) as [c|] eqn:Ec; cbn [mbind outcome_bind]; [|done].
  destruct (plain_clause_elem kdml c Hplain) as [-> _];
    [by eapply list_elem_of_lookup_2|].
  destruct (c =? PIPE)%N; [|intros [= <-]; eauto].
  destruct (scan_start _ _ _) as [a| |]; cbn [mbind outcome_bind]; [|done..].
  destruct (scan_end _ _ _) as [b| |]; cbn [mbind outcome_bind]; [|done..].
  rewrite py_replace_id.
  2:{ intros Hin%elem_of_py_slice.
      by destruct (plain_clause_elem kdml SPACE Hplain Hin). }
  destruct (registry_ref _ _) as [s| |]; cbn [mbind outcome_bind]; [|done..].
  intros [= <-]. eexists. split; [done|]. simpl.
  by rewrite !fmap_app, Hn.
Qed.

Lemma entity_list_scan dic (kdml : pystr) l st res st' :
  plain_clause kdml = true →
  name <$> node st = NmSememe <$> res → pointer st = [] →
  for_each l (entity_step (scan_fuel kdml) dic kdml) st = Ret st' →
  ∃ res', for_each l (list_step (scan_fuel kdml) dic kdml) res = Ret res' ∧
          name <$> node st' = NmSememe <$> res' ∧ pointer st' = [].
Proof.
  intros Hplain. revert st res.
  induction l as [|i l IH]; intros st res Hn Hp H; cbn [for_each] in *.
  - injection H as <-. eauto.
  - apply bind_Ret in H as (st1 & H1 & H).
    destruct (entity_list_step _ _ _ _ _ _ Hplain Hn Hp H1)
      as (res1 & -> & Hn1 & Hp1).
    cbn [mbind outcome_bind]. by eapply IH.
Qed.

(** The names below the root of a returned tree are names of entities. *)
Lemma parse_clause_names f dic sense ret kdml v :
  parse_clause f dic sense ret kdml = Ret v →
  ∃ st t,
    for_each (range (length kdml)) (entity_step f dic kdml)
      (mkEntities [] [] []) = Ret st ∧
    tree_of v = Some t ∧
    ∀ x, x ∈ non_root_names t → x ∈ name <$> node st.
Proof.
  intros (st & node1 & fo & nd0 & rest & H1 & H2 & H3 & En & ->)%parse_clause_Ret.
  pose proof (entity_scan_ok _ _ _ _ _ H1) as [Hl Hp Hlt Hptr].
  destruct (resolve_loop_ok _ _ _ _ _ _ H2 Hp) as [Hn2 Hok2].
  destruct (collapse_loop_ok _ _ _ _ H3 Hok2 eq_refl)
    as [[H0 Hn3 Hrp Hok3 Hd] Hroot].
  exists st. eexists. split; [done|]. split; [by destruct ret|].
  intros x (k & nd & Hin & <- & _)%kids_names.
  rewrite <- Hn2, <- Hn3, En.
  apply elem_of_cons in Hin as [[= -> ->]|[_ Hin]%elem_of_indexed_from].
  - left.
  - right. apply list_elem_of_fmap. exists nd. split; [done|].
    by eapply list_elem_of_lookup_2.
Qed.

Lemma lookup_indexed {A : Type} (l : list A) (k : nat) :
  indexed l !! k = (λ x, (k, x)) <$> l !! k.
Proof.
  unfold indexed. rewrite lookup_zip_with.
  destruct (l !! k) as [x|] eqn:E.
  - rewrite lookup_seq_lt by by eapply lookup_lt_Some. done.
  - by destruct (seq 0 (length l) !! k).
Qed.

Lemma forest_names_cons t l :
  forest_names (t :: l) = tree_names t ++ forest_names l.
Proof. reflexivity. Qed.

Lemma kids_names_tail kn rest p x :
  x ∈ forest_names (kids rest p) → x ∈ forest_names (kids (kn :: rest) p).
Proof.
  destruct kn as [k nd]. simpl. destruct (decide (parent nd = Some p)); [|done].
  rewrite forest_names_cons, elem_of_app. by right.
Qed.

(** An entity whose parent is [p] is a child of [p] in the export, with
    the entities after it that name it as their parent below it. *)
Lemma kids_child L i k nd p :
  L !! i = Some (k, nd) → parent nd = Some p →
  name nd ∈ forest_names (kids L p) ∧
  ∀ x, x ∈ forest_names (kids (drop (S i) L) (NEnt k)) →
       x ∈ forest_names (kids L p).
Proof.
  revert i. induction L as [|kn L IH]; intros i Hi Hp; [done|].
  destruct i as [|i].
  - injection Hi as ->. simpl. rewrite decide_True by done.
    rewrite forest_names_cons, tree_names_eq. split.
    + apply elem_of_app. left. left.
    + intros x Hx. rewrite drop_0 in Hx. apply elem_of_app. left. by right.
  - destruct (IH i Hi Hp) as [H1 H2]. split.
    + by apply kids_names_tail.
    + intros x Hx. by apply kids_names_tail, H2.
Qed.

Lemma all_reached ns k nd :
  well_attached ns → ns !! k = Some nd →
  name nd ∈ forest_names (kids (indexed ns) NRoot) ∧
  ∀ x, x ∈ forest_names (kids (drop (S k) (indexed ns)) (NEnt k)) →
       x ∈ forest_names (kids (indexed ns) NRoot).
Proof.
  intros Hw. revert nd.
  induction (lt_wf k) as [k _ IH]. intros nd Hk.
  assert (indexed ns !! k = Some (k, nd)) as Hik
    by by rewrite lookup_indexed, Hk.
  destruct (Hw k nd Hk) as [[-> Hp]|(j & Hj & Hp)].
  - by apply kids_child.
  - destruct (lookup_lt_is_Some_2 ns j) as [ndj Hndj].
    { apply lookup_lt_Some in Hk. lia. }
    destruct (IH j Hj ndj Hndj) as [_ Hsub].
    destruct (kids_child (drop (S j) (indexed ns)) (k - S j) k nd (NEnt j))
      as [H1 H2]; [|done|].
    { rewrite lookup_drop. by replace (S j + (k - S j))%nat with k by lia. }
    split; [by apply Hsub|].
    intros x Hx. apply Hsub, H2.
    rewrite drop_drop. by replace (S j + S (k - S j))%nat with (S k) by lia.
Qed.

Lemma expand_full_elem t x :
  x ∈ _expand_tree (PDict t) (-1) true ↔
  is_wild x = false ∧ x ∈ non_root_names t.
Proof.
  rewrite elem_of_expand_tree.
  rewrite <- (expand_item_unbounded t (-1) true x) by lia. split.
  - by intros [_ (t' & ->%list_elem_of_singleton & H)].
  - intros H. split; [done|]. exists t. split; [by left|done].
Qed.

(** C5, as the code has it: for a first clause without anaphora markers
    and without spaces, every sememe of the tree is in the flattened list
    of that clause; the two sets are equal when every entity after the
    first found a parent, and an entity without one is left out of the
    tree. *)
Theorem tree_sememes_within_flattened_list dic sense l t :
  plain_clause (first_clause (Def sense)) = true →
  _gen_sememe_list dic (with_Def sense (first_clause (Def sense))) = Ret l →
  _gen_sememe_tree dic sense false = Ret (TreeDict t) →
  _expand_tree (PDict t) (-1) true ⊆ list_to_set (NmSememe <$> l) ∧
  (∀ ns, attached_entities dic (first_clause (Def sense)) = Ret ns →
         Forall (λ nd, is_Some (parent nd)) (drop 1 ns) →
         _expand_tree (PDict t) (-1) true = list_to_set (NmSememe <$> l)).
Proof.
  unfold first_clause, _gen_sememe_tree, gen_sememe_tree_fuel.
  destruct (py_split SEMI (strip_rmk (Def sense))) as [|kdml pieces] eqn:E;
    [by apply py_split_nonempty in E|].
  intros Hplain Hl Ht.
  unfold _gen_sememe_list, gen_sememe_list_fuel in Hl. simpl in Hl.
  destruct (parse_clause_names _ _ _ _ _ _ Ht) as (st & t' & H1 & [= <-] & Hsub).
  destruct (entity_list_scan dic kdml _ (mkEntities [] [] []) [] st Hplain
              eq_refl eq_refl H1) as (res & Hres & Hnames & Hptr).
  rewrite Hres in Hl. injection Hl as ->.
  assert (_expand_tree (PDict t) (-1) true ⊆ list_to_set (NmSememe <$> l))
    as Hincl.
  { intros x [_ Hx]%expand_full_elem.
    apply elem_of_list_to_set. rewrite <- Hnames. by apply Hsub. }
  split; [done|]. intros ns Hns Hall.
  apply (anti_symm (⊆)); [done|].
  intros x Hx%elem_of_list_to_set.
  apply parse_clause_Ret in Ht
    as (st' & node1 & fo & nd0 & rest & H1' & H2 & H3 & En & [= ->]).
  rewrite H1 in H1'. injection H1' as <-.
  unfold attached_entities in Hns. rewrite H1 in Hns.
  cbn [mbind outcome_bind] in Hns. rewrite H2 in Hns. injection Hns as <-.
  rewrite Hptr in H3. injection H3 as <-. simpl in En. subst node1.
  pose proof (entity_scan_ok _ _ _ _ _ H1) as [_ Hp _ _].
  destruct (resolve_loop_ok _ _ _ _ _ _ H2 Hp) as [Hn2 Hok2].
  assert (well_attached (set_parent (Some NRoot) nd0 :: rest)) as Hw.
  { intros [|k] nd Hk.
    - injection Hk as <-. by left.
    - right. simpl in Hk, Hall. rewrite drop_0 in Hall.
      rewrite Forall_forall in Hall.
      destruct (Hall nd) as [p Hpar]; [by eapply list_elem_of_lookup_2|].
      destruct (Hok2 (S k) nd Hk) as [Hnone|?]; [congruence|done]. }
  rewrite <- Hnames, <- Hn2 in Hx.
  apply list_elem_of_fmap in Hx as (nd & -> & (k & Hk)%list_elem_of_lookup_1).
  assert (∃ nd', (set_parent (Some NRoot) nd0 :: rest) !! k = Some nd'
                 ∧ name nd' = name nd) as (nd' & Hk' & Hname).
  { destruct k; [|by exists nd]. injection Hk as <-. by eexists. }
  apply expand_full_elem. split.
  - rewrite Hnames in Hn2.
    assert (name nd ∈ NmSememe <$> l) as Hin.
    { rewrite <- Hn2. apply list_elem_of_fmap. exists nd. split; [done|].
      by eapply list_elem_of_lookup_2. }
    by apply list_elem_of_fmap in Hin as (s & -> & _).
  - rewrite <- Hname. apply (proj1 (all_reached _ _ _ Hw Hk')).
Qed.

(** * Further properties of the code *)

(** ** [_expand_tree] at a bounded depth *)

Lemma names_within_0 (cs : list dtree) : flat_map (names_within 0) cs = [].
Proof. by induction cs. Qed.

Lemma elem_of_flat_map {A B : Type} (f : A → list B) (l : list A) (y : B) :
  y ∈ flat_map f l ↔ ∃ x, x ∈ l ∧ y ∈ f x.
Proof.
  rewrite list_elem_of_In, in_flat_map.
  split; intros (x & Hx & Hy); exists x; by rewrite ?list_elem_of_In in *.
Qed.

(** The recursive call on the children at depth [n]. *)
Lemma expand_children_within (n : nat) (cs : list dtree) (x : pyname) :
  (∀ t, t ∈ cs → ∀ m, n = S m →
     x ∈ expand_item t (Z.of_nat (S m)) false ↔
     is_wild x = false ∧ x ∈ names_within (S m) t) →
  x ∈ match cs with
      | [] => (∅ : gset pyname)
      | _ :: _ => _expand_tree (PList cs) (Z.of_nat n) false
      end ↔
  is_wild x = false ∧ x ∈ flat_map (names_within n) cs.
Proof.
  intros IH. destruct n as [|m].
  - rewrite names_within_0.
    assert (x ∈ match cs with
                | [] => (∅ : gset pyname)
                | _ :: _ => _expand_tree (PList cs) (Z.of_nat 0) false
                end ↔ False) as ->.
    { destruct cs; apply elem_of_empty. }
    split; [done|]. by intros [_ ?%elem_of_nil].
  - assert (x ∈ expand_items cs (Z.of_nat (S m)) false ↔
            is_wild x = false ∧ x ∈ flat_map (names_within (S m)) cs) as H.
    { rewrite elem_of_expand_items, elem_of_flat_map. split.
      - intros (t & Hin & Hx). apply (IH t Hin m eq_refl) in Hx as [Hw Hx].
        split; [done|]. by exists t.
      - intros (Hw & t & Hin & Hx). exists t. split; [done|].
        by apply (IH t Hin m eq_refl). }
    destruct cs as [|c cs].
    + rewrite elem_of_empty. split; [done|]. by intros [_ ?%elem_of_nil].
    + unfold _expand_tree.
      destruct (Z.of_nat (S m) =? 0) eqn:E; [apply Z.eqb_eq in E; lia|done].
Qed.

Lemma expand_item_within (n : nat) (t : dtree) (x : pyname) :
  x ∈ expand_item t (Z.of_nat (S n)) false ↔
  is_wild x = false ∧ x ∈ names_within (S n) t.
Proof.
  revert t. induction n as [n IH] using lt_wf_ind. intros [nm rl cs].
  rewrite expand_item_eq, elem_of_union. unfold own_names.
  replace (Z.of_nat (S n) - 1) with (Z.of_nat n) by lia.
  rewrite (expand_children_within n cs x).
  2:{ intros t _ m ->. apply IH. lia. }
  change (names_within (S n) (DNode nm rl cs))
    with (nm :: flat_map (names_within n) cs).
  rewrite elem_of_cons. destruct (is_wild nm) eqn:Ew.
  - rewrite elem_of_empty. split; [tauto|].
    intros [Hw [->|Hx]]; [congruence|by right].
  - rewrite elem_of_singleton. split.
    + intros [->|[Hw Hx]]; [by split; [|left]|by split; [|right]].
    + intros [Hw [->|Hx]]; [by left|by right].
Qed.

(** X1: [_expand_tree] with a positive depth [n + 1] yields the names of the
    nodes at depths 1 to [n] (the root being at depth 0), less the
    one-character strings of the wildcard and of the variable marker:
    depth 1 yields nothing, depth 2 the children of the root. *)
Theorem expand_tree_bounded_depth (t : dtree) (n : nat) :
  _expand_tree (PDict t) (Z.of_nat (S n)) true
    = list_to_set (filter (λ nm, nm ≠ NmStr [QMARK] ∧ nm ≠ NmStr [DOLLAR])
                     (flat_map (names_within n) (dchildren t))) ∧
  _expand_tree (PDict t) 1 true = ∅.
Proof.
  assert (∀ m x, x ∈ _expand_tree (PDict t) (Z.of_nat (S m)) true ↔
            is_wild x = false ∧ x ∈ flat_map (names_within m) (dchildren t))
    as H.
  { intros m x. destruct t as [nm rl cs]. cbn [dchildren].
    rewrite <- (expand_children_within m cs x)
      by (intros t _ k _; apply expand_item_within).
    rewrite elem_of_expand_tree. split.
    - intros [_ (t' & ->%list_elem_of_singleton & Hx)].
      rewrite expand_item_eq, elem_of_union in Hx. unfold own_names in Hx.
      destruct Hx as [Hx|Hx]; [by apply elem_of_empty in Hx|].
      by replace (Z.of_nat (S m) - 1) with (Z.of_nat m) in Hx by lia.
    - intros Hx. split; [lia|]. eexists. split; [by left|].
      rewrite expand_item_eq, elem_of_union. right.
      by replace (Z.of_nat (S m) - 1) with (Z.of_nat m) by lia. }
  split.
  - rewrite <- filter_is_wild. apply set_eq. intros x.
    by rewrite elem_of_list_to_set, list_elem_of_filter, H.
  - apply set_eq. intros x. rewrite (H 0%nat x), names_within_0.
    rewrite elem_of_empty. split; [|done]. by intros [_ ?%elem_of_nil].
Qed.

Lemma expand_item_mono (t : dtree) (a b : Z) (isRoot : bool) :
  0 < a → a ≤ b ∨ b < 0 →
  expand_item t a isRoot ⊆ expand_item t b isRoot.
Proof.
  revert a b isRoot. induction t as [nm rl cs IH] using dtree_induction.
  intros a b isRoot Ha Hb x. rewrite !expand_item_eq, !elem_of_union.
  intros [Hx|Hx]; [by left|right].
  destruct cs as [|c cs]; [done|].
  apply elem_of_expand_tree in Hx as [Ha1 (t & Hin & Hx)].
  apply elem_of_expand_tree. split; [lia|]. exists t. split; [done|].
  rewrite Forall_forall in IH.
  apply (IH t Hin (a - 1) (b - 1) false); [lia|lia|done].
Qed.

(** X2: A larger depth never yields less, and the unlimited depth yields the
    most. *)
Theorem expand_tree_monotone (tree : pytree) (a b : Z) (isRoot : bool) :
  0 ≤ a ≤ b ∨ b < 0 →
  _expand_tree tree a isRoot ⊆ _expand_tree tree b isRoot.
Proof.
  intros Hab x [Ha (t & Hin & Hx)]%elem_of_expand_tree.
  apply elem_of_expand_tree. split; [lia|]. exists t. split; [done|].
  destruct (Z.lt_trichotomy a 0) as [Hneg|[->|Hpos]]; [|done|].
  - apply expand_item_unbounded; [lia|]. by apply expand_item_sound in Hx.
  - apply (expand_item_mono t a b isRoot); [done|lia|done].
Qed.

(** ** What the tree builder returns and raises *)

Lemma bind_Raise {A B : Type} (m : outcome A) (f : A → outcome B) (e : exn) :
  m ≫= f = Raise e → m = Raise e ∨ ∃ a, m = Ret a ∧ f a = Raise e.
Proof.
  destruct m as [a|e'|]; simpl; intros H;
    [right; eauto|left; congruence|discriminate H].
Qed.

Lemma entity_step_names f dic kdml st i st' :
  entity_step f dic kdml st i = Ret st' →
  Forall (λ nd, entity_name_ok dic (name nd)) (node st) →
  (∀ k, k ∈ pointer st → TILDE ∈ kdml) →
  Forall (λ nd, entity_name_ok dic (name nd)) (node st') ∧
  (∀ k, k ∈ pointer st' → TILDE ∈ kdml).
Proof.
  unfold entity_step. rewrite py_index_nat. intros H Hn Hp.
  destruct (kdml !! i) as [c|] eqn:Ec; cbn [mbind outcome_bind] in H; [|done].
  destruct (is_marker c) eqn:Em.
  - injection H as <-. simpl. split.
    + apply Forall_app. split; [done|]. repeat constructor. simpl. eauto.
    + intros k. destruct (N.eqb_spec c TILDE) as [->|_]; [|apply Hp].
      intros _. by eapply list_elem_of_lookup_2.
  - destruct (c =? PIPE)%N; [|by injection H as <-].
    apply bind_Ret in H as (a & _ & H). apply bind_Ret in H as (b & _ & H).
    apply bind_Ret in H as (s & Hs & [= <-]). simpl. split; [|done].
    apply Forall_app. split; [done|]. repeat constructor. simpl.
    unfold registry_ref in Hs. destruct (dic !! _) eqn:E; [|done].
    injection Hs as <-. by rewrite E.
Qed.

Lemma entity_scan_names f dic kdml l st :
  for_each l (entity_step f dic kdml) (mkEntities [] [] []) = Ret st →
  Forall (λ nd, entity_name_ok dic (name nd)) (node st) ∧
  (∀ k, k ∈ pointer st → TILDE ∈ kdml).
Proof.
  apply (for_each_invariant
           (λ _ s, Forall (λ nd, entity_name_ok dic (name nd)) (node s) ∧
                   (∀ k, k ∈ pointer s → TILDE ∈ kdml))).
  - split; [constructor|]. by intros k ?%elem_of_nil.
  - intros pre x post s1 s2 _ [Hn Hp] Hb. by eapply entity_step_names.
Qed.

Lemma collapse_step_root names pre f i f' :
  collapsed_ok names pre f → collapse_step f i = Ret f' → root f' = root f.
Proof.
  intros [_ _ _ Hok _]. unfold collapse_step. rewrite py_index_nat.
  destruct (nodes f !! i) as [nd|] eqn:Ei; cbn [mbind outcome_bind]; [|done].
  destruct (parent nd) as [[|j]|] eqn:Ep; [| |done].
  - destruct (Hok _ _ Ei) as [?|(j & _ & ?)]; congruence.
  - cbn [assign_role]. intros H.
    apply bind_Ret in H as (f1 & H1 & H).
    apply bind_Ret in H1 as (ns1 & _ & [= <-]).
    by apply bind_Ret in H as (ns2 & _ & [= <-]).
Qed.

Lemma collapse_loop_root l rt ns f :
  for_each l collapse_step (mkForest rt ns) = Ret f →
  resolved_ok ns → parent rt = None → root f = rt.
Proof.
  intros H Hok Hrt.
  apply (for_each_invariant
           (λ pre s, collapsed_ok (name <$> ns) pre s ∧ root s = rt))
    in H; [by destruct H| |].
  - split; [|done]. split; simpl; try done.
    + apply not_elem_of_nil.
    + intros k nd Hk. by apply elem_of_nil in Hk.
  - intros pre x post s1 s2 _ [Hc Hr] Hb. split.
    + by destruct (collapse_step_ok _ _ _ _ _ Hc Hb).
    + rewrite <- Hr. by eapply collapse_step_root.
Qed.

(** X3: A tree the builder returns is the root, carrying the sense and the
    role [sense], with one child; every node below the root is a
    registered sememe, a wildcard or a variable marker. *)
Theorem gen_sememe_tree_well_formed dic sense ret v :
  _gen_sememe_tree dic sense ret = Ret v →
  ∃ child,
    v = (if ret then TreeNode else TreeDict)
          (DNode (NmSense (No sense)) (str "sense") [child]) ∧
    ∀ x, x ∈ tree_names child →
      (∃ k, x = NmSememe k ∧ is_Some (dic !! k)) ∨
      x = NmStr [QMARK] ∨ x = NmStr [DOLLAR].
Proof.
  unfold _gen_sememe_tree, gen_sememe_tree_fuel.
  destruct (py_split SEMI (strip_rmk (Def sense))) as [|kdml pieces] eqn:E;
    [by apply py_split_nonempty in E|].
  intros Hv.
  destruct (parse_clause_shape _ _ _ _ _ _ Hv) as (rl & child & Hshape & Hno).
  destruct (parse_clause_names _ _ _ _ _ _ Hv) as (st & t & H1 & Ht & Hsub).
  destruct (parse_clause_Ret _ _ _ _ _ _ Hv)
    as (st' & node1 & fo & nd0 & rest & H1' & H2 & H3 & En & Hv').
  rewrite H1 in H1'. injection H1' as <-.
  pose proof (entity_scan_ok _ _ _ _ _ H1) as [_ Hp _ _].
  destruct (resolve_loop_ok _ _ _ _ _ _ H2 Hp) as [_ Hok2].
  pose proof (collapse_loop_root _ _ _ _ H3 Hok2 eq_refl) as Hroot.
  destruct (entity_scan_names _ _ _ _ _ H1) as [Hnames _].
  assert (rl = str "sense") as ->.
  { rewrite Hv', Hroot in Hshape. by destruct ret; injection Hshape as <-. }
  exists child. split; [done|]. intros x Hx.
  assert (x ∈ name <$> node st) as Hin.
  { apply Hsub. rewrite Hshape in Ht.
    assert (t = DNode (NmSense (No sense)) (str "sense") [child]) as ->
      by (destruct ret; simpl in Ht; congruence).
    unfold non_root_names, forest_names. simpl. by rewrite app_nil_r. }
  apply list_elem_of_fmap in Hin as (nd & -> & Hnd).
  rewrite Forall_forall in Hnames. specialize (Hnames nd Hnd).
  destruct (name nd) as [no|k|s] eqn:En'; simpl in Hnames; [done|eauto|].
  destruct Hnames as (c & -> & Hc). right.
  unfold is_marker in Hc.
  destruct (N.eqb_spec c TILDE) as [->|_]; [done|].
  destruct (N.eqb_spec c QMARK) as [->|_]; [by left|].
  destruct (N.eqb_spec c DOLLAR) as [->|_]; [by right|done].
Qed.

Lemma registry_ref_Raise dic k e :
  registry_ref dic k = Raise e → e = KeyError k ∧ dic !! k = None.
Proof.
  unfold registry_ref. destruct (dic !! k); [done|]. by intros [= <-].
Qed.

Lemma entity_step_lookup_exn f dic kdml st i e :
  entity_step f dic kdml st i = Raise e → lookup_exn dic e.
Proof.
  unfold entity_step. intros H.
  apply bind_Raise in H as [H|(c & _ & H)];
    [left; by apply py_index_Raise in H|].
  destruct (is_marker c); [done|]. destruct (_ =? _)%N; [|done].
  apply bind_Raise in H as [H|(a & _ & H)];
    [left; by apply scan_start_Raise in H|].
  apply bind_Raise in H as [H|(b & _ & H)];
    [left; by apply scan_end_Raise in H|].
  apply bind_Raise in H as [H|(s & _ & H)]; [|done].
  apply registry_ref_Raise in H as [-> H]. right. eauto.
Qed.

Lemma list_step_lookup_exn f dic kdml res i e :
  list_step f dic kdml res i = Raise e → lookup_exn dic e.
Proof.
  unfold list_step. intros H.
  apply bind_Raise in H as [H|(c & _ & H)];
    [left; by apply py_index_Raise in H|].
  destruct (_ =? _)%N; [|done].
  apply bind_Raise in H as [H|(a & _ & H)];
    [left; by apply scan_start_Raise in H|].
  apply bind_Raise in H as [H|(b & _ & H)];
    [left; by apply scan_end_Raise in H|].
  apply bind_Raise in H as [H|(s & _ & H)]; [|done].
  apply registry_ref_Raise in H as [-> H]. right. eauto.
Qed.

Lemma find_owner_Raise f kdml cursor l r q e :
  find_owner f kdml cursor l r q = Raise e → e = IndexError.
Proof.
  revert cursor l r q. induction f as [|f IH]; intros cursor l r q; simpl;
    [done|].
  intros H. apply bind_Raise in H as [H|(c & _ & H)];
    [by apply py_index_Raise in H|].
  destruct (_ && _); [done|]. destruct (cursor =? 0); [done|].
  repeat (destruct (_ =? _)%N); by eapply IH.
Qed.

Lemma find_parent_Raise es cursor i e :
  find_parent es cursor i = Raise e → e = IndexError.
Proof.
  induction i as [|i IH]; simpl; [done|]. intros H.
  apply bind_Raise in H as [H|(x & _ & H)]; [by apply py_index_Raise in H|].
  destruct (_ =? _); [done|by apply IH].
Qed.

Lemma role_scan_Raise kdml js b e0 e :
  role_scan kdml js b e0 = Raise e → e = IndexError.
Proof.
  revert b e0. induction js as [|j js IH]; intros b e0; simpl; [done|].
  intros H. apply bind_Raise in H as [H|(c & _ & H)];
    [by apply py_index_Raise in H|].
  destruct (_ =? _)%N; [by eapply IH|]. destruct (_ || _); [done|by eapply IH].
Qed.

Lemma update_node_Raise ns i f e :
  update_node ns i f = Raise e → e = IndexError.
Proof.
  unfold update_node. intros H.
  apply bind_Raise in H as [H|(c & _ & H)]; [by apply py_index_Raise in H|done].
Qed.

Lemma resolve_step_Raise f kdml es ns i e :
  resolve_step f kdml es ns i = Raise e → e = IndexError.
Proof.
  unfold resolve_step. intros H.
  apply bind_Raise in H as [H|(e_i & _ & H)]; [by apply py_index_Raise in H|].
  apply bind_Raise in H as [H|(cursor & _ & H)];
    [by apply find_owner_Raise in H|].
  apply bind_Raise in H as [H|(pidx & _ & H)];
    [by apply find_parent_Raise in H|].
  apply bind_Raise in H as [H|(node1 & _ & H)].
  { destruct pidx; [|done].
    apply bind_Raise in H as [H|(x & _ & H)]; [by apply py_index_Raise in H|].
    by apply update_node_Raise in H. }
  destruct (_ =? _)%nat; [done|].
  apply bind_Raise in H as [H|(right_range & _ & H)].
  { destruct pidx;
      (apply bind_Raise in H as [H|(x & _ & H)];
       [by apply py_index_Raise in H|done]). }
  apply bind_Raise in H as [H|([b e0] & _ & H)];
    [by apply role_scan_Raise in H|].
  destruct (_ =? _); [done|by apply update_node_Raise in H].
Qed.

Lemma collapse_step_Raise f i e :
  collapse_step f i = Raise e → e = IndexError ∨ e = AttributeError.
Proof.
  unfold collapse_step. intros H.
  apply bind_Raise in H as [H|(nd & _ & H)];
    [left; by apply py_index_Raise in H|].
  destruct (parent nd) as [p|]; [|right; congruence].
  apply bind_Raise in H as [H|(f1 & _ & H)].
  - destruct p as [|j]; [done|]. simpl in H.
    apply bind_Raise in H as [H|(ns & _ & H)]; [|done].
    left. by apply update_node_Raise in H.
  - apply bind_Raise in H as [H|(ns & _ & H)]; [|done].
    left. by apply update_node_Raise in H.
Qed.

(** X4: The tree builder raises nothing but [IndexError], the [KeyError] of
    a label that is not registered, and, only for a clause with a
    same-as-previous marker, [AttributeError]. *)
Theorem gen_sememe_tree_exceptions dic sense ret e :
  _gen_sememe_tree dic sense ret = Raise e →
  lookup_exn dic e ∨
  (e = AttributeError ∧ TILDE ∈ first_clause (Def sense)).
Proof.
  unfold first_clause, _gen_sememe_tree, gen_sememe_tree_fuel.
  destruct (py_split SEMI (strip_rmk (Def sense))) as [|kdml pieces] eqn:E;
    [done|].
  unfold parse_clause. intros H.
  apply bind_Raise in H as [H|(st & H1 & H)].
  { left. apply for_each_Raise in H as (s1 & x & _ & H).
    by apply entity_step_lookup_exn in H. }
  apply bind_Raise in H as [H|(node1 & H2 & H)].
  { left. left. apply for_each_Raise in H as (s1 & x & _ & H).
    by apply resolve_step_Raise in H. }
  apply bind_Raise in H as [H|(fo & H3 & H)].
  { apply for_each_Raise in H as (s1 & x & Hx & H).
    apply collapse_step_Raise in H as [->| ->]; [by left; left|].
    right. split; [done|].
    destruct (entity_scan_names _ _ _ _ _ H1) as [_ Hp]. by apply (Hp x). }
  apply bind_Raise in H as [H|(ns & _ & H)]; [|by destruct ret].
  left. left. by apply update_node_Raise in H.
Qed.

Lemma gen_sememe_list_Raise dic sense e :
  _gen_sememe_list dic sense = Raise e → lookup_exn dic e.
Proof.
  unfold _gen_sememe_list, gen_sememe_list_fuel.
  intros (s1 & x & _ & H)%for_each_Raise. by apply list_step_lookup_exn in H.
Qed.

Lemma gen_sememe_list_registered dic sense l :
  _gen_sememe_list dic sense = Ret l → Forall (λ k, is_Some (dic !! k)) l.
Proof.
  unfold _gen_sememe_list, gen_sememe_list_fuel, range. intros H.
  apply (list_scan_refs dic (Def sense) (Def sense) []) in H
    as (new & -> & H); [|done].
  simpl. clear -H. induction H as [|i k li lk (a & b & _ & _ & _ & Hk) _ IH];
    by constructor.
Qed.

(** X5: The flattening pass raises nothing but [IndexError] and the
    [KeyError] of a label that is not registered; what it returns are
    registered labels. *)
Theorem gen_sememe_list_outcomes dic sense :
  (∀ e, _gen_sememe_list dic sense = Raise e → lookup_exn dic e) ∧
  (∀ l, _gen_sememe_list dic sense = Ret l →
        Forall (λ k, is_Some (dic !! k)) l).
Proof.
  split; [apply gen_sememe_list_Raise|apply gen_sememe_list_registered].
Qed.

(** ** The two scans around a vertical bar *)

Lemma scan_start_spec f (kdml : pystr) idx a :
  scan_start f kdml idx = Ret a →
  a ≤ idx ∧
  (∃ c, py_index kdml a = Ret c ∧ is_opener c = true) ∧
  ∀ j c, a < j ≤ idx → py_index kdml j = Ret c → is_opener c = false.
Proof.
  revert idx. induction f as [|f IH]; intros idx; simpl; [done|].
  destruct (py_index kdml idx) as [c| |] eqn:Ec; simpl; [|done..].
  destruct (is_opener c) eqn:Eo.
  - intros [= <-]. split; [lia|]. split; [eauto|]. intros j c' Hj. lia.
  - intros (Hle & Hop & Hbetween)%IH. split; [lia|]. split; [done|].
    intros j c' Hj Hc'. destruct (decide (j = idx)) as [->|Hne].
    + congruence.
    + apply (Hbetween j c'); [lia|done].
Qed.

Lemma scan_start_Raise_no_opener f (kdml : pystr) idx e :
  scan_start f kdml idx = Raise e → idx < Z.of_nat (length kdml) →
  ∀ j c, - Z.of_nat (length kdml) ≤ j ≤ idx →
         py_index kdml j = Ret c → is_opener c = false.
Proof.
  revert idx. induction f as [|f IH]; intros idx; simpl; [done|].
  destruct (py_index kdml idx) as [c| |] eqn:Ec; simpl; [| |done].
  - destruct (is_opener c) eqn:Eo; [done|]. intros H Hlt j c' Hj Hc'.
    destruct (decide (j = idx)) as [->|Hne]; [congruence|].
    apply (IH (idx - 1) H ltac:(lia) j c'); [lia|done].
  - intros _ Hlt j c' Hj Hc'. exfalso.
    unfold py_index in Ec.
    destruct (idx <? 0) eqn:E1.
    + apply Z.ltb_lt in E1.
      destruct ((0 <=? idx + Z.of_nat (length kdml))
                && (idx + Z.of_nat (length kdml) <? Z.of_nat (length kdml)))
        eqn:E2.
      * apply andb_true_iff in E2 as [?%Z.leb_le ?%Z.ltb_lt].
        destruct (kdml !! Z.to_nat (idx + Z.of_nat (length kdml))) eqn:E3;
          [done|].
        apply lookup_ge_None in E3. lia.
      * apply andb_false_iff in E2 as [?%Z.leb_gt|?%Z.ltb_ge]; lia.
    + apply Z.ltb_ge in E1.
      destruct ((0 <=? idx) && (idx <? Z.of_nat (length kdml))) eqn:E2.
      * destruct (kdml !! Z.to_nat idx) eqn:E3; [done|].
        apply lookup_ge_None in E3. lia.
      * apply andb_false_iff in E2 as [?%Z.leb_gt|?%Z.ltb_ge]; lia.
Qed.

Lemma py_index_wrapped {A : Type} (s : list A) (p : nat) (c : A) :
  s !! p = Some c →
  py_index s (Z.of_nat p - Z.of_nat (length s)) = Ret c.
Proof.
  intros Hp. pose proof (lookup_lt_Some _ _ _ Hp) as Hlt. unfold py_index.
  destruct (Z.ltb_spec (Z.of_nat p - Z.of_nat (length s)) 0); [|lia].
  replace (Z.of_nat p - Z.of_nat (length s) + Z.of_nat (length s))
    with (Z.of_nat p) by lia.
  rewrite Nat2Z.id, Hp.
  destruct (Z.leb_spec 0 (Z.of_nat p)); [|lia].
  destruct (Z.ltb_spec (Z.of_nat p) (Z.of_nat (length s))); [done|lia].
Qed.

Lemma scan_end_Raise_no_closer f (kdml : pystr) (idx : nat) e :
  scan_end f kdml (Z.of_nat idx) = Raise e → unclosed_from kdml idx = true.
Proof.
  unfold unclosed_from. revert idx.
  induction f as [|f IH]; intros idx; simpl; [done|].
  rewrite py_index_nat. destruct (kdml !! idx) as [c|] eqn:Ec; simpl.
  - destruct (is_closer c) eqn:Eo; [done|].
    replace (Z.of_nat idx + 1) with (Z.of_nat (S idx)) by lia.
    intros H%IH. rewrite (drop_S _ _ _ Ec). simpl. by rewrite Eo, H.
  - intros _. by rewrite drop_ge by by apply lookup_ge_None.
Qed.

(** X6: The backward scan from a vertical bar finds an opening delimiter
    whenever the string has one anywhere: below position 0 the index is
    negative and counts from the end of the string, so the scan goes on
    through the characters after the bar.  The forward scan finds a
    closing delimiter only at the bar or after it. *)
Theorem scans_around_bar (kdml : pystr) (i : nat) :
  (i < length kdml)%nat →
  ((∃ a, scan_start (scan_fuel kdml) kdml (Z.of_nat i) = Ret a) ↔
   (∃ c, c ∈ kdml ∧ is_opener c = true)) ∧
  (∀ a, scan_start (scan_fuel kdml) kdml (Z.of_nat i) = Ret a →
     (∃ c, py_index kdml a = Ret c ∧ is_opener c = true) ∧
     (a < 0 ↔ ∀ c, c ∈ take (S i) kdml → is_opener c = false)) ∧
  ((∃ b, scan_end (scan_fuel kdml) kdml (Z.of_nat i) = Ret b) ↔
   unclosed_from kdml i = false).
Proof.
  intros Hi. split; [|split].
  - split.
    + intros (a & (_ & (c & Hc & Ho) & _)%scan_start_spec).
      exists c. split; [|done]. unfold py_index in Hc.
      destruct (_ && _); [|done].
      destruct (kdml !! _) eqn:E; [|done]. injection Hc as ->.
      by eapply list_elem_of_lookup_2.
    + intros (c & (p & Hp)%list_elem_of_lookup_1 & Ho).
      destruct (scan_start (scan_fuel kdml) kdml (Z.of_nat i)) as [a|e|] eqn:E;
        [eauto| |by apply (scan_fuel_start kdml _ i) in E].
      pose proof (lookup_lt_Some _ _ _ Hp) as Hlt.
      rewrite (scan_start_Raise_no_opener _ _ _ _ E
                 ltac:(lia) (Z.of_nat p - Z.of_nat (length kdml)) c) in Ho;
        [done|lia|by apply py_index_wrapped].
  - intros a (Hle & Hop & Hbetween)%scan_start_spec. split; [done|]. split.
    + intros Hneg c (p & Hp & Hlt)%elem_of_take.
      apply (Hbetween (Z.of_nat p) c); [lia|].
      by rewrite py_index_nat, Hp.
    + intros Hno. destruct (Z.lt_ge_cases a 0) as [|Hge]; [done|].
      destruct Hop as (c & Hc & Ho).
      replace a with (Z.of_nat (Z.to_nat a)) in Hc by lia.
      rewrite py_index_nat in Hc.
      destruct (kdml !! Z.to_nat a) eqn:E; [|done]. injection Hc as ->.
      rewrite (Hno c) in Ho; [done|].
      apply elem_of_take. exists (Z.to_nat a). split; [done|lia].
  - split.
    + intros (b & Hb).
      destruct (unclosed_from kdml i) eqn:Eu; [|done].
      destruct (scan_end_unclosed (scan_fuel kdml) kdml i Eu); congruence.
    + intros Hu.
      destruct (scan_end (scan_fuel kdml) kdml (Z.of_nat i)) as [b|e|] eqn:E;
        [eauto| |by apply (scan_fuel_end kdml _ i) in E].
      apply scan_end_Raise_no_closer in E. congruence.
Qed.

Lemma scan_start_no_opener (kdml : pystr) (i : nat) :
  (i < length kdml)%nat → (∀ c, c ∈ kdml → is_opener c = false) →
  scan_start (scan_fuel kdml) kdml (Z.of_nat i) = Raise IndexError.
Proof.
  intros Hi Hno.
  destruct (scan_start (scan_fuel kdml) kdml (Z.of_nat i)) as [a|e|] eqn:E.
  - apply scan_start_spec in E as (_ & (c & Hc & Ho) & _).
    unfold py_index in Hc. destruct (_ && _); [|done].
    destruct (kdml !! _) eqn:El; [|done]. injection Hc as ->.
    rewrite Hno in Ho; [done|]. by eapply list_elem_of_lookup_2.
  - by apply scan_start_Raise in E as ->.
  - by apply (scan_fuel_start kdml _ i) in E.
Qed.

Lemma list_step_no_opener dic (kdml : pystr) (i : nat) res :
  (∀ c, c ∈ kdml → is_opener c = false) → (i < length kdml)%nat →
  list_step (scan_fuel kdml) dic kdml res i =
    if bool_decide (kdml !! i = Some PIPE) then Raise IndexError else Ret res.
Proof.
  intros Hno Hi. unfold list_step. rewrite py_index_nat.
  destruct (lookup_lt_is_Some_2 _ _ Hi) as [c Hc]. rewrite Hc.
  cbn [mbind outcome_bind]. destruct (N.eqb_spec c PIPE) as [->|Hne].
  - rewrite scan_start_no_opener by done. by rewrite bool_decide_true.
  - by rewrite bool_decide_false by congruence.
Qed.

Lemma list_scan_no_opener dic (kdml : pystr) (l : list nat) res :
  (∀ c, c ∈ kdml → is_opener c = false) →
  Forall (λ i, (i < length kdml)%nat) l →
  for_each l (list_step (scan_fuel kdml) dic kdml) res =
    if bool_decide (Exists (λ i, kdml !! i = Some PIPE) l)
    then Raise IndexError else Ret res.
Proof.
  intros Hno Hl. induction Hl as [|i l Hi _ IH]; cbn [for_each].
  - by rewrite bool_decide_false by by intros ?%Exists_nil.
  - rewrite list_step_no_opener by done.
    destruct (decide (kdml !! i = Some PIPE)) as [Hc|Hc].
    + rewrite (bool_decide_true _ Hc).
      by rewrite (bool_decide_true (Exists _ (i :: l)))
        by by apply Exists_cons_hd.
    + rewrite (bool_decide_false _ Hc). cbn [mbind outcome_bind]. rewrite IH.
      apply (f_equal (λ b : bool, if b then _ else _)), bool_decide_ext.
      split; [by right|]. by intros [?|?]%Exists_cons.
Qed.

Lemma entity_step_no_opener dic (kdml : pystr) (i : nat) st :
  (∀ c, c ∈ kdml → is_opener c = false) → (i < length kdml)%nat →
  if bool_decide (kdml !! i = Some PIPE)
  then entity_step (scan_fuel kdml) dic kdml st i = Raise IndexError
  else ∃ st', entity_step (scan_fuel kdml) dic kdml st i = Ret st'.
Proof.
  intros Hno Hi. unfold entity_step. rewrite py_index_nat.
  destruct (lookup_lt_is_Some_2 _ _ Hi) as [c Hc]. rewrite Hc.
  cbn [mbind outcome_bind]. case_bool_decide as Hbar.
  - injection Hbar as ->. change (is_marker PIPE) with false.
    change (PIPE =? PIPE)%N with true. cbv iota.
    by rewrite scan_start_no_opener by done.
  - destruct (is_marker c); [eauto|].
    destruct (N.eqb_spec c PIPE) as [->|Hne]; [done|eauto].
Qed.

Lemma entity_scan_no_opener dic (kdml : pystr) (l : list nat) st :
  (∀ c, c ∈ kdml → is_opener c = false) →
  Forall (λ i, (i < length kdml)%nat) l →
  Exists (λ i, kdml !! i = Some PIPE) l →
  for_each l (entity_step (scan_fuel kdml) dic kdml) st = Raise IndexError.
Proof.
  intros Hno Hl Hex. revert st.
  induction Hl as [|i l Hi _ IH]; intros st; [by apply Exists_nil in Hex|].
  cbn [for_each].
  pose proof (entity_step_no_opener dic kdml i st Hno Hi) as Hstep.
  destruct (decide (kdml !! i = Some PIPE)) as [Hbar|Hbar].
  - rewrite (bool_decide_true _ Hbar) in Hstep. by rewrite Hstep.
  - rewrite (bool_decide_false _ Hbar) in Hstep.
    destruct Hstep as [st' ->]. cbn [mbind outcome_bind]. apply IH.
    by apply Exists_cons in Hex as [Hex|Hex].
Qed.

Lemma Exists_bar_range (kdml : pystr) :
  PIPE ∈ kdml → Exists (λ i, kdml !! i = Some PIPE) (range (length kdml)).
Proof.
  intros (i & Hi)%list_elem_of_lookup_1. apply Exists_exists. exists i.
  split; [|done]. apply elem_of_seq. apply lookup_lt_Some in Hi. lia.
Qed.

(** X7: A definition with a vertical bar and without any opening delimiter
    makes both parsers raise [IndexError], whatever the registry holds. *)
Theorem bar_without_opening_delimiter dic sense ret :
  (PIPE ∈ Def sense → (∀ c, c ∈ Def sense → is_opener c = false) →
   _gen_sememe_list dic sense = Raise IndexError) ∧
  (PIPE ∈ first_clause (Def sense) →
   (∀ c, c ∈ first_clause (Def sense) → is_opener c = false) →
   _gen_sememe_tree dic sense ret = Raise IndexError).
Proof.
  split.
  - intros Hbar Hno. unfold _gen_sememe_list, gen_sememe_list_fuel.
    rewrite list_scan_no_opener; [|done|].
    + by rewrite bool_decide_true by by apply Exists_bar_range.
    + apply Forall_forall. intros i Hi%elem_of_seq. lia.
  - unfold first_clause, _gen_sememe_tree, gen_sememe_tree_fuel.
    destruct (py_split SEMI (strip_rmk (Def sense))) as [|kdml pieces];
      [by intros ?%elem_of_nil|].
    intros Hbar Hno. unfold parse_clause.
    rewrite entity_scan_no_opener; [done|done| |by apply Exists_bar_range].
    apply Forall_forall. intros i Hi%elem_of_seq. lia.
Qed.

(** ** Labels and triples *)

Lemma py_split_no_sep sep (s : pystr) : sep ∉ s → py_split sep s = [s].
Proof.
  induction s as [|x s IH]; intros H; simpl; [done|].
  apply not_elem_of_cons in H as [Hx Hs].
  destruct (N.eqb_spec x sep); [congruence|]. by rewrite IH.
Qed.

Lemma py_split_app_sep sep (a b : pystr) :
  sep ∉ a → py_split sep (a ++ sep :: b) = a :: py_split sep b.
Proof.
  induction a as [|x a IH]; intros H; simpl.
  - by rewrite N.eqb_refl.
  - apply not_elem_of_cons in H as [Hx Ha].
    destruct (N.eqb_spec x sep); [congruence|]. by rewrite IH.
Qed.

Lemma py_split_one sep (s c : pystr) :
  py_split sep s = [c] → s = c ∧ sep ∉ c.
Proof.
  revert c. induction s as [|x s IH]; intros c; simpl.
  - intros [= <-]. split; [done|apply not_elem_of_nil].
  - destruct (N.eqb_spec x sep) as [->|Hne].
    + intros [= _ H]. by apply py_split_nonempty in H.
    + destruct (py_split sep s) as [|p ps] eqn:E;
        [by apply py_split_nonempty in E|].
      intros [= <- ->]. destruct (IH p eq_refl) as [-> Hp].
      split; [done|]. by apply not_elem_of_cons.
Qed.

Lemma py_split_two sep (s e c : pystr) :
  py_split sep s = [e; c] → s = e ++ sep :: c ∧ (sep ∉ e) ∧ (sep ∉ c).
Proof.
  revert e. induction s as [|x s IH]; intros e; simpl; [done|].
  destruct (N.eqb_spec x sep) as [->|Hne].
  - intros [= <- H]. apply py_split_one in H as [-> Hc].
    split; [done|]. split; [apply not_elem_of_nil|done].
  - destruct (py_split sep s) as [|p ps] eqn:E;
      [by apply py_split_nonempty in E|].
    intros [= <- ->]. destruct (IH p eq_refl) as (-> & Hp & Hc).
    split; [done|]. split; [by apply not_elem_of_cons|done].
Qed.

Lemma Sememe_init_Ret (label : pystr) (fr : Z) (s : Sememe) :
  Sememe_init label fr = Ret s →
  ∃ e c, label = e ++ PIPE :: c ∧ (PIPE ∉ e) ∧ (PIPE ∉ c) ∧
         s = mkSememe e c label fr ∅ ∅ [].
Proof.
  unfold Sememe_init.
  destruct (py_split PIPE label) as [|e [|c [|? ?]]] eqn:E; try done.
  intros [= <-]. apply py_split_two in E as (-> & He & Hc). by exists e, c.
Qed.

(** X8: [Sememe.__init__] accepts exactly the labels with one vertical bar:
    the English and the Chinese part are what stands before and after
    it, the label itself is kept, and the new sememe has no relations
    and no senses; any other label raises [ValueError]. *)
Theorem Sememe_init_label (label : pystr) (fr : Z) :
  (∀ s, Sememe_init label fr = Ret s ↔
        ∃ e c, label = e ++ PIPE :: c ∧ (PIPE ∉ e) ∧ (PIPE ∉ c) ∧
               s = mkSememe e c label fr ∅ ∅ []) ∧
  (Sememe_init label fr = Raise ValueError ∨
   ∃ s, Sememe_init label fr = Ret s).
Proof.
  split.
  - intros s. split; [apply Sememe_init_Ret|].
    intros (e & c & -> & He & Hc & ->). unfold Sememe_init.
    by rewrite py_split_app_sep, py_split_no_sep.
  - unfold Sememe_init.
    destruct (py_split PIPE label) as [|e [|c [|? ?]]]; eauto.
Qed.

(** X9: One triple applied to a registry: without the head, [KeyError] of
    the head; with the head and without the tail, [KeyError] of the tail;
    otherwise the registry keeps its labels, and of every sememe only the
    forward map of the head and the backward map of the tail change, at
    the relation of the triple. *)
Theorem add_triple_outcome (dic : gmap (list N) Sememe) (h r t : pystr) :
  (dic !! h = None → add_triple dic (h, r, t) = Raise (KeyError h)) ∧
  (is_Some (dic !! h) → dic !! t = None →
   add_triple dic (h, r, t) = Raise (KeyError t)) ∧
  (∀ dic', add_triple dic (h, r, t) = Ret dic' →
     ∀ k, match dic !! k, dic' !! k with
          | Some s, Some s' =>
              en s' = en s ∧ ch s' = ch s ∧ en_ch s' = en_ch s ∧
              freq s' = freq s ∧ senses s' = senses s ∧
              related_sememes_forward s' =
                (if decide (k = h) then <[r := t]> (related_sememes_forward s)
                 else related_sememes_forward s) ∧
              related_sememes_backward s' =
                (if decide (k = t) then <[r := h]> (related_sememes_backward s)
                 else related_sememes_backward s)
          | None, None => True
          | _, _ => False
          end).
Proof.
  split; [|split].
  - intros Hh. unfold add_triple, registry_ref. by rewrite Hh.
  - intros [sh Hh] Ht. unfold add_triple, registry_ref. by rewrite Hh, Ht.
  - intros dic' H k. unfold add_triple in H.
    apply bind_Ret in H as (_ & _ & H). apply bind_Ret in H as (_ & _ & H).
    apply bind_Ret in H as (_ & _ & H). apply bind_Ret in H as (_ & _ & H).
    injection H as <-. rewrite !lookup_alter_fmap.
    destruct (dic !! k) as [s|]; simpl; [|done].
    destruct (decide (t = k)) as [->|Ht], (decide (h = k)) as [->|Hh]; simpl;
      repeat case_decide; try congruence; done.
Qed.

(** ** Lookups and queries *)

Lemma for_each_extend_with_sense (l res : list Sense) :
  for_each l extend_with_sense res =
    match l with [] => Ret res | _ :: _ => Raise TypeError end.
Proof. by destruct l. Qed.

(** X10: [__getitem__] returns only the senses found under the English and
    the Chinese form: it raises [TypeError] for the identifier of a sense
    and, once a sense is loaded, for the request of all senses. *)
Theorem getitem_outcomes (self : HowNetDict) (item : pystr) :
  (∀ l, getitem self item = Ret l ↔
        l = (if decide (item = I_WANT_ALL) then []
             else default [] (en_map self !! item)
                  ++ default [] (zh_map self !! item)) ∧
        (if decide (item = I_WANT_ALL) then sense_dic self = []
         else odict_get (sense_dic self) item = None)) ∧
  (getitem self item = Raise TypeError ∨ ∃ l, getitem self item = Ret l).
Proof.
  unfold getitem. destruct (decide (item = I_WANT_ALL)) as [->|Hne].
  - rewrite for_each_extend_with_sense.
    destruct (sense_dic self) as [|[k x] d]; simpl.
    + split; [|eauto]. intros l. split; [by intros [= <-]|by intros [-> _]].
    + split; [|eauto]. intros l. split; [done|by intros [_ ?]].
  - destruct (odict_get (sense_dic self) item) as [x|]; simpl.
    + split; [|eauto]. intros l. split; [done|by intros [_ ?]].
    + split; [|eauto]. intros l.
      destruct (en_map self !! item), (zh_map self !! item); simpl;
        rewrite ?app_nil_r; split; try (by intros [= <-]); by intros [-> _].
Qed.

Lemma trees_loop_merge dic ret cands log acc :
  trees_loop dic ret cands log (QSet acc) =
    (log ++ flat_map (λ item, [PrintFailed (No item);
                                PrintException AttributeError]) cands,
     QSet acc).
Proof.
  revert log. induction cands as [|item cands IH]; intros log; simpl.
  - by rewrite app_nil_r.
  - by rewrite IH, <- app_assoc.
Qed.

Lemma display_tree_modes display :
  display = str "dict" ∨ display = str "tree" →
  bool_decide (display = str "dict") || bool_decide (display = str "tree")
    = true.
Proof.
  intros [-> | ->]; [by rewrite bool_decide_true|].
  rewrite (bool_decide_true (str "tree" = str "tree")) by done.
  apply orb_true_r.
Qed.

(** X11: With [merge] the modes [dict] and [tree] build no tree at all: the
    result is a set, which has no [append], so every candidate is
    reported as failed with [AttributeError] and the empty set is
    returned. *)
Theorem merge_in_tree_modes_returns_nothing self word display layer K cands :
  query_candidates self word = Ret cands →
  display = str "dict" ∨ display = str "tree" →
  get_sememes_by_word self word display true layer K =
    (flat_map (λ item, [PrintFailed (No item);
                        PrintException AttributeError]) cands,
     Ret (QSet ∅)).
Proof.
  intros Hq Hd. unfold get_sememes_by_word.
  rewrite Hq, display_tree_modes by done.
  by rewrite trees_loop_merge.
Qed.

Lemma list_loop_all dic word layer cands xs log :
  Forall2 (λ s x, expand_sense dic s layer = Ret x) cands xs →
  (∀ l0, list_loop dic word layer cands log (QList l0)
         = (log, Ret (QList (l0 ++ zip_with QPair cands xs)))) ∧
  (∀ acc, list_loop dic word layer cands log (QSet acc)
          = (log, Ret (QSet (acc ∪ ⋃ xs)))).
Proof.
  induction 1 as [|s x cands xs Hs _ [IH1 IH2]]; split; intros a; simpl.
  - by rewrite app_nil_r.
  - by rewrite (right_id_L ∅ (∪)).
  - rewrite Hs, IH1. by rewrite <- app_assoc.
  - rewrite Hs, IH2. by rewrite (assoc_L (∪)).
Qed.

Lemma display_list_mode :
  bool_decide (str "list" = str "dict") || bool_decide (str "list" = str "tree")
    = false.
Proof. vm_compute. reflexivity. Qed.

(** X12: The mode [list] when every candidate can be expanded: nothing is
    printed; without [merge] the result pairs each candidate, in the
    order of the candidates, with its set of sememes, and with [merge]
    it is the union of these sets. *)
Theorem list_mode_pairs_or_union self word layer K cands xs :
  query_candidates self word = Ret cands →
  Forall2 (λ s x, expand_sense (sememe_dic self) s layer = Ret x) cands xs →
  get_sememes_by_word self word (str "list") false layer K
    = ([], Ret (QList (zip_with QPair cands xs))) ∧
  get_sememes_by_word self word (str "list") true layer K
    = ([], Ret (QSet (⋃ xs))).
Proof.
  intros Hq Hx. unfold get_sememes_by_word.
  rewrite Hq, display_list_mode, bool_decide_true by done.
  destruct (list_loop_all (sememe_dic self) word layer cands xs [] Hx)
    as [H1 H2].
  split; [by rewrite H1|]. rewrite H2. by rewrite (left_id_L ∅ (∪)).
Qed.

Lemma py_slice_take {A : Type} (s : list A) (k : Z) :
  0 ≤ k → py_slice s 0 k = take (Z.to_nat k) s.
Proof.
  intros Hk. destruct (Z.le_gt_cases k (Z.of_nat (length s))).
  - by apply py_slice_prefix.
  - unfold py_slice, slice_bound. simpl.
    destruct (Z.ltb_spec k 0); [lia|].
    destruct (Z.ltb_spec k 0); [lia|].
    destruct (Z.ltb_spec (Z.of_nat (length s)) k); [|lia].
    destruct (Z.ltb_spec (Z.of_nat (length s)) 0); [lia|].
    rewrite Z.sub_0_r, Nat2Z.id, drop_0.
    rewrite !take_ge; [done|lia..].
Qed.

Lemma visual_loop_all dic index cands ts log :
  Forall2 (λ s t, _gen_sememe_tree dic s true = Ret t) cands ts →
  visual_loop dic index cands log = (log ++ display_log index ts, Ret ()).
Proof.
  intros H. revert index log.
  induction H as [|s t cands ts Hs _ IH]; intros index log; simpl.
  - by rewrite app_nil_r.
  - rewrite Hs, IH. by rewrite <- app_assoc.
Qed.

Lemma visual_loop_raises dic index pre bad post ts e log :
  Forall2 (λ s t, _gen_sememe_tree dic s true = Ret t) pre ts →
  _gen_sememe_tree dic bad true = Raise e →
  visual_loop dic index (pre ++ bad :: post) log =
    (log ++ display_log index ts ++ [PrintDisplay (index + length pre)],
     Raise e).
Proof.
  intros H Hbad. revert index log.
  induction H as [|s t pre ts Hs _ IH]; intros index log; simpl.
  - rewrite Hbad. by rewrite Nat.add_0_r.
  - rewrite Hs, IH. rewrite <- app_assoc. simpl.
    by rewrite Nat.add_succ_r.
Qed.

Lemma display_visual_mode :
  bool_decide (str "visual" = str "dict")
  || bool_decide (str "visual" = str "tree") = false ∧
  bool_decide (str "visual" = str "list") = false.
Proof. split; vm_compute; reflexivity. Qed.

Lemma get_sememes_by_word_visual self word merge layer K cands :
  query_candidates self word = Ret cands →
  get_sememes_by_word self word (str "visual") merge layer K =
    (let '(log', r) := visual_loop (sememe_dic self) 0 (shown K cands)
                         [PrintFind (length cands)] in
     (log', _ ← r; Ret (empty_result merge))).
Proof.
  intros Hq. unfold get_sememes_by_word. rewrite Hq.
  destruct display_visual_mode as [-> ->]. rewrite bool_decide_true by done.
  unfold shown. destruct K as [k|]; [|done].
  destruct (Z.leb_spec 1 k); [|done]. by rewrite py_slice_take by lia.
Qed.

(** X13: The mode [visual] prints the number of candidates and then, for the
    first [K] candidates ([K] an integer of at least 1; all of them
    otherwise), the number of each and its tree; it returns the empty
    container.  An exception of the tree builder is not caught: the query
    ends at the candidate that raises, after its number is printed. *)
Theorem visual_mode_shows_first_K self word merge layer K cands :
  query_candidates self word = Ret cands →
  (∀ ts, Forall2 (λ s t, _gen_sememe_tree (sememe_dic self) s true = Ret t)
           (shown K cands) ts →
         get_sememes_by_word self word (str "visual") merge layer K =
           (PrintFind (length cands) :: display_log 0 ts,
            Ret (empty_result merge))) ∧
  (∀ pre bad post ts e,
     shown K cands = pre ++ bad :: post →
     Forall2 (λ s t, _gen_sememe_tree (sememe_dic self) s true = Ret t)
       pre ts →
     _gen_sememe_tree (sememe_dic self) bad true = Raise e →
     get_sememes_by_word self word (str "visual") merge layer K =
       (PrintFind (length cands) :: display_log 0 ts
          ++ [PrintDisplay (length pre)],
        Raise e)).
Proof.
  intros Hq. split.
  - intros ts Hts. rewrite (get_sememes_by_word_visual _ _ _ _ _ cands Hq).
    by rewrite (visual_loop_all _ _ _ ts).
  - intros pre bad post ts e Hs Hts Hbad.
    rewrite (get_sememes_by_word_visual _ _ _ _ _ cands Hq), Hs.
    by rewrite (visual_loop_raises _ _ _ _ _ ts e).
Qed.

Lemma has_false self word :
  has self word None = false →
  en_map self !! word = None ∧ zh_map self !! word = None ∧
  odict_get (sense_dic self) word = None.
Proof.
  unfold has. rewrite !decide_False by done.
  rewrite !orb_false_iff, !bool_decide_eq_false, <- !eq_None_not_Some.
  tauto.
Qed.

(** X14: A word that [has] does not find: the lookup returns the empty list
    and the query returns the empty container in every mode, printing
    nothing in the modes [dict], [tree] and [list]. *)
Theorem unknown_word_gives_empty_result self word :
  has self word None = false → word ≠ I_WANT_ALL →
  getitem self word = Ret [] ∧
  (∀ language, get self word language = Ret []) ∧
  ∀ display merge layer K,
    get_sememes_by_word self word display merge layer K =
      (if bool_decide (display = str "dict")
          || bool_decide (display = str "tree")
          || bool_decide (display = str "list") then []
       else if bool_decide (display = str "visual") then [PrintFind 0]
       else [PrintWrongMode display],
       Ret (empty_result merge)).
Proof.
  intros (Hen & Hzh & Hid)%has_false Hne.
  assert (getitem self word = Ret []) as Hget.
  { rewrite getitem_word by done. by rewrite Hen, Hzh. }
  split; [done|]. split.
  - intros language. unfold get. repeat case_decide; by rewrite ?Hen, ?Hzh.
  - intros display merge layer K. unfold get_sememes_by_word, query_candidates.
    rewrite Hget. cbn [mbind outcome_bind sort_by_No foldr].
    destruct (bool_decide (display = str "dict")
              || bool_decide (display = str "tree")); simpl.
    + by destruct merge.
    + destruct (bool_decide (display = str "list")); simpl;
        [by destruct merge|].
      destruct (bool_decide (display = str "visual")); [|done].
      assert (∀ k, py_slice (@nil Sense) 0 k = []) as Hs.
      { intros k. unfold py_slice. by rewrite drop_nil, take_nil. }
      destruct K as [k|]; [|done]. rewrite Hs. by destruct (1 <=? k).
Qed.

(** ** The lines of the triples file *)

Lemma lstrip_spaces (pre s : pystr) :
  Forall (λ c, is_space c = true) pre → lstrip (pre ++ s) = lstrip s.
Proof.
  induction 1 as [|c pre Hc _ IH]; simpl; [done|]. by rewrite Hc.
Qed.

Lemma lstrip_all_spaces (s : pystr) :
  Forall (λ c, is_space c = true) s → lstrip s = [].
Proof.
  intros H. rewrite <- (app_nil_r s). by rewrite lstrip_spaces.
Qed.

Lemma lstrip_head (c : N) (s : pystr) :
  is_space c = false → lstrip (c :: s) = c :: s.
Proof. intros H. simpl. by rewrite H. Qed.

Lemma py_strip_spaces (s : pystr) :
  Forall (λ c, is_space c = true) s → py_strip s = [].
Proof.
  intros H. unfold py_strip. by rewrite (lstrip_all_spaces s H).
Qed.

Lemma py_strip_core (pre post core : pystr) :
  Forall (λ c, is_space c = true) pre →
  Forall (λ c, is_space c = true) post →
  (∃ a s, core = a :: s ∧ is_space a = false) →
  (∃ s b, core = s ++ [b] ∧ is_space b = false) →
  py_strip (pre ++ core ++ post) = core.
Proof.
  intros Hpre Hpost (a & s & Ha & Hsa) (s' & b & Hb & Hsb).
  unfold py_strip. rewrite lstrip_spaces by done.
  rewrite Ha at 1. cbn [app]. rewrite lstrip_head by done.
  change (a :: s ++ post) with ((a :: s) ++ post). rewrite <- Ha.
  rewrite rev_app_distr, lstrip_spaces by by apply Forall_rev.
  rewrite Hb at 1. rewrite rev_app_distr. cbn [rev app].
  rewrite lstrip_head by done.
  change (b :: rev s') with (rev [b] ++ rev s').
  by rewrite <- rev_app_distr, rev_involutive, Hb.
Qed.

Lemma py_split_cons sep (s p : pystr) q ps :
  py_split sep s = p :: q :: ps →
  ∃ s', s = p ++ sep :: s' ∧ (sep ∉ p) ∧ py_split sep s' = q :: ps.
Proof.
  revert p. induction s as [|x s IH]; intros p; simpl; [done|].
  destruct (N.eqb_spec x sep) as [->|Hne].
  - intros [= <- H]. exists s. split; [done|].
    split; [apply not_elem_of_nil|done].
  - destruct (py_split sep s) as [|p' ps'] eqn:E;
      [by apply py_split_nonempty in E|].
    intros [= <- ->]. destruct (IH p' eq_refl) as (s' & -> & Hp & Hs).
    exists s'. split; [done|]. split; [by apply not_elem_of_cons|done].
Qed.

Lemma py_split_head sep (s p : pystr) ps :
  py_split sep s = p :: ps →
  (sep ∉ p) ∧ (ps = [] ∧ s = p ∨ ∃ s', s = p ++ sep :: s').
Proof.
  destruct ps as [|q ps].
  - intros [-> H]%py_split_one. split; [done|by left].
  - intros (s' & -> & Hp & _)%py_split_cons. split; [done|]. right. eauto.
Qed.

Lemma py_index_lookup {A : Type} (s : list A) (i : nat) (c : A) :
  s !! i = Some c → py_index s (Z.of_nat i) = Ret c.
Proof. intros H. by rewrite py_index_nat, H. Qed.

Lemma not_space_no_SPACE (s : pystr) :
  Forall (λ c, is_space c = false) s → SPACE ∉ s.
Proof.
  intros H Hin. rewrite Forall_forall in H. by apply H in Hin.
Qed.

Lemma add_triple_Raise dic line e :
  add_triple dic line = Raise e → ∃ k, e = KeyError k ∧ dic !! k = None.
Proof.
  destruct line as [[h r] t]. unfold add_triple.
  intros [H|(_ & _ & H)]%bind_Raise;
    [apply registry_ref_Raise in H as [-> ?]; eauto|].
  apply bind_Raise in H as [H|(_ & _ & H)];
    [apply registry_ref_Raise in H as [-> ?]; eauto|].
  apply bind_Raise in H as [H|(_ & _ & H)].
  { apply registry_ref_Raise in H as [-> H]. exists t. split; [done|].
    rewrite lookup_alter_fmap in H. by destruct (dic !! t). }
  apply bind_Raise in H as [H|(_ & _ & H)]; [|done].
  apply registry_ref_Raise in H as [-> H]. exists h. split; [done|].
  rewrite lookup_alter_fmap in H. by destruct (dic !! h).
Qed.

Lemma add_triple_not_Diverge dic line : add_triple dic line ≠ Diverge.
Proof.
  destruct line as [[h r] t]. unfold add_triple.
  repeat (apply bind_not_Diverge; [apply registry_ref_not_Diverge|intros ? _]).
  done.
Qed.

Lemma load_triple_fields dic (line h : pystr) rest :
  py_split SPACE (py_strip line) = h :: rest →
  (dic !! h = None → load_triple dic line = Raise (KeyError h)) ∧
  (is_Some (dic !! h) → (length rest < 2)%nat →
   load_triple dic line = Raise IndexError) ∧
  (∀ r t more, rest = r :: t :: more →
     parse_triple line = Ret (h, r, t) ∧
     load_triple dic line = add_triple dic (h, r, t)).
Proof.
  intros E. unfold load_triple, parse_triple, add_triple. rewrite E.
  rewrite (py_index_lookup _ 0%nat h) by done. cbn [mbind outcome_bind].
  split; [|split].
  - intros Hh. unfold registry_ref. by rewrite Hh.
  - intros [sh Hh] Hlen. unfold registry_ref. rewrite Hh.
    cbn [mbind outcome_bind].
    destruct rest as [|r [|t more]]; [done|done|simpl in Hlen; lia].
  - intros r t more ->.
    rewrite (py_index_lookup _ 1%nat r), (py_index_lookup _ 2%nat t) by done.
    cbn [mbind outcome_bind]. split; [done|].
    unfold registry_ref. destruct (dic !! h); [|done]. done.
Qed.

(** A line that the loader accepts names a triple, and the loader applies
    this triple. *)
Lemma load_triple_Ret dic line dic' :
  load_triple dic line = Ret dic' →
  ∃ x, parse_triple line = Ret x ∧ add_triple dic x = Ret dic'.
Proof.
  intros H.
  destruct (py_split SPACE (py_strip line)) as [|h rest] eqn:E;
    [by apply py_split_nonempty in E|].
  destruct (load_triple_fields dic line h rest E) as (H1 & H2 & H3).
  destruct (dic !! h) as [sh|] eqn:Eh; [|rewrite H1 in H; done].
  destruct rest as [|r [|t more]];
    [rewrite H2 in H by (eauto || (simpl; lia)); done..|].
  destruct (H3 r t more eq_refl) as [Hp Hl]. exists (h, r, t).
  split; [done|]. by rewrite <- Hl.
Qed.

Lemma load_triple_Raise dic line e :
  load_triple dic line = Raise e →
  e = IndexError ∨ ∃ k, e = KeyError k ∧ dic !! k = None.
Proof.
  intros H.
  destruct (py_split SPACE (py_strip line)) as [|h rest] eqn:E;
    [by apply py_split_nonempty in E|].
  destruct (load_triple_fields dic line h rest E) as (H1 & H2 & H3).
  destruct (dic !! h) as [sh|] eqn:Eh.
  - destruct rest as [|r [|t more]].
    + rewrite H2 in H by (eauto || (simpl; lia)). left. congruence.
    + rewrite H2 in H by (eauto || (simpl; lia)). left. congruence.
    + destruct (H3 r t more eq_refl) as [_ Hl]. rewrite Hl in H.
      right. by apply add_triple_Raise in H.
  - rewrite H1 in H by done. right. exists h. split; [congruence|done].
Qed.

Lemma load_triple_not_Diverge dic line : load_triple dic line ≠ Diverge.
Proof.
  destruct (py_split SPACE (py_strip line)) as [|h rest] eqn:E;
    [by apply py_split_nonempty in E|].
  destruct (load_triple_fields dic line h rest E) as (H1 & H2 & H3).
  destruct (dic !! h) as [sh|] eqn:Eh; [|by rewrite H1].
  destruct rest as [|r [|t more]];
    [by rewrite H2 by (eauto || (simpl; lia))..|].
  destruct (H3 r t more eq_refl) as [_ ->]. apply add_triple_not_Diverge.
Qed.

(** X15: One line of the triples file in the loader.  A line made of head,
    relation and tail between single spaces, with white space around it,
    is applied as this triple.  The head is looked up first: a line whose
    first field is not registered raises [KeyError] of that field,
    however many fields it has, so a blank line raises [KeyError] of the
    empty string; with the first field registered, a line with fewer than
    three fields raises [IndexError]; with three fields or more the first
    three are applied as a triple and the others ignored. *)
Theorem load_triple_outcome dic (line : pystr) :
  (∀ pre post h r t,
     line = pre ++ (h ++ SPACE :: r ++ SPACE :: t) ++ post →
     Forall (λ c, is_space c = true) pre →
     Forall (λ c, is_space c = true) post →
     h ≠ [] → t ≠ [] →
     Forall (λ c, is_space c = false) h →
     SPACE ∉ r →
     Forall (λ c, is_space c = false) t →
     load_triple dic line = add_triple dic (h, r, t)) ∧
  (∃ h rest,
     py_split SPACE (py_strip line) = h :: rest ∧
     (dic !! h = None → load_triple dic line = Raise (KeyError h)) ∧
     (is_Some (dic !! h) → (length rest < 2)%nat →
      load_triple dic line = Raise IndexError) ∧
     (∀ r t more, rest = r :: t :: more →
        load_triple dic line = add_triple dic (h, r, t))) ∧
  (Forall (λ c, is_space c = true) line → dic !! [] = None →
   load_triple dic line = Raise (KeyError [])).
Proof.
  split; [|split].
  - intros pre post h r t -> Hpre Hpost Hh Ht Hhs Hr Hts.
    assert (py_split SPACE
              (py_strip (pre ++ (h ++ SPACE :: r ++ SPACE :: t) ++ post))
            = [h; r; t]) as E.
    { rewrite py_strip_core; [|done..| |].
      - rewrite py_split_app_sep by by apply not_space_no_SPACE.
        rewrite py_split_app_sep by done.
        by rewrite py_split_no_sep by by apply not_space_no_SPACE.
      - destruct h as [|a h]; [done|].
        exists a, (h ++ SPACE :: r ++ SPACE :: t).
        split; [done|]. by apply Forall_cons in Hhs as [? _].
      - destruct t as [|b t' _] using rev_ind; [done|].
        exists (h ++ SPACE :: r ++ SPACE :: t'), b. split.
        + by rewrite <- !app_assoc, <- !app_comm_cons, <- !app_assoc.
        + apply Forall_app in Hts as [_ Hb].
          by apply Forall_cons in Hb as [? _]. }
    by destruct (load_triple_fields dic _ _ _ E) as (_ & _ & H3);
      destruct (H3 r t [] eq_refl).
  - destruct (py_split SPACE (py_strip line)) as [|h rest] eqn:E;
      [by apply py_split_nonempty in E|].
    exists h, rest. split; [done|].
    destruct (load_triple_fields dic line h rest E) as (H1 & H2 & H3).
    split; [done|]. split; [done|].
    intros r t more Hr. by destruct (H3 r t more Hr).
  - intros Hs Hd.
    assert (py_split SPACE (py_strip line) = [[]]) as E
      by by rewrite py_strip_spaces.
    destruct (load_triple_fields dic line [] [] E) as (H1 & _). by apply H1.
Qed.

(** ** The loader *)

Lemma preserves_refl R `{!Reflexive R} d : preserves R d d.
Proof. intros k. destruct (d !! k); by constructor. Qed.

Lemma preserves_trans R `{!Transitive R} d1 d2 d3 :
  preserves R d1 d2 → preserves R d2 d3 → preserves R d1 d3.
Proof.
  intros H1 H2 k. specialize (H1 k). specialize (H2 k).
  destruct H1 as [s1 s2 H1|]; inversion H2; subst; constructor.
  by etrans.
Qed.

Lemma preserves_dom R d d' k :
  preserves R d d' → is_Some (d' !! k) ↔ is_Some (d !! k).
Proof. intros H. destruct (H k); split; eauto; by intros [? ?]. Qed.

Lemma preserves_lookup R d d' k s' :
  preserves R d d' → d' !! k = Some s' → ∃ s, d !! k = Some s ∧ R s s'.
Proof.
  intros H Hk. specialize (H k). rewrite Hk in H. inversion H; subst. eauto.
Qed.

Lemma preserves_alter R `{!Reflexive R} f k d :
  (∀ s, R s (f s)) → preserves R d (alter f k d).
Proof.
  intros Hf j. rewrite lookup_alter_fmap.
  destruct (d !! j) as [s|]; simpl; constructor. by case_decide.
Qed.

Lemma preserves_foldl_alter R `{!Reflexive R, !Transitive R} f l d :
  (∀ s, R s (f s)) →
  preserves R d (foldl (λ dic s, alter f s dic) d l).
Proof.
  intros Hf. revert d. induction l as [|x l IH]; intros d; simpl.
  - by apply preserves_refl.
  - eapply preserves_trans; [done| |apply IH]. by apply preserves_alter.
Qed.

Lemma for_each_preserves {A S : Type} (proj : S → gmap (list N) Sememe)
    R `{!Reflexive R, !Transitive R}
    (l : list A) (body : S → A → outcome S) s s' :
  (∀ s1 x s2, x ∈ l → body s1 x = Ret s2 → preserves R (proj s1) (proj s2)) →
  for_each l body s = Ret s' → preserves R (proj s) (proj s').
Proof.
  revert s. induction l as [|x l IH]; intros s Hb; simpl.
  - intros [= <-]. by apply preserves_refl.
  - intros (s1 & H1 & H2)%bind_Ret.
    eapply preserves_trans; [done|eapply Hb; [left|done]|].
    apply IH; [|done]. intros s3 y s4 Hy. apply Hb. by right.
Qed.

#[local] Instance same_labels_refl : Reflexive same_labels.
Proof. by intros s. Qed.

#[local] Instance same_labels_trans : Transitive same_labels.
Proof. intros s1 s2 s3 (?&?&?&?) (?&?&?&?). repeat split; congruence. Qed.

#[local] Instance same_senses_refl : Reflexive same_senses.
Proof. by intros s. Qed.

#[local] Instance same_senses_trans : Transitive same_senses.
Proof. intros s1 s2 s3 [? ?] [? ?]. split; [by etrans|congruence]. Qed.

#[local] Instance same_relations_refl : Reflexive same_relations.
Proof. by intros s. Qed.

#[local] Instance same_relations_trans : Transitive same_relations.
Proof.
  intros s1 s2 s3 (?&?&?) (?&?&?). split; [by etrans|split; congruence].
Qed.

Lemma add_triple_same_senses dic line dic' :
  add_triple dic line = Ret dic' → preserves same_senses dic dic'.
Proof.
  destruct line as [[h r] t]. unfold add_triple.
  intros (_ & _ & H)%bind_Ret. apply bind_Ret in H as (_ & _ & H).
  apply bind_Ret in H as (_ & _ & H). apply bind_Ret in H as (_ & _ & H).
  injection H as <-.
  eapply (preserves_trans _); by apply (preserves_alter _).
Qed.

Lemma load_sense_same_relations st kv st' :
  load_sense st kv = Ret st' → preserves same_relations st.1 st'.1.
Proof.
  destruct st as [dic sd], kv as [k v]. unfold load_sense.
  intros (l & _ & [= <-])%bind_Ret. simpl.
  by apply (preserves_foldl_alter _).
Qed.

Lemma labelled_mono all all' k s :
  (∀ x, x ∈ all → x ∈ all') → labelled all k s → labelled all' k s.
Proof. intros Hsub (?&?&?&?&?). repeat split; auto. Qed.

Lemma labelled_same_labels all k s s' :
  same_labels s s' → labelled all k s → labelled all k s'.
Proof.
  intros (He & Hc & Hec & Hf) (?&?&?&?&?). unfold labelled.
  rewrite He, Hc, Hec, Hf. done.
Qed.

(** The loop over [sememe_all]. *)
Lemma load_sememes_spec (all : list (list N * Z)) dic0 :
  for_each all (λ dic kv, s ← Sememe_init kv.1 kv.2; Ret (<[kv.1 := s]> dic))
    (∅ : gmap (list N) Sememe) = Ret dic0 →
  (∀ k, is_Some (dic0 !! k) ↔ k ∈ all.*1) ∧
  ∀ k s, dic0 !! k = Some s →
         labelled all k s ∧ related_sememes_forward s = ∅ ∧
         related_sememes_backward s = ∅ ∧ senses s = [].
Proof.
  intros H.
  apply (for_each_invariant
           (λ pre dic, (∀ k, is_Some (dic !! k) ↔ k ∈ pre.*1) ∧
                       ∀ k s, dic !! k = Some s →
                              labelled pre k s ∧
                              related_sememes_forward s = ∅ ∧
                              related_sememes_backward s = ∅ ∧
                              senses s = [])) in H; [done| |].
  - split.
    + intros k. rewrite lookup_empty. split; [by intros [? ?]|].
      by intros ?%elem_of_nil.
    + intros k s. by rewrite lookup_empty.
  - intros pre [k0 f0] post d1 d2 _ [Hdom Hl] Hb. simpl in Hb.
    apply bind_Ret in Hb as (s0 & Hs0 & [= <-]).
    apply Sememe_init_Ret in Hs0 as (e & c & -> & He & Hc & ->).
    split.
    + intros k. rewrite fmap_app, elem_of_app. simpl.
      rewrite list_elem_of_singleton.
      destruct (decide (e ++ PIPE :: c = k)) as [<-|Hne].
      * rewrite lookup_insert_eq. split; eauto.
      * rewrite lookup_insert_ne by done. rewrite Hdom.
        split; [by left|]. intros [?|?]; [done|congruence].
    + intros k s. destruct (decide (e ++ PIPE :: c = k)) as [<-|Hne].
      * rewrite lookup_insert_eq. intros [= <-]. split; [|done].
        repeat split; try done. simpl. apply elem_of_app. right. by left.
      * rewrite lookup_insert_ne by done. intros Hk.
        destruct (Hl k s Hk) as (Hlab & ?). split; [|done].
        eapply labelled_mono; [|done]. intros x Hx. apply elem_of_app.
        by left.
Qed.

Lemma load_triples_same_senses (lines : list pystr) dic0 dic1 :
  for_each lines load_triple dic0 = Ret dic1 →
  preserves same_senses dic0 dic1.
Proof.
  apply (for_each_preserves id _).
  intros d1 line d2 _ (t & _ & H)%load_triple_Ret.
  by eapply add_triple_same_senses.
Qed.

Lemma load_senses_same_relations (items : list (list N * hownet_item)) st st' :
  for_each items load_sense st = Ret st' →
  preserves same_relations st.1 st'.1.
Proof.
  apply (for_each_preserves fst _).
  intros s1 x s2 _. apply load_sense_same_relations.
Qed.

(** The three loops of a successful load. *)
Lemma HowNetDict_init_Ret all triples items kb :
  HowNetDict_init all triples items = Ret kb →
  ∃ dic0 dic1,
    for_each all (λ dic kv, s ← Sememe_init kv.1 kv.2; Ret (<[kv.1 := s]> dic))
      (∅ : gmap (list N) Sememe) = Ret dic0 ∧
    for_each triples load_triple dic0 = Ret dic1 ∧
    for_each items load_sense (dic1, []) = Ret (sememe_dic kb, sense_dic kb) ∧
    en_map kb = (foldl index_sense (∅, ∅) (sense_dic kb).*2).1 ∧
    zh_map kb = (foldl index_sense (∅, ∅) (sense_dic kb).*2).2.
Proof.
  unfold HowNetDict_init. intros (dic0 & H0 & H)%bind_Ret.
  apply bind_Ret in H as (dic1 & H1 & H).
  apply bind_Ret in H as ([dic2 sd] & H2 & [= <-]). simpl.
  by exists dic0, dic1.
Qed.

(** X16: After a successful load the keys of the registry are the labels of
    [sememe_all], and the sememe under a label carries the label, its
    two parts around the vertical bar, and a frequency given to the
    label. *)
Theorem loaded_registry_labels all triples items kb :
  HowNetDict_init all triples items = Ret kb →
  (∀ k, is_Some (sememe_dic kb !! k) ↔ k ∈ all.*1) ∧
  (∀ k s, sememe_dic kb !! k = Some s → labelled all k s).
Proof.
  intros (dic0 & dic1 & H0 & H1 & H2 & _)%HowNetDict_init_Ret.
  apply load_sememes_spec in H0 as [Hdom Hl].
  apply load_triples_same_senses in H1.
  apply load_senses_same_relations in H2. simpl in H2.
  split.
  - intros k. by rewrite (preserves_dom _ _ _ k H2), (preserves_dom _ _ _ k H1).
  - intros k s Hk.
    destruct (preserves_lookup _ _ _ _ _ H2 Hk) as (s1 & Hk1 & Hs1 & _).
    destruct (preserves_lookup _ _ _ _ _ H1 Hk1) as (s0 & Hk0 & Hs0 & _).
    destruct (Hl k s0 Hk0) as [Hlab _].
    eapply labelled_same_labels; [|eapply labelled_same_labels]; done.
Qed.

(** A loop whose body writes the value [val x] under the key [sel x] of a
    map read by [obs], [x] being what [parse] makes of the element: the
    map holds, for each key, the value of the last element with this
    key. *)
Lemma last_write_spec {A S T K V : Type} `{EqDecision K}
    (parse : A → outcome T) (body : S → A → outcome S)
    (sel : T → K) (val : T → V) (obs : S → K → option V)
    (lines : list A) (s0 s1 : S) :
  (∀ k, obs s0 k = None) →
  (∀ s line s', body s line = Ret s' →
     ∃ x, parse line = Ret x ∧
          ∀ k, obs s' k = if decide (sel x = k) then Some (val x)
                          else obs s k) →
  for_each lines body s0 = Ret s1 →
  ∀ k v, obs s1 k = Some v ↔
         ∃ pre line post x,
           lines = pre ++ line :: post ∧ parse line = Ret x ∧
           sel x = k ∧ val x = v ∧
           ∀ line' y, line' ∈ post → parse line' = Ret y → sel y ≠ k.
Proof.
  intros H0 Hbody.
  apply (for_each_invariant
           (λ done s, ∀ k v, obs s k = Some v ↔
              ∃ pre line post x,
                done = pre ++ line :: post ∧ parse line = Ret x ∧
                sel x = k ∧ val x = v ∧
                ∀ line' y, line' ∈ post → parse line' = Ret y → sel y ≠ k)
           lines body s0 s1).
  - intros k v. rewrite H0. split; [done|].
    intros (pre & line & post & x & Hnil & _). by destruct pre.
  - intros done line rest s s' _ IH Hb k v.
    destruct (Hbody _ _ _ Hb) as (x & Hx & Hobs). rewrite Hobs.
    destruct (decide (sel x = k)) as [Hk|Hk].
    + split.
      * intros [= <-]. exists done, line, [], x.
        repeat (split; [done|]). by intros ? ? ?%elem_of_nil.
      * intros (pre & line0 & post & x0 & Hsplit & Hx0 & Hk0 & Hv0 & Hlast).
        destruct post as [|p post _] using rev_ind.
        -- apply app_inj_tail in Hsplit as [_ <-]. congruence.
        -- rewrite app_comm_cons, app_assoc in Hsplit.
           apply app_inj_tail in Hsplit as [_ <-].
           exfalso. apply (Hlast line x); [|done..].
           apply elem_of_app. right. by left.
    + rewrite IH. split.
      * intros (pre & line0 & post & x0 & -> & Hx0 & Hk0 & Hv0 & Hlast).
        exists pre, line0, (post ++ [line]), x0.
        rewrite <- app_assoc. repeat (split; [done|]).
        intros line' y [Hin|Hin%list_elem_of_singleton]%elem_of_app Hy.
        -- by eapply Hlast.
        -- subst line'. congruence.
      * intros (pre & line0 & post & x0 & Hsplit & Hx0 & Hk0 & Hv0 & Hlast).
        destruct post as [|p post _] using rev_ind.
        -- apply app_inj_tail in Hsplit as [_ <-]. congruence.
        -- rewrite app_comm_cons, app_assoc in Hsplit.
           apply app_inj_tail in Hsplit as [-> <-].
           exists pre, line0, post, x0. repeat (split; [done|]).
           intros line' y Hin. apply Hlast. apply elem_of_app. by left.
Qed.

Lemma load_triple_forward dic line dic' :
  load_triple dic line = Ret dic' →
  ∃ x, parse_triple line = Ret x ∧
       ∀ k : list N * list N,
         forward dic' k.1 k.2 =
           if decide ((x.1.1, x.1.2) = k) then Some x.2
           else forward dic k.1 k.2.
Proof.
  intros ([[h r] t] & Hp & Ha)%load_triple_Ret. exists (h, r, t).
  split; [done|].
  intros [h0 r0]. simpl.
  assert (is_Some (dic !! h)) as Hh.
  { unfold add_triple, registry_ref in Ha. by destruct (dic !! h). }
  rewrite (add_triple_forward _ _ _ _ _ _ _ Hh Ha).
  destruct (decide (h = h0 ∧ r = r0)) as [[-> ->]|Hne].
  - by rewrite decide_True.
  - rewrite decide_False; [done|]. intros [= -> ->]. by apply Hne.
Qed.

Lemma load_triple_backward dic line dic' :
  load_triple dic line = Ret dic' →
  ∃ x, parse_triple line = Ret x ∧
       ∀ k : list N * list N,
         backward dic' k.1 k.2 =
           if decide ((x.2, x.1.2) = k) then Some x.1.1
           else backward dic k.1 k.2.
Proof.
  intros ([[h r] t] & Hp & Ha)%load_triple_Ret. exists (h, r, t).
  split; [done|].
  intros [t0 r0]. simpl.
  assert (is_Some (dic !! t)) as Ht.
  { unfold add_triple, registry_ref in Ha.
    destruct (dic !! h); [|done]. by destruct (dic !! t). }
  rewrite (add_triple_backward _ _ _ _ _ _ _ Ht Ha).
  destruct (decide (t = t0 ∧ r = r0)) as [[-> ->]|Hne].
  - by rewrite decide_True.
  - rewrite decide_False; [done|]. intros [= -> ->]. by apply Hne.
Qed.

Lemma same_relations_forward d d' h r :
  preserves same_relations d d' → forward d' h r = forward d h r.
Proof.
  intros H. unfold forward. destruct (H h) as [s s' (_ & Hf & _)|]; [|done].
  simpl. by rewrite Hf.
Qed.

Lemma same_relations_backward d d' t r :
  preserves same_relations d d' → backward d' t r = backward d t r.
Proof.
  intros H. unfold backward. destruct (H t) as [s s' (_ & _ & Hb)|]; [|done].
  simpl. by rewrite Hb.
Qed.

(** X17: The relations of a loaded knowledge base are those of the lines of
    the triples file, the last line winning: [forward(h, r)] is the tail
    of the last line with head [h] and relation [r], and [backward(t, r)]
    the head of the last line with tail [t] and relation [r]; loading
    the senses changes none of them. *)
Theorem loaded_relations_last_line all triples items kb h r t :
  HowNetDict_init all triples items = Ret kb →
  (forward (sememe_dic kb) h r = Some t ↔
   ∃ pre line post,
     triples = pre ++ line :: post ∧ parse_triple line = Ret (h, r, t) ∧
     ∀ line' t', line' ∈ post → parse_triple line' ≠ Ret (h, r, t')) ∧
  (backward (sememe_dic kb) t r = Some h ↔
   ∃ pre line post,
     triples = pre ++ line :: post ∧ parse_triple line = Ret (h, r, t) ∧
     ∀ line' h', line' ∈ post → parse_triple line' ≠ Ret (h', r, t)).
Proof.
  intros (dic0 & dic1 & H0 & H1 & H2 & _)%HowNetDict_init_Ret.
  apply load_sememes_spec in H0 as [_ Hl].
  apply load_senses_same_relations in H2. simpl in H2.
  split.
  - rewrite (same_relations_forward _ _ _ _ H2).
    assert (∀ k : list N * list N, forward dic0 k.1 k.2 = None) as Hinit.
    { intros [h0 r0]. unfold forward. simpl.
      destruct (dic0 !! h0) as [s|] eqn:E; [|done]. simpl.
      destruct (Hl _ _ E) as (_ & -> & _). apply lookup_empty. }
    rewrite (last_write_spec parse_triple load_triple
               (λ x, (x.1.1, x.1.2)) (λ x, x.2)
               (λ d k, forward d k.1 k.2) triples dic0 dic1
               Hinit load_triple_forward H1 (h, r) t).
    split.
    + intros (pre & line & post & [[h0 r0] t0] & -> & Hp & [= -> ->] & Ht
              & Hlast). simpl in Ht. subst t0.
      exists pre, line, post. repeat (split; [done|]).
      intros line' t' Hin Hp'. by apply (Hlast line' (h, r, t')).
    + intros (pre & line & post & -> & Hp & Hlast).
      exists pre, line, post, (h, r, t). repeat (split; [done|]).
      intros line' [[h0 r0] t0] Hin Hp' [= -> ->]. by eapply Hlast.
  - rewrite (same_relations_backward _ _ _ _ H2).
    assert (∀ k : list N * list N, backward dic0 k.1 k.2 = None) as Hinit.
    { intros [t0 r0]. unfold backward. simpl.
      destruct (dic0 !! t0) as [s|] eqn:E; [|done]. simpl.
      destruct (Hl _ _ E) as (_ & _ & -> & _). apply lookup_empty. }
    rewrite (last_write_spec parse_triple load_triple
               (λ x, (x.2, x.1.2)) (λ x, x.1.1)
               (λ d k, backward d k.1 k.2) triples dic0 dic1
               Hinit load_triple_backward H1 (t, r) h).
    split.
    + intros (pre & line & post & [[h0 r0] t0] & -> & Hp & [= -> ->] & Hh
              & Hlast). simpl in Hh. subst h0.
      exists pre, line, post. repeat (split; [done|]).
      intros line' h' Hin Hp'. by apply (Hlast line' (h', r, t)).
    + intros (pre & line & post & -> & Hp & Hlast).
      exists pre, line, post, (h, r, t). repeat (split; [done|]).
      intros line' [[h0 r0] t0] Hin Hp' [= -> ->]. by eapply Hlast.
Qed.

(** The flattening pass reads the keys of the registry only. *)
Lemma gen_sememe_list_dom d1 d2 sense :
  (∀ k, is_Some (d1 !! k) ↔ is_Some (d2 !! k)) →
  _gen_sememe_list d1 sense = _gen_sememe_list d2 sense.
Proof.
  intros Hdom. unfold _gen_sememe_list, gen_sememe_list_fuel.
  apply for_each_ext. intros res i _. unfold list_step.
  destruct (py_index (Def sense) (Z.of_nat i)) as [c| |]; simpl; [|done..].
  destruct (c =? PIPE)%N; [|done].
  destruct (scan_start _ _ _) as [a| |]; simpl; [|done..].
  destruct (scan_end _ _ _) as [b| |]; simpl; [|done..].
  unfold registry_ref. specialize (Hdom (py_slice (Def sense) (a + 1) b)).
  destruct (d1 !! _) as [s1|], (d2 !! _) as [s2|]; try done.
  - destruct Hdom as [[? ?] _]; [eauto|done].
  - destruct Hdom as [_ [? ?]]; [eauto|done].
Qed.

Lemma odict_set_fresh {V : Type} (d : list (list N * V)) k v :
  k ∉ d.*1 → odict_set d k v = d ++ [(k, v)].
Proof.
  induction d as [|[k' v'] d IH]; simpl; [done|].
  intros [Hk Hd]%not_elem_of_cons. rewrite decide_False by done.
  by rewrite IH.
Qed.

Lemma iter_append_sense n x s :
  same_relations s (Nat.iter n (append_sense x) s) ∧
  senses (Nat.iter n (append_sense x) s) = senses s ++ replicate n x.
Proof.
  induction n as [|n [IH1 IH2]]; simpl.
  - split; [done|by rewrite app_nil_r].
  - split; [by destruct IH1 as ((?&?&?&?)&?&?)|].
    rewrite IH2, <- app_assoc. f_equal.
    change [x] with (replicate 1 x). rewrite <- replicate_add.
    by rewrite Nat.add_1_r.
Qed.

Lemma foldl_alter_lookup {A : Type} (f : A → A) (l : list (list N))
    (d : gmap (list N) A) k :
  foldl (λ dic s, alter f s dic) d l !! k =
    Nat.iter (occurrences k l) f <$> d !! k.
Proof.
  unfold occurrences. revert d. induction l as [|x l IH]; intros d; simpl.
  - by destruct (d !! k).
  - rewrite IH, lookup_alter_fmap. rewrite filter_cons.
    destruct (decide (x = k)) as [->|Hne]; simpl.
    + destruct (d !! k) as [s|]; simpl; [|done]. f_equal.
      first [apply Nat.iter_succ_r|symmetry; apply Nat.iter_succ_r].
    + by destruct (d !! k).
Qed.

(** The loop over the entries of the dictionary file. *)
Lemma load_senses_spec (items : list (list N * hownet_item)) dic1 dic2 sd :
  NoDup items.*1 →
  for_each items load_sense (dic1, []) = Ret (dic2, sd) →
  Forall2 (λ kv ks,
             ks.1 = kv.1 ∧
             ks.2 = set_sememes (sememes ks.2) (Sense_init kv.2) ∧
             _gen_sememe_list dic1 (Sense_init kv.2) = Ret (sememes ks.2))
    items sd ∧
  ∀ k s, dic2 !! k = Some s →
         ∃ s1, dic1 !! k = Some s1 ∧
               senses s = senses s1 ++
                 flat_map (λ x, replicate (occurrences k (sememes x)) x)
                   sd.*2.
Proof.
  intros Hnd H.
  pose proof (for_each_invariant
    (λ pre st,
       preserves same_relations dic1 st.1 ∧
       Forall2 (λ kv ks,
                  ks.1 = kv.1 ∧
                  ks.2 = set_sememes (sememes ks.2) (Sense_init kv.2) ∧
                  _gen_sememe_list dic1 (Sense_init kv.2)
                    = Ret (sememes ks.2)) pre st.2 ∧
       ∀ k s, st.1 !! k = Some s →
              ∃ s1, dic1 !! k = Some s1 ∧
                    senses s = senses s1 ++
                      flat_map (λ x, replicate (occurrences k (sememes x)) x)
                        st.2.*2)
    items load_sense (dic1, []) (dic2, sd)) as Hinv.
  destruct Hinv as (_ & H1 & H2); [| |done|by split].
  - simpl. split; [by apply (preserves_refl _)|]. split; [constructor|].
    intros k s Hk. exists s. by rewrite app_nil_r.
  - intros pre [k0 v] post [d sd0] st2 Hsplit (Hp & Hf & Hs) Hb.
    pose proof Hb as Hb'. apply load_sense_same_relations in Hb'.
    simpl in Hb, Hp, Hf, Hs, Hb'.
    apply bind_Ret in Hb as (l & Hl & [= <-]). simpl.
    assert (k0 ∉ sd0.*1) as Hfresh.
    { assert (sd0.*1 = pre.*1) as ->.
      { clear -Hf. induction Hf as [|kv ks pre sd0 (Hk & _) _ IH]; [done|].
        rewrite !fmap_cons. by f_equal. }
      rewrite Hsplit, fmap_app in Hnd. apply NoDup_app in Hnd as (_ & Hnd & _).
      intros Hin. apply (Hnd k0 Hin). simpl. by left. }
    rewrite odict_set_fresh by done.
    split; [by eapply (preserves_trans _)|]. split.
    + apply Forall2_app; [done|]. constructor; [|constructor].
      simpl. split; [done|]. split; [done|].
      rewrite <- Hl. apply gen_sememe_list_dom.
      intros k. symmetry. by apply (preserves_dom same_relations).
    + intros k s. rewrite foldl_alter_lookup.
      destruct (d !! k) as [s0|] eqn:E; [|done]. simpl. intros [= <-].
      destruct (Hs k s0 E) as (s1 & Hk1 & Hs1). exists s1. split; [done|].
      rewrite (proj2 (iter_append_sense _ _ _)), Hs1.
      rewrite fmap_app, flat_map_app, <- app_assoc. simpl.
      by rewrite app_nil_r.
Qed.

(** X18: The senses of a loaded knowledge base, the keys of the dictionary
    file being distinct: one sense per entry, in the order of the file,
    under the key of the entry; it has the fields of the entry, and its
    list of sememes is the flattening of its definition over the loaded
    registry.  [len] is the number of entries. *)
Theorem loaded_senses_flattened all triples items kb :
  HowNetDict_init all triples items = Ret kb →
  NoDup items.*1 →
  Forall2 (λ kv ks,
             ks.1 = kv.1 ∧
             ks.2 = set_sememes (sememes ks.2) (Sense_init kv.2) ∧
             _gen_sememe_list (sememe_dic kb) (Sense_init kv.2)
               = Ret (sememes ks.2))
    items (sense_dic kb) ∧
  HowNetDict_len kb = length items.
Proof.
  intros (dic0 & dic1 & H0 & H1 & H2 & _)%HowNetDict_init_Ret Hnd.
  pose proof (load_senses_same_relations _ _ _ H2) as Hp. simpl in Hp.
  apply load_senses_spec in H2 as [Hf _]; [|done].
  split; [|unfold HowNetDict_len; symmetry; by eapply Forall2_length].
  eapply Forall2_impl; [done|]. intros kv ks (Hk & Hx & Hl).
  split; [done|]. split; [done|]. rewrite <- Hl.
  apply gen_sememe_list_dom. intros k. by apply (preserves_dom same_relations).
Qed.

(** X19: The back references of a loaded knowledge base, the keys of the
    dictionary file being distinct: the list [senses] of a sememe holds
    the loaded senses in the order of the file, each once per occurrence
    of the sememe in its list of sememes; and every sememe of a loaded
    sense is registered. *)
Theorem loaded_back_references all triples items kb :
  HowNetDict_init all triples items = Ret kb →
  NoDup items.*1 →
  (∀ k s, sememe_dic kb !! k = Some s →
     senses s = flat_map (λ x, replicate (occurrences k (sememes x)) x)
                  (sense_dic kb).*2) ∧
  (∀ k s x, sememe_dic kb !! k = Some s →
     x ∈ senses s ↔ x ∈ (sense_dic kb).*2 ∧ k ∈ sememes x) ∧
  (∀ x k, x ∈ (sense_dic kb).*2 → k ∈ sememes x →
     is_Some (sememe_dic kb !! k)).
Proof.
  intros (dic0 & dic1 & H0 & H1 & H2 & _)%HowNetDict_init_Ret Hnd.
  pose proof (load_senses_same_relations _ _ _ H2) as Hp. simpl in Hp.
  apply load_sememes_spec in H0 as [_ Hl].
  apply load_triples_same_senses in H1.
  apply load_senses_spec in H2 as [Hf Hs]; [|done].
  assert (∀ k s, sememe_dic kb !! k = Some s →
            senses s = flat_map (λ x, replicate (occurrences k (sememes x)) x)
                         (sense_dic kb).*2) as Hall.
  { intros k s Hk. destruct (Hs k s Hk) as (s1 & Hk1 & ->).
    destruct (preserves_lookup _ _ _ _ _ H1 Hk1) as (s0 & Hk0 & _ & ->).
    by destruct (Hl k s0 Hk0) as (_ & _ & _ & ->). }
  split; [done|]. split.
  - intros k s x Hk. rewrite (Hall k s Hk), elem_of_flat_map.
    split.
    + intros (y & Hin & Hy). apply elem_of_replicate in Hy as [Hxy Hn].
      subst y.
      split; [done|]. unfold occurrences in Hn.
      destruct (filter (λ s, s = k) (sememes x)) as [|z zs] eqn:E; [done|].
      assert (z ∈ filter (λ s, s = k) (sememes x)) as Hz by (rewrite E; left).
      by apply list_elem_of_filter in Hz as [-> ?].
    + intros [Hx Hin]. exists x. split; [done|].
      apply elem_of_replicate. split; [done|]. unfold occurrences.
      assert (k ∈ filter (λ s, s = k) (sememes x)) as Hz
        by by apply list_elem_of_filter.
      destruct (filter _ _); [by apply elem_of_nil in Hz|done].
  - intros x k Hx Hk.
    apply list_elem_of_fmap in Hx as ([k0 x0] & -> & Hx). simpl in Hk.
    apply list_elem_of_lookup_1 in Hx as [i Hi].
    destruct (Forall2_lookup_r _ _ _ _ _ Hf Hi) as (kv & _ & _ & _ & Hg).
    simpl in Hg. apply gen_sememe_list_registered in Hg.
    rewrite Forall_forall in Hg. apply Hg in Hk.
    by apply (preserves_dom same_relations _ _ k Hp).
Qed.

Lemma index_entry_default (l : list Sense) : default [] (index_entry l) = l.
Proof. by destruct l. Qed.

Lemma index_entry_snoc (l : list Sense) x :
  index_entry (l ++ [x]) = Some (l ++ [x]).
Proof. by destruct l. Qed.

(** The loop that fills the two word indexes. *)
Lemma foldl_index_sense (l l0 : list Sense) m :
  (∀ w, m.1 !! w
        = index_entry (filter (λ x, py_strip (en_word x) = w) l0)) →
  (∀ w, m.2 !! w
        = index_entry (filter (λ x, py_strip (ch_word x) = w) l0)) →
  (∀ w, (foldl index_sense m l).1 !! w
        = index_entry (filter (λ x, py_strip (en_word x) = w) (l0 ++ l))) ∧
  (∀ w, (foldl index_sense m l).2 !! w
        = index_entry (filter (λ x, py_strip (ch_word x) = w) (l0 ++ l))).
Proof.
  revert l0 m. induction l as [|x l IH]; intros l0 m Hen Hzh.
  - by rewrite app_nil_r.
  - replace (l0 ++ x :: l) with ((l0 ++ [x]) ++ l) by by rewrite <- app_assoc.
    simpl. apply IH; intros w; unfold index_sense; simpl.
    + rewrite filter_app, filter_cons, filter_nil.
      destruct (decide (py_strip (en_word x) = w)) as [<-|Hne].
      * by rewrite lookup_insert_eq, Hen, index_entry_default, index_entry_snoc.
      * rewrite lookup_insert_ne by done. by rewrite Hen, app_nil_r.
    + rewrite filter_app, filter_cons, filter_nil.
      destruct (decide (py_strip (ch_word x) = w)) as [<-|Hne].
      * by rewrite lookup_insert_eq, Hzh, index_entry_default, index_entry_snoc.
      * rewrite lookup_insert_ne by done. by rewrite Hzh, app_nil_r.
Qed.

Lemma index_entry_is_Some (l : list Sense) :
  is_Some (index_entry l) ↔ ∃ x, x ∈ l.
Proof.
  destruct l as [|x l]; simpl.
  - split; [by intros [? ?]|]. by intros [x ?%elem_of_nil].
  - split; [|eauto]. intros _. exists x. by left.
Qed.

Lemma get_has_en self w :
  get self w (Some (str "en")) = Ret (default [] (en_map self !! w)) ∧
  has self w (Some (str "en")) = bool_decide (is_Some (en_map self !! w)).
Proof. unfold get, has. by rewrite !decide_True. Qed.

Lemma get_has_zh self w :
  get self w (Some (str "zh")) = Ret (default [] (zh_map self !! w)) ∧
  has self w (Some (str "zh")) = bool_decide (is_Some (zh_map self !! w)).
Proof.
  unfold get, has.
  rewrite !(decide_False (P := Some (str "zh") = Some (str "en"))) by done.
  by rewrite !decide_True.
Qed.

(** X20: The word indexes of a loaded knowledge base: under a word stand the
    senses whose English (Chinese) form, without the white space around
    it, is the word, in the order of the sense registry; so [get] with a
    language returns exactly these senses and [has] tells whether there
    is one. *)
Theorem loaded_word_index all triples items kb w :
  HowNetDict_init all triples items = Ret kb →
  get kb w (Some (str "en"))
    = Ret (filter (λ x, py_strip (en_word x) = w) (sense_dic kb).*2) ∧
  get kb w (Some (str "zh"))
    = Ret (filter (λ x, py_strip (ch_word x) = w) (sense_dic kb).*2) ∧
  (has kb w (Some (str "en")) = true ↔
   ∃ x, x ∈ (sense_dic kb).*2 ∧ py_strip (en_word x) = w) ∧
  (has kb w (Some (str "zh")) = true ↔
   ∃ x, x ∈ (sense_dic kb).*2 ∧ py_strip (ch_word x) = w).
Proof.
  intros (dic0 & dic1 & _ & _ & _ & Hen & Hzh)%HowNetDict_init_Ret.
  destruct (foldl_index_sense (sense_dic kb).*2 []
              (∅, ∅)) as [Ien Izh]; [done..|].
  simpl in Ien, Izh. rewrite <- Hen in Ien. rewrite <- Hzh in Izh.
  destruct (get_has_en kb w) as [-> ->]. destruct (get_has_zh kb w) as [-> ->].
  rewrite Ien, Izh, !index_entry_default.
  split; [done|]. split; [done|].
  rewrite !bool_decide_eq_true, !index_entry_is_Some.
  split; split; intros [x Hx]; exists x;
    by rewrite list_elem_of_filter in *; destruct Hx.
Qed.

Lemma for_each_Raise_inv {A S : Type} (P : S → Prop) (l : list A)
    (body : S → A → outcome S) s e :
  P s →
  (∀ s1 x s2, x ∈ l → P s1 → body s1 x = Ret s2 → P s2) →
  for_each l body s = Raise e →
  ∃ s1 x, x ∈ l ∧ P s1 ∧ body s1 x = Raise e.
Proof.
  revert s. induction l as [|x l IH]; intros s Hs Hstep; simpl; [done|].
  intros [H|(s' & Hb & H)]%bind_Raise.
  - exists s, x. split; [left|done].
  - destruct (IH s') as (s1 & y & Hy & H1 & H2); [| |done|].
    + eapply Hstep; [left|done..].
    + intros s1 y s2 Hy. apply Hstep. by right.
    + exists s1, y. split; [by right|done].
Qed.

Lemma Sememe_init_Raise label fr e :
  Sememe_init label fr = Raise e → e = ValueError.
Proof.
  unfold Sememe_init.
  destruct (py_split PIPE label) as [|a [|b [|? ?]]]; congruence.
Qed.

Lemma load_sense_not_Diverge st kv : load_sense st kv ≠ Diverge.
Proof.
  destruct st as [dic sd], kv as [k v]. unfold load_sense.
  apply bind_not_Diverge; [apply gen_sememe_list_total|done].
Qed.

(** X21: The loader always ends.  It raises nothing but [ValueError], for a
    label of [sememe_all] that [Sememe] rejects; [IndexError], for a line
    of the triples file with a registered head and fewer than three
    fields or a definition that the flattening pass cannot scan; and
    [KeyError] of a label that is not in [sememe_all], named by a line of
    the triples file or by a definition. *)
Theorem loader_exceptions all triples items :
  HowNetDict_init all triples items ≠ Diverge ∧
  ∀ e, HowNetDict_init all triples items = Raise e →
       (e = ValueError ∧
        ∃ kv, kv ∈ all ∧ Sememe_init kv.1 kv.2 = Raise ValueError) ∨
       e = IndexError ∨
       ∃ k, e = KeyError k ∧ k ∉ all.*1.
Proof.
  unfold HowNetDict_init. split.
  - apply bind_not_Diverge.
    { apply for_each_not_Diverge. intros dic kv.
      apply bind_not_Diverge; [|done]. unfold Sememe_init.
      by destruct (py_split PIPE kv.1) as [|a [|b [|? ?]]]. }
    intros dic0 _. apply bind_not_Diverge.
    { apply for_each_not_Diverge. apply load_triple_not_Diverge. }
    intros dic1 _. apply bind_not_Diverge.
    { apply for_each_not_Diverge. apply load_sense_not_Diverge. }
    by intros [dic2 sd] _.
  - intros e [H|(dic0 & H0 & H)]%bind_Raise.
    { apply for_each_Raise in H as (d & kv & Hkv & H).
      apply bind_Raise in H as [H|(? & _ & H)]; [|done].
      pose proof (Sememe_init_Raise _ _ _ H) as ->. left. eauto. }
    apply load_sememes_spec in H0 as [Hdom _]. right.
    apply bind_Raise in H as [H|(dic1 & H1 & H)].
    { apply (for_each_Raise_inv (λ d, ∀ k, is_Some (d !! k) ↔ k ∈ all.*1))
        in H as (d & line & _ & Hd & H); [|done|].
      - apply load_triple_Raise in H as [->|(k & -> & Hk)]; [by left|].
        right. exists k. split; [done|]. rewrite <- Hd, Hk. by intros [? ?].
      - intros d1 line d2 _ Hd (t & _ & Ht)%load_triple_Ret k.
        by rewrite (add_triple_dom _ _ _ _ Ht). }
    apply load_triples_same_senses in H1.
    apply bind_Raise in H as [H|([dic2 sd] & _ & H)]; [|done].
    apply (for_each_Raise_inv
             (λ st, ∀ k, is_Some (st.1 !! k) ↔ k ∈ all.*1))
      in H as ([d sd] & [k0 v] & _ & Hd & H).
    + unfold load_sense in H.
      apply bind_Raise in H as [H|(? & _ & H)]; [|done].
      apply gen_sememe_list_Raise in H as [->|(k & -> & Hk)]; [by left|].
      right. exists k. split; [done|]. simpl in Hd. rewrite <- Hd, Hk.
      by intros [? ?].
    + intros k. simpl. by rewrite (preserves_dom _ _ _ k H1).
    + intros st1 kv st2 _ Hd Hst k.
      apply load_sense_same_relations in Hst.
      by rewrite (preserves_dom _ _ _ k Hst).
Qed.

(** ** The order of candidates *)

Lemma str_ltb_irrefl a : str_ltb a a = false.
Proof.
  destruct (str_ltb a a) eqn:E; [|done]. by rewrite (str_ltb_asym a a E) in E.
Qed.

Lemma sort_insert_filter x l k :
  filter (λ y, No y = k) (sort_insert x l) = filter (λ y, No y = k) (x :: l).
Proof.
  induction l as [|y l IH]; simpl; [done|].
  destruct (str_ltb (No y) (No x)) eqn:E; [|done].
  rewrite (filter_cons _ y), IH, !(filter_cons _ x), !(filter_cons _ y).
  destruct (decide (No y = k)) as [Hy|Hy], (decide (No x = k)) as [Hx|Hx];
    try done.
  rewrite Hy, Hx, str_ltb_irrefl in E. done.
Qed.

(** X23: The sort of the candidates is stable: the senses with one and the
    same identifier come in the order in which the lookup returned them. *)
Theorem candidates_sort_stable (l : list Sense) (k : pystr) :
  filter (λ x, No x = k) (sort_by_No l) = filter (λ x, No x = k) l.
Proof.
  induction l as [|x l IH]; [done|].
  change (sort_by_No (x :: l)) with (sort_insert x (sort_by_No l)).
  by rewrite sort_insert_filter, !filter_cons, IH.
Qed.

(** * The first clause and the whole definition *)

(** ** The two scans, by position *)

Lemma is_opener_spec c : is_opener c = true ↔ c = LBRACE ∨ c = QUOTE.
Proof. unfold is_opener. by rewrite orb_true_iff, !N.eqb_eq. Qed.

Lemma is_closer_spec c :
  is_closer c = true ↔ c = RBRACE ∨ c = COLON ∨ c = QUOTE.
Proof. unfold is_closer. rewrite !orb_true_iff, !N.eqb_eq. tauto. Qed.

Lemma scan_end_spec f (kdml : pystr) idx b :
  scan_end f kdml idx = Ret b →
  idx ≤ b ∧
  (∃ c, py_index kdml b = Ret c ∧ is_closer c = true) ∧
  ∀ j c, idx ≤ j < b → py_index kdml j = Ret c → is_closer c = false.
Proof.
  revert idx. induction f as [|f IH]; intros idx; simpl; [done|].
  destruct (py_index kdml idx) as [c| |] eqn:Ec; simpl; [|done..].
  destruct (is_closer c) eqn:Eo.
  - intros [= <-]. split; [lia|]. split; [eauto|]. intros j c' Hj. lia.
  - intros (Hle & Hop & Hbetween)%IH. split; [lia|]. split; [done|].
    intros j c' Hj Hc'. destruct (decide (j = idx)) as [->|Hne].
    + congruence.
    + apply (Hbetween j c'); [lia|done].
Qed.

(** The backward scan stops at the nearest opening delimiter. *)
Lemma scan_start_at (kdml : pystr) (i p : nat) :
  (p ≤ i)%nat → (i < length kdml)%nat →
  (∃ c, kdml !! p = Some c ∧ is_opener c = true) →
  (∀ j c, (p < j ≤ i)%nat → kdml !! j = Some c → is_opener c = false) →
  scan_start (scan_fuel kdml) kdml (Z.of_nat i) = Ret (Z.of_nat p).
Proof.
  intros Hpi Hi (c & Hc & Ho) Hnone.
  destruct (scan_start (scan_fuel kdml) kdml (Z.of_nat i)) as [a|e|] eqn:E.
  - destruct (scan_start_spec _ _ _ _ E) as (Ha & (c' & Hc' & Ho') & Hb).
    f_equal.
    destruct (Z.lt_trichotomy a (Z.of_nat p)) as [Hlt|[->|Hgt]]; [|done|].
    + exfalso. specialize (Hb (Z.of_nat p) c ltac:(lia)).
      rewrite py_index_nat, Hc in Hb. specialize (Hb eq_refl). congruence.
    + exfalso. replace a with (Z.of_nat (Z.to_nat a)) in Hc' by lia.
      rewrite py_index_nat in Hc'.
      destruct (kdml !! Z.to_nat a) as [x|] eqn:E2; [|done].
      injection Hc' as ->.
      specialize (Hnone (Z.to_nat a) c' ltac:(lia) E2). congruence.
  - exfalso.
    pose proof (scan_start_Raise_no_opener _ _ _ _ E ltac:(lia)
                  (Z.of_nat p) c ltac:(lia)) as H.
    rewrite py_index_nat, Hc in H. specialize (H eq_refl). congruence.
  - exfalso.
    by destruct (scan_fuel_start kdml (scan_fuel kdml) i ltac:(lia)) as [_ H].
Qed.

(** The forward scan stops at the nearest closing delimiter. *)
Lemma scan_end_at (kdml : pystr) (i q : nat) :
  (i ≤ q)%nat →
  (∃ c, kdml !! q = Some c ∧ is_closer c = true) →
  (∀ j c, (i ≤ j < q)%nat → kdml !! j = Some c → is_closer c = false) →
  scan_end (scan_fuel kdml) kdml (Z.of_nat i) = Ret (Z.of_nat q).
Proof.
  intros Hiq (c & Hc & Ho) Hnone.
  destruct (scan_end (scan_fuel kdml) kdml (Z.of_nat i)) as [b|e|] eqn:E.
  - destruct (scan_end_spec _ _ _ _ E) as (Hb & (c' & Hc' & Ho') & Hbet).
    f_equal.
    destruct (Z.lt_trichotomy b (Z.of_nat q)) as [Hlt|[->|Hgt]]; [|done|].
    + exfalso. replace b with (Z.of_nat (Z.to_nat b)) in Hc' by lia.
      rewrite py_index_nat in Hc'.
      destruct (kdml !! Z.to_nat b) as [x|] eqn:E2; [|done].
      injection Hc' as ->.
      specialize (Hnone (Z.to_nat b) c' ltac:(lia) E2). congruence.
    + exfalso. specialize (Hbet (Z.of_nat q) c ltac:(lia)).
      rewrite py_index_nat, Hc in Hbet. specialize (Hbet eq_refl). congruence.
  - exfalso. apply scan_end_Raise_no_closer in E. unfold unclosed_from in E.
    rewrite forallb_forall in E. specialize (E c).
    rewrite Ho in E. apply (diff_false_true), E, list_elem_of_In.
    apply (list_elem_of_lookup_2 _ (q - i)%nat). rewrite lookup_drop.
    by replace (i + (q - i))%nat with q by lia.
  - exfalso.
    by destruct (scan_fuel_end kdml (scan_fuel kdml) i ltac:(lia)) as [_ H].
Qed.

Lemma py_slice_between (kdml : pystr) (p q : nat) :
  (p < length kdml)%nat → (q ≤ length kdml)%nat →
  py_slice kdml (Z.of_nat p + 1) (Z.of_nat q) = between (S p) q kdml.
Proof.
  intros Hp Hq. rewrite py_slice_range by lia. unfold between.
  replace (Z.to_nat (Z.of_nat q - (Z.of_nat p + 1))) with (q - S p)%nat by lia.
  by replace (Z.to_nat (Z.of_nat p + 1)) with (S p) by lia.
Qed.

(** At a vertical bar the two scans of the parsers cut out exactly the
    text between the nearest opening delimiter before the bar and the
    nearest closing delimiter after it, provided the backward scan does
    not leave the string at its front. *)
Lemma reference_text_scans (kdml : pystr) (i : nat) (s : pystr) :
  kdml !! i = Some PIPE →
  reference_text kdml i s ↔
  ∃ a b, 0 ≤ a ∧
         scan_start (scan_fuel kdml) kdml (Z.of_nat i) = Ret a ∧
         scan_end (scan_fuel kdml) kdml (Z.of_nat i) = Ret b ∧
         s = py_slice kdml (a + 1) b.
Proof.
  intros Hbar. split.
  - intros (p & q & Hp & Hq & Ho & Hno & Hc & Hnc & ->).
    exists (Z.of_nat p), (Z.of_nat q). split; [lia|].
    assert (q < length kdml)%nat as Hql.
    { destruct Hc as [H|[H|H]]; by apply lookup_lt_Some in H. }
    split; [|split].
    + apply scan_start_at; [lia|by eapply lookup_lt_Some| |].
      * destruct Ho as [H|H]; eexists; (split; [exact H|reflexivity]).
      * intros j c Hj Hjc. destruct (decide (j = i)) as [->|Hne].
        -- rewrite Hbar in Hjc. by injection Hjc as <-.
        -- destruct (Hno j ltac:(lia)) as [H1 H2].
           destruct (is_opener c) eqn:E; [|done].
           apply is_opener_spec in E as [->| ->]; congruence.
    + apply scan_end_at; [lia| |].
      * destruct Hc as [H|[H|H]]; eexists; (split; [exact H|reflexivity]).
      * intros j c Hj Hjc. destruct (Hnc j Hj) as (H1 & H2 & H3).
        destruct (is_closer c) eqn:E; [|done].
        apply is_closer_spec in E as [->|[->| ->]]; congruence.
    + symmetry. apply py_slice_between; lia.
  - intros (a & b & Ha & Hs & He & ->).
    destruct (scan_start_spec _ _ _ _ Hs) as (Hai & (c & Hc & Hco) & Hno).
    destruct (scan_end_spec _ _ _ _ He) as (Hib & (d & Hd & Hdo) & Hnc).
    pose proof (py_index_Ret _ _ _ Hd) as Hbl.
    replace a with (Z.of_nat (Z.to_nat a)) in Hc by lia.
    replace b with (Z.of_nat (Z.to_nat b)) in Hd by lia.
    rewrite py_index_nat in Hc, Hd.
    destruct (kdml !! Z.to_nat a) as [c'|] eqn:Ea; [|done]. injection Hc as ->.
    destruct (kdml !! Z.to_nat b) as [d'|] eqn:Eb; [|done]. injection Hd as ->.
    assert (Z.to_nat a ≠ i) as Hne1.
    { intros <-. rewrite Hbar in Ea. by injection Ea as <-. }
    assert (Z.to_nat b ≠ i) as Hne2.
    { intros <-. rewrite Hbar in Eb. by injection Eb as <-. }
    exists (Z.to_nat a), (Z.to_nat b).
    split; [lia|]. split; [lia|]. split; [|split; [|split; [|split]]].
    + apply is_opener_spec in Hco as [->| ->]; eauto.
    + intros j Hj.
      split; intros Hjc;
        (eassert (py_index kdml (Z.of_nat j) = Ret _) as Hj'
           by (by rewrite py_index_nat, Hjc));
        specialize (Hno (Z.of_nat j) _ ltac:(lia) Hj');
        vm_compute in Hno; discriminate.
    + apply is_closer_spec in Hdo as [->|[->| ->]]; eauto.
    + intros j Hj.
      repeat split; intros Hjc;
        (eassert (py_index kdml (Z.of_nat j) = Ret _) as Hj'
           by (by rewrite py_index_nat, Hjc));
        specialize (Hnc (Z.of_nat j) _ ltac:(lia) Hj');
        vm_compute in Hnc; discriminate.
    + apply lookup_lt_Some in Ea, Eb.
      rewrite <- py_slice_between by lia. f_equal; lia.
Qed.

Lemma elem_of_bars_from (k : nat) (s : pystr) (i : nat) :
  i ∈ bars_from k s ↔ ∃ j, i = (k + j)%nat ∧ s !! j = Some PIPE.
Proof.
  revert k. induction s as [|c s IH]; intros k; simpl.
  - split; [by intros ?%elem_of_nil|by intros (j & _ & ?)].
  - destruct (N.eqb_spec c PIPE) as [->|Hne].
    + rewrite elem_of_cons, IH. split.
      * intros [->|(j & -> & Hj)]; [exists 0%nat|exists (S j)];
          (split; [lia|done]).
      * intros ([|j] & -> & Hj); [left; lia|right].
        exists j. split; [lia|done].
    + rewrite IH. split.
      * intros (j & -> & Hj). exists (S j). split; [lia|done].
      * intros ([|j] & -> & Hj); [simpl in Hj; congruence|].
        exists j. split; [lia|done].
Qed.

Lemma elem_of_bars (s : pystr) (i : nat) : i ∈ bars s ↔ s !! i = Some PIPE.
Proof.
  unfold bars. rewrite elem_of_bars_from. split.
  - by intros (j & -> & Hj).
  - intros H. by exists i.
Qed.

(** With an opening delimiter before the bar the backward scan stays
    inside the string. *)
Lemma opened_scan_start f (kdml : pystr) (i : nat) a :
  opened kdml → kdml !! i = Some PIPE →
  scan_start f kdml (Z.of_nat i) = Ret a → 0 ≤ a.
Proof.
  unfold opened. rewrite Forall_forall. intros Hop Hbar Hs.
  destruct (scan_start_spec _ _ _ _ Hs) as (_ & _ & Hno).
  destruct (Z.lt_ge_cases a 0) as [Hneg|]; [exfalso|done].
  assert (∃ j c, (j < i)%nat ∧ kdml !! j = Some c ∧ is_opener c = true)
    as (j & c & Hj & Hc & Ho).
  { destruct (Hop i) as [H|H]; [by apply elem_of_bars|..];
      apply elem_of_take in H as (j & Hj & Hlt); eauto. }
  specialize (Hno (Z.of_nat j) c ltac:(lia)).
  rewrite py_index_nat, Hc in Hno. specialize (Hno eq_refl). congruence.
Qed.

(** ** The flattened list, reference by reference *)

Lemma list_step_at dic (kdml : pystr) (i : nat) res s :
  kdml !! i = Some PIPE → reference_at dic kdml i s →
  list_step (scan_fuel kdml) dic kdml res i = Ret (res ++ [s]).
Proof.
  intros Hbar (a & b & Ha & Hb & -> & [x Hx]). unfold list_step.
  rewrite py_index_nat, Hbar. cbn [mbind outcome_bind].
  rewrite N.eqb_refl, Ha, Hb. cbn [mbind outcome_bind].
  unfold registry_ref. by rewrite Hx.
Qed.

Lemma list_step_skip dic (kdml : pystr) (i : nat) res c f :
  kdml !! i = Some c → c ≠ PIPE → list_step f dic kdml res i = Ret res.
Proof.
  intros Hc Hne. unfold list_step. rewrite py_index_nat, Hc.
  cbn [mbind outcome_bind]. by destruct (N.eqb_spec c PIPE).
Qed.

Lemma list_scan_refs_conv dic (kdml suf pre : pystr) res new :
  kdml = pre ++ suf →
  Forall2 (reference_at dic kdml) (bars_from (length pre) suf) new →
  for_each (seq (length pre) (length suf))
    (list_step (scan_fuel kdml) dic kdml) res = Ret (res ++ new).
Proof.
  revert pre res new. induction suf as [|c suf IH]; intros pre res new Hk H.
  - simpl in H. apply Forall2_nil_inv_l in H as ->. simpl.
    by rewrite app_nil_r.
  - assert (kdml !! length pre = Some c) as Hc.
    { rewrite Hk. by rewrite list_lookup_middle. }
    assert (kdml = (pre ++ [c]) ++ suf) as Hk' by by rewrite <- app_assoc.
    specialize (IH (pre ++ [c])). rewrite length_app, Nat.add_1_r in IH.
    cbn [length seq for_each bars_from] in *.
    destruct (N.eqb_spec c PIPE) as [->|Hne].
    + apply Forall2_cons_inv_l in H as (s & new' & Hs & Hnew & ->).
      rewrite (list_step_at _ _ _ _ s) by done. cbn [mbind outcome_bind].
      rewrite (IH _ new') by done. by rewrite <- app_assoc.
    + rewrite (list_step_skip _ _ _ _ c) by done. cbn [mbind outcome_bind].
      by apply IH.
Qed.

Lemma reference_at_text dic (kdml : pystr) (i : nat) (s : pystr) :
  opened kdml → kdml !! i = Some PIPE →
  reference_at dic kdml i s ↔ reference_text kdml i s ∧ is_Some (dic !! s).
Proof.
  intros Hop Hbar. rewrite reference_text_scans by done. split.
  - intros (a & b & Ha & Hb & -> & Hreg). split; [|done].
    exists a, b. split; [by eapply opened_scan_start|done].
  - intros [(a & b & _ & Ha & Hb & ->) Hreg]. by exists a, b.
Qed.

Lemma gen_sememe_list_references dic sense l :
  opened (Def sense) →
  _gen_sememe_list dic sense = Ret l ↔
  Forall2 (reference_text (Def sense)) (bars (Def sense)) l ∧
  Forall (λ s, is_Some (dic !! s)) l.
Proof.
  intros Hop.
  assert (Forall2 (reference_at dic (Def sense)) (bars (Def sense)) l ↔
          Forall2 (reference_text (Def sense)) (bars (Def sense)) l ∧
          Forall (λ s, is_Some (dic !! s)) l) as Heq.
  { rewrite !Forall2_same_length_lookup, Forall_lookup. split.
    - intros [Hlen H]. split; [split; [done|]|].
      + intros k i s Hi Hs.
        apply (reference_at_text dic); [done| |by eapply H].
        apply elem_of_bars. by eapply list_elem_of_lookup_2.
      + intros k s Hs.
        destruct (lookup_lt_is_Some_2 (bars (Def sense)) k) as [i Hi].
        { rewrite Hlen. by eapply lookup_lt_Some. }
        apply (reference_at_text dic (Def sense) i s); [done| |by eapply H].
        apply elem_of_bars. by eapply list_elem_of_lookup_2.
    - intros [[Hlen H] Hreg]. split; [done|]. intros k i s Hi Hs.
      apply reference_at_text; [done| |split; [by eapply H|by eapply Hreg]].
      apply elem_of_bars. by eapply list_elem_of_lookup_2. }
  rewrite <- Heq. unfold _gen_sememe_list, gen_sememe_list_fuel, range.
  split.
  - intros H.
    by apply (list_scan_refs dic (Def sense) (Def sense) []) in H
      as (new & -> & H).
  - intros H. by apply (list_scan_refs_conv dic (Def sense) (Def sense) [] []).
Qed.

(** ** The names of the tree, reference by reference *)

Lemma py_replace_underscored s :
  py_replace SPACE UNDERSCORE s = underscored s.
Proof.
  unfold py_replace, underscored. apply map_ext. intros c.
  destruct (N.eqb_spec c SPACE), (decide (c = SPACE)); congruence.
Qed.

Lemma entity_step_named dic (kdml : pystr) st (i : nat) st' :
  opened kdml →
  entity_step (scan_fuel kdml) dic kdml st i = Ret st' →
  Forall (λ nd, named_in_clause kdml (name nd) ∨ name nd = NmStr [TILDE])
    (node st) →
  Forall (λ nd, named_in_clause kdml (name nd) ∨ name nd = NmStr [TILDE])
    (node st').
Proof.
  intros Hop. unfold entity_step. rewrite py_index_nat. intros H Hn.
  destruct (kdml !! i) as [c|] eqn:Ec; cbn [mbind outcome_bind] in H; [|done].
  assert (c ∈ kdml) as Hin by by eapply list_elem_of_lookup_2.
  destruct (is_marker c) eqn:Em.
  - injection H as <-. simpl. apply Forall_app. split; [done|].
    apply Forall_singleton. simpl. unfold is_marker in Em.
    destruct (N.eqb_spec c TILDE) as [->|_]; [by right|].
    destruct (N.eqb_spec c QMARK) as [->|_]; [left; right; by left|].
    destruct (N.eqb_spec c DOLLAR) as [->|_]; [left; right; by right|done].
  - destruct (N.eqb_spec c PIPE) as [->|_]; [|by injection H as <-].
    apply bind_Ret in H as (a & Ha & H). apply bind_Ret in H as (b & Hb & H).
    apply bind_Ret in H as (s & Hs & [= <-]). simpl.
    apply Forall_app. split; [done|]. apply Forall_singleton. simpl.
    left. left.
    exists i, (py_slice kdml (a + 1) b). split; [done|]. split.
    + apply reference_text_scans; [done|]. exists a, b.
      split; [by eapply opened_scan_start|done].
    + unfold registry_ref in Hs. destruct (dic !! _); [|done].
      injection Hs as <-. by rewrite py_replace_underscored.
Qed.

Lemma entity_scan_named dic (kdml : pystr) l st :
  opened kdml →
  for_each l (entity_step (scan_fuel kdml) dic kdml) (mkEntities [] [] [])
    = Ret st →
  Forall (λ nd, named_in_clause kdml (name nd) ∨ name nd = NmStr [TILDE])
    (node st).
Proof.
  intros Hop.
  apply (for_each_invariant
           (λ _ s, Forall (λ nd, named_in_clause kdml (name nd)
                                 ∨ name nd = NmStr [TILDE]) (node s))).
  - constructor.
  - intros pre x post s1 s2 _ Hn Hb. by eapply entity_step_named.
Qed.

(** The tree of a sense: the root carries the sense, and every node
    below it is named by a reference or a marker of the first clause. *)
Lemma gen_sememe_tree_named dic sense ret v :
  opened (first_clause (Def sense)) →
  _gen_sememe_tree dic sense ret = Ret v →
  ∃ child,
    v = (if ret then TreeNode else TreeDict)
          (DNode (NmSense (No sense)) (str "sense") [child]) ∧
    ∀ x, x ∈ tree_names child → named_in_clause (first_clause (Def sense)) x.
Proof.
  unfold first_clause, _gen_sememe_tree, gen_sememe_tree_fuel.
  destruct (py_split SEMI (strip_rmk (Def sense))) as [|kdml pieces] eqn:E;
    [by apply py_split_nonempty in E|].
  intros Hop Hv.
  destruct (parse_clause_shape _ _ _ _ _ _ Hv) as (rl & child & Hshape & Hno).
  destruct (parse_clause_names _ _ _ _ _ _ Hv) as (st & t & H1 & Ht & Hsub).
  destruct (parse_clause_Ret _ _ _ _ _ _ Hv)
    as (st' & node1 & fo & nd0 & rest & H1' & H2 & H3 & En & Hv').
  rewrite H1 in H1'. injection H1' as <-.
  pose proof (entity_scan_ok _ _ _ _ _ H1) as [_ Hp _ _].
  destruct (resolve_loop_ok _ _ _ _ _ _ H2 Hp) as [_ Hok2].
  pose proof (collapse_loop_root _ _ _ _ H3 Hok2 eq_refl) as Hroot.
  pose proof (entity_scan_named _ _ _ _ Hop H1) as Hnames.
  assert (rl = str "sense") as ->.
  { rewrite Hv', Hroot in Hshape. by destruct ret; injection Hshape as <-. }
  exists child. split; [done|]. intros x Hx.
  assert (x ∈ name <$> node st) as Hin.
  { apply Hsub. rewrite Hshape in Ht.
    assert (t = DNode (NmSense (No sense)) (str "sense") [child]) as ->
      by (destruct ret; simpl in Ht; congruence).
    unfold non_root_names, forest_names. simpl. by rewrite app_nil_r. }
  apply list_elem_of_fmap in Hin as (nd & -> & Hnd).
  rewrite Forall_forall in Hnames.
  destruct (Hnames nd Hnd) as [H|H]; [done|]. by rewrite H in Hx.
Qed.

(** ** A clause without remark *)

Lemma prefixb_prefix (p s : pystr) : prefixb p s = true → p `prefix_of` s.
Proof.
  revert s. induction p as [|a p IH]; intros s; [intros _; apply prefix_nil|].
  destruct s as [|b s]; simpl; [done|].
  intros [->%N.eqb_eq H]%andb_true_iff. by apply prefix_cons, IH.
Qed.

Lemma cut_rmk_no_remark (c : pystr) : no_remark c → cut_rmk c = c.
Proof.
  unfold no_remark. rewrite Forall_seq.
  induction c as [|a c IH]; intros H.
  - reflexivity.
  - cbn [cut_rmk]. destruct (prefixb RMK (a :: c)) eqn:E.
    + exfalso. apply (H 0%nat); [simpl; lia|]. by apply prefixb_prefix.
    + f_equal. apply IH. intros k Hk. apply (H (S k)). simpl in *. lia.
Qed.

Lemma first_clause_clean (c rest : pystr) :
  SEMI ∉ c → no_remark c → first_clause (c ++ SEMI :: rest) = c.
Proof.
  intros Hs Hr. rewrite first_clause_semicolon by done.
  rewrite first_clause_hd, cut_rmk_no_remark by done.
  by rewrite py_split_no_sep.
Qed.

(** C1: for a definition with a semicolon the tree builder returns what
    it returns for the first clause alone (and what follows the marker of
    a remark never reaches it either): the tree is the root with one
    child, and every node below the root is named by a reference of the
    first clause -- the text between the nearest opening delimiter before
    a vertical bar and the nearest closing delimiter after it, spaces
    turned into underscores -- or by a wildcard or variable marker of the
    first clause.  [_gen_sememe_list] returns exactly when the reference
    at every vertical bar of the whole definition is registered, and it
    returns these references in the order of the bars, those of the later
    clauses and of the remark included. *)
Theorem tree_first_clause_list_whole_definition dic sense c rest ret :
  SEMI ∉ c → Def sense = c ++ SEMI :: rest →
  _gen_sememe_tree dic sense ret = _gen_sememe_tree dic (with_Def sense c) ret ∧
  (∀ c' rest', c = c' ++ RMK ++ rest' →
     _gen_sememe_tree dic sense ret
       = _gen_sememe_tree dic (with_Def sense c') ret) ∧
  (no_remark c → opened c →
   ∀ v, _gen_sememe_tree dic sense ret = Ret v →
     ∃ child,
       v = (if ret then TreeNode else TreeDict)
             (DNode (NmSense (No sense)) (str "sense") [child]) ∧
       ∀ x, x ∈ tree_names child → named_in_clause c x) ∧
  (opened (Def sense) →
   ∀ l, _gen_sememe_list dic sense = Ret l ↔
        Forall2 (reference_text (Def sense)) (bars (Def sense)) l ∧
        Forall (λ s, is_Some (dic !! s)) l) ∧
  length (bars (Def sense)) = (length (bars c) + length (bars rest))%nat.
Proof.
  intros Hc HDef. split; [|split; [|split; [|split]]].
  - apply gen_sememe_tree_first_clause; [done|].
    rewrite HDef. simpl. by apply first_clause_semicolon.
  - intros c' rest' ->. apply gen_sememe_tree_first_clause; [done|].
    rewrite HDef. simpl. rewrite first_clause_semicolon by done.
    apply first_clause_remark.
  - intros Hr Hop v Hv.
    assert (first_clause (Def sense) = c) as Hfc
      by (rewrite HDef; by apply first_clause_clean).
    rewrite <- Hfc.
    apply (gen_sememe_tree_named dic sense ret v); [by rewrite Hfc|done].
  - intros Hop l. by apply gen_sememe_list_references.
  - rewrite HDef, bars_app_length. f_equal. unfold bars. simpl.
    apply bars_from_length.
Qed.

(** * The claims on concrete inputs *)

(** Decidable side conditions are settled by evaluation. *)
Ltac by_evaluation := apply (bool_decide_unpack _); vm_compute; exact I.

Lemma tree_first_clause_list_whole_definition_witness :
  _gen_sememe_tree example_registry (example_sense two_clause_def) false
    = _gen_sememe_tree example_registry
        (with_Def (example_sense two_clause_def) (str "{a|A:r={b|B}}")) false ∧
  (∃ child,
     TreeDict tree_7
       = TreeDict (DNode (NmSense (No (example_sense two_clause_def)))
                     (str "sense") [child]) ∧
     ∀ x, x ∈ tree_names child → named_in_clause (str "{a|A:r={b|B}}") x) ∧
  (_gen_sememe_list example_registry (example_sense two_clause_def)
     = Ret [str "a|A"; str "b|B"; str "c|C"; str "b|B"] ↔
   Forall2 (reference_text two_clause_def) (bars two_clause_def)
     [str "a|A"; str "b|B"; str "c|C"; str "b|B"] ∧
   Forall (λ s, is_Some (example_registry !! s))
     [str "a|A"; str "b|B"; str "c|C"; str "b|B"]) ∧
  length (bars two_clause_def)
    = (length (bars (str "{a|A:r={b|B}}"))
       + length (bars (str "{c|C}RMK={b|B}")))%nat.
Proof.
  destruct (tree_first_clause_list_whole_definition example_registry
              (example_sense two_clause_def) (str "{a|A:r={b|B}}")
              (str "{c|C}RMK={b|B}") false
              ltac:(by_evaluation) ltac:(vm_compute; reflexivity))
    as (T1 & _ & T3 & T4 & T5).
  split; [exact T1|]. split; [|split; [|exact T5]].
  - apply T3; [by_evaluation|by_evaluation|vm_compute; reflexivity].
  - apply T4. by_evaluation.
Defined.

Lemma list_reads_later_clauses :
  _gen_sememe_list example_registry (example_sense two_clause_def)
    = Ret [str "a|A"; str "b|B"; str "c|C"; str "b|B"] ∧
  ∃ t, _gen_sememe_tree example_registry (example_sense two_clause_def) false
         = Ret (TreeDict t) ∧
       non_root_names t = [NmSememe (str "a|A"); NmSememe (str "b|B")].
Proof.
  split; [vm_compute; reflexivity|]. eexists. split; vm_compute; reflexivity.
Qed.

Lemma batch_errors_skipped_or_reraised_witness :
  get_sememes_by_word example_kb (str "u") (str "list") false (-1) None
    = ([PrintWord (str "u"); PrintWrongItem (No sense_21);
        PrintException IndexError], Raise IndexError).
Proof.
  apply (proj2 (batch_errors_skipped_or_reraised example_kb (str "u")
                  [sense_20; sense_20; sense_21] ltac:(vm_compute; reflexivity))
           false (-1) None [sense_20; sense_20] sense_21 [] IndexError).
  - reflexivity.
  - intros s Hs. eexists. vm_compute in Hs.
    repeat (apply elem_of_cons in Hs as [-> | Hs]; [vm_compute; reflexivity|]).
    by apply elem_of_nil in Hs.
  - vm_compute. reflexivity.
Defined.

(** In the mode [list] one sense that fails to parse ends the query,
    although the other candidate parses. *)
Lemma list_mode_aborts_on_one_failing_sense :
  query_candidates example_kb (str "u") = Ret [sense_20; sense_20; sense_21] ∧
  _gen_sememe_tree (sememe_dic example_kb) sense_20 false
    = Ret (TreeDict (DNode (NmSense (str "20")) (str "sense")
                       [DNode (NmSememe (str "a|A")) (str "None") []])) ∧
  _gen_sememe_tree (sememe_dic example_kb) sense_21 false = Raise IndexError ∧
  (get_sememes_by_word example_kb (str "u") (str "list") false (-1) None).2
    = Raise IndexError ∧
  (get_sememes_by_word example_kb (str "u") (str "list") true (-1) None).2
    = Raise IndexError.
Proof. repeat split; vm_compute; reflexivity. Qed.

(** C3 at a sense identifier: the lookup raises [TypeError] where the
    claim has the sense appended to the result. *)
Theorem getitem_by_sense_id_raises :
  odict_get (sense_dic example_kb) (str "9") = Some sense_9 ∧
  en_map example_kb !! str "9" = None ∧
  zh_map example_kb !! str "9" = None ∧
  getitem example_kb (str "9") = Raise TypeError ∧
  get example_kb (str "9") None = Raise TypeError.
Proof. repeat split; vm_compute; reflexivity. Qed.

(** A sense found under its English and under its Chinese form comes
    twice. *)
Lemma getitem_keeps_duplicates :
  getitem example_kb (str "u") = Ret [sense_20; sense_21; sense_20].
Proof. vm_compute. reflexivity. Qed.



Lemma tree_sememes_within_flattened_list_witness :
  _expand_tree (PDict tree_9) (-1) true
    ⊆ list_to_set (NmSememe <$> [str "a|A"; str "b|B"]) ∧
  (∀ ns, attached_entities example_registry (first_clause (Def sense_9))
           = Ret ns →
         Forall (λ nd, is_Some (parent nd)) (drop 1 ns) →
         _expand_tree (PDict tree_9) (-1) true
           = list_to_set (NmSememe <$> [str "a|A"; str "b|B"])).
Proof.
  apply (tree_sememes_within_flattened_list example_registry sense_9
           [str "a|A"; str "b|B"] tree_9).
  - vm_compute. reflexivity.
  - vm_compute. reflexivity.
  - vm_compute. reflexivity.
Defined.

(** Two groups side by side: the flattened list has both sememes, the
    tree only the first. *)
Lemma orphan_entity_missing_from_tree :
  forallb (λ c, negb (is_marker c)) side_by_side_def = true ∧
  first_clause side_by_side_def = side_by_side_def ∧
  _gen_sememe_list example_registry (example_sense side_by_side_def)
    = Ret [str "a|A"; str "c|C"] ∧
  _gen_sememe_tree example_registry (example_sense side_by_side_def) false
    = Ret (TreeDict tree_side_by_side) ∧
  _expand_tree (PDict tree_side_by_side) (-1) true
    = {[ NmSememe (str "a|A") ]} ∧
  _expand_tree (PDict tree_side_by_side) (-1) true
    ≠ list_to_set (NmSememe <$> [str "a|A"; str "c|C"]).
Proof.
  repeat split; try (vm_compute; reflexivity).
  intros H.
  assert (NmSememe (str "c|C") ∈ _expand_tree (PDict tree_side_by_side) (-1) true)
    as Hin by (rewrite H; by_evaluation).
  revert Hin. by_evaluation.
Qed.

Lemma expand_tree_depths_witness :
  (NmStr [TILDE] ∉ non_root_names tree_belong) ∧
  ∀ layer, NmStr [TILDE] ∉ _expand_tree (PDict tree_belong) layer true.
Proof.
  apply (proj2 (proj2 (proj2 expand_tree_depths)) belong_registry
           (belong_sense belong_marker_def)).
  vm_compute. reflexivity.
Defined.

Lemma triples_last_write_wins_witness :
  ∃ dic', add_triples example_registry two_heads_one_tail = Ret dic' ∧
    ((∀ h' r' t' : list N, (h', r', t') ∈ @nil (list N * list N * list N) →
        ¬ (h' = str "b|B" ∧ r' = str "r")) →
     forward dic' (str "b|B") (str "r") = Some (str "c|C")) ∧
    ((∀ h' r' t' : list N, (h', r', t') ∈ @nil (list N * list N * list N) →
        ¬ (t' = str "c|C" ∧ r' = str "r")) →
     backward dic' (str "c|C") (str "r") = Some (str "b|B")).
Proof.
  apply (triples_last_write_wins example_registry
           [(str "a|A", str "r", str "c|C")]
           (str "b|B") (str "r") (str "c|C") []).
  intros h r t Hin.
  repeat (apply elem_of_cons in Hin as [[= -> -> ->] | Hin];
          [split; by_evaluation|]).
  by apply elem_of_nil in Hin.
Defined.

(** The triple with head [a|A] is the only one with that head, and yet
    [backward] of its tail is not its head: the later triple with another
    head and the same relation and tail has overwritten the entry. *)
Lemma backward_overwritten_by_other_head :
  ∃ dic', add_triples example_registry two_heads_one_tail = Ret dic' ∧
    (str "a|A", str "r", str "c|C") ∈ two_heads_one_tail ∧
    forward dic' (str "a|A") (str "r") = Some (str "c|C") ∧
    backward dic' (str "c|C") (str "r") = Some (str "b|B") ∧
    backward dic' (str "c|C") (str "r") ≠ Some (str "a|A").
Proof.
  eexists. split; [vm_compute; reflexivity|].
  split; [left|]. split; [vm_compute; reflexivity|].
  split; [vm_compute; reflexivity|]. vm_compute. discriminate.
Qed.

Lemma candidates_sorted_by_string_id_witness :
  (∃ l0, getitem example_kb (str "w") = Ret l0 ∧ [sense_10; sense_9] ≡ₚ l0) ∧
  Sorted No_le [sense_10; sense_9] ∧
  (∀ layer K log items,
     get_sememes_by_word example_kb (str "w") (str "list") false layer K
       = (log, Ret (QList items)) →
     omap qitem_sense items = [sense_10; sense_9] ∧
     length items = length [sense_10; sense_9]).
Proof.
  apply (candidates_sorted_by_string_id example_kb (str "w")).
  vm_compute. reflexivity.
Defined.

(** The sense numbered 10 is processed before the sense numbered 9. *)
Lemma sense_10_before_sense_9 :
  query_candidates example_kb (str "w") = Ret [sense_10; sense_9] ∧
  py_int (No sense_10) = Some 10 ∧ py_int (No sense_9) = Some 9 ∧
  ∃ s10 s9,
    (get_sememes_by_word example_kb (str "w") (str "list") false (-1) None).2
      = Ret (QList [QPair sense_10 s10; QPair sense_9 s9]).
Proof.
  split; [vm_compute; reflexivity|]. split; [vm_compute; reflexivity|].
  split; [vm_compute; reflexivity|]. eexists _, _. vm_compute. reflexivity.
Qed.

Lemma same_as_previous_collapsed_witness :
  ∃ t, tree_of (TreeDict (DNode (NmSense (str "1")) (str "sense")
                            [DNode (NmSememe belong_zh) (str "None") []]))
         = Some t ∧ NmStr [TILDE] ∉ tree_names t.
Proof.
  apply (proj1 (proj2 same_as_previous_collapsed) belong_registry
           (belong_sense belong_marker_def) false).
  vm_compute. reflexivity.
Defined.

(** The example of the specification: the marker after the closing brace
    finds no parent, and the tree builder raises instead of returning the
    tree with the one child. *)
Lemma belong_human_example_raises :
  is_Some (belong_registry !! belong_zh) ∧
  is_Some (belong_registry !! human_zh) ∧
  _gen_sememe_tree belong_registry (belong_sense belong_human_def) false
    = Raise AttributeError ∧
  _gen_sememe_tree belong_registry (belong_sense belong_human_def) true
    = Raise AttributeError ∧
  expand_sense belong_registry (belong_sense belong_human_def) (-1)
    = Raise AttributeError.
Proof.
  split; [by_evaluation|]. split; [by_evaluation|].
  repeat split; vm_compute; reflexivity.
Qed.

Lemma empty_clause_raises_never_root_only_witness :
  _gen_sememe_tree example_registry sense_21 false = Raise IndexError.
Proof.
  apply (proj1 (empty_clause_raises_never_root_only example_registry
                  sense_21 false)).
  vm_compute. reflexivity.
Defined.

(** * The further properties on concrete inputs *)

Lemma expand_tree_monotone_witness :
  _expand_tree (PDict tree_9) 2 true ⊆ _expand_tree (PDict tree_9) (-1) true.
Proof. apply expand_tree_monotone. right. lia. Defined.

Lemma gen_sememe_tree_well_formed_witness :
  ∃ child,
    TreeDict tree_9 = TreeDict (DNode (NmSense (No sense_9)) (str "sense")
                                  [child]) ∧
    ∀ x, x ∈ tree_names child →
      (∃ k, x = NmSememe k ∧ is_Some (example_registry !! k)) ∨
      x = NmStr [QMARK] ∨ x = NmStr [DOLLAR].
Proof.
  apply (gen_sememe_tree_well_formed example_registry sense_9 false
           (TreeDict tree_9)).
  vm_compute. reflexivity.
Defined.

Lemma gen_sememe_tree_exceptions_witness :
  lookup_exn example_registry (KeyError (str "z|Z")) ∨
  (KeyError (str "z|Z") = AttributeError ∧
   TILDE ∈ first_clause (Def (example_sense (str "{z|Z}")))).
Proof.
  apply (gen_sememe_tree_exceptions example_registry
           (example_sense (str "{z|Z}")) false).
  vm_compute. reflexivity.
Defined.

Lemma gen_sememe_list_outcomes_witness :
  Forall (λ k, is_Some (example_registry !! k)) [str "a|A"; str "b|B"].
Proof.
  apply (proj2 (gen_sememe_list_outcomes example_registry sense_9)).
  vm_compute. reflexivity.
Defined.

Lemma scans_around_bar_witness :
  (∃ b, scan_end (scan_fuel unclosed_def) unclosed_def (Z.of_nat 2) = Ret b)
  ↔ unclosed_from unclosed_def 2 = false.
Proof.
  apply (proj2 (proj2 (scans_around_bar unclosed_def 2
                         ltac:(vm_compute; lia)))).
Defined.

Lemma bar_without_opening_delimiter_witness :
  _gen_sememe_list example_registry (example_sense no_opener_def)
    = Raise IndexError.
Proof.
  apply (proj1 (bar_without_opening_delimiter example_registry
                  (example_sense no_opener_def) false)).
  - by_evaluation.
  - apply (Forall_forall (λ c, is_opener c = false)). by_evaluation.
Defined.

Lemma Sememe_init_label_witness :
  Sememe_init (str "a|A") 1
    = Ret (mkSememe (str "a") (str "A") (str "a|A") 1 ∅ ∅ []).
Proof.
  apply (proj1 (Sememe_init_label (str "a|A") 1)).
  exists (str "a"), (str "A").
  split; [reflexivity|]. split; [by_evaluation|]. split; [by_evaluation|].
  reflexivity.
Defined.

Lemma add_triple_outcome_witness :
  add_triple example_registry (str "z|Z", str "r", str "a|A")
    = Raise (KeyError (str "z|Z")).
Proof.
  apply (proj1 (add_triple_outcome example_registry (str "z|Z") (str "r")
                  (str "a|A"))).
  vm_compute. reflexivity.
Defined.

Lemma getitem_outcomes_witness :
  getitem example_kb (str "w") = Ret [sense_9; sense_10].
Proof.
  apply (proj1 (getitem_outcomes example_kb (str "w"))).
  split; vm_compute; reflexivity.
Defined.

Lemma merge_in_tree_modes_returns_nothing_witness :
  get_sememes_by_word example_kb (str "w") (str "dict") true (-1) None =
    (flat_map (λ item, [PrintFailed (No item);
                        PrintException AttributeError]) [sense_10; sense_9],
     Ret (QSet ∅)).
Proof.
  apply merge_in_tree_modes_returns_nothing.
  - vm_compute. reflexivity.
  - left. reflexivity.
Defined.

Lemma list_mode_pairs_or_union_witness :
  get_sememes_by_word example_kb (str "w") (str "list") false (-1) None
    = ([], Ret (QList (zip_with QPair [sense_10; sense_9]
                         [{[ NmSememe (str "c|C") ]};
                          {[ NmSememe (str "a|A"); NmSememe (str "b|B") ]}])))
  ∧
  get_sememes_by_word example_kb (str "w") (str "list") true (-1) None
    = ([], Ret (QSet (⋃ [{[ NmSememe (str "c|C") ]};
                         {[ NmSememe (str "a|A"); NmSememe (str "b|B") ]}]))).
Proof.
  apply list_mode_pairs_or_union.
  - vm_compute. reflexivity.
  - repeat constructor; vm_compute; reflexivity.
Defined.

Lemma visual_mode_shows_first_K_witness :
  get_sememes_by_word example_kb (str "w") (str "visual") false (-1) (Some 1)
    = (PrintFind (length [sense_10; sense_9])
         :: display_log 0 [TreeNode tree_10],
       Ret (empty_result false)).
Proof.
  apply (proj1 (visual_mode_shows_first_K example_kb (str "w") false (-1)
                  (Some 1) [sense_10; sense_9]
                  ltac:(vm_compute; reflexivity))).
  repeat constructor; vm_compute; reflexivity.
Defined.

Lemma unknown_word_gives_empty_result_witness :
  getitem example_kb (str "zz") = Ret [] ∧
  (∀ language, get example_kb (str "zz") language = Ret []) ∧
  ∀ display merge layer K,
    get_sememes_by_word example_kb (str "zz") display merge layer K =
      (if bool_decide (display = str "dict")
          || bool_decide (display = str "tree")
          || bool_decide (display = str "list") then []
       else if bool_decide (display = str "visual") then [PrintFind 0]
       else [PrintWrongMode display],
       Ret (empty_result merge)).
Proof.
  apply unknown_word_gives_empty_result.
  - vm_compute. reflexivity.
  - by_evaluation.
Defined.

Lemma load_triple_outcome_witness :
  load_triple example_registry blank_line = Raise (KeyError []).
Proof.
  apply (proj2 (proj2 (load_triple_outcome example_registry blank_line))).
  - by_evaluation.
  - vm_compute. reflexivity.
Defined.

Lemma loaded_registry_labels_witness :
  (∀ k, is_Some (sememe_dic example_kb !! k) ↔ k ∈ example_sememes.*1) ∧
  (∀ k s, sememe_dic example_kb !! k = Some s → labelled example_sememes k s).
Proof.
  apply (loaded_registry_labels example_sememes example_triples
           example_senses).
  vm_compute. reflexivity.
Defined.

Lemma loaded_relations_last_line_witness :
  (forward (sememe_dic example_kb) (str "b|B") (str "r") = Some (str "c|C") ↔
   ∃ pre line post,
     example_triples = pre ++ line :: post ∧
     parse_triple line = Ret (str "b|B", str "r", str "c|C") ∧
     ∀ line' t', line' ∈ post →
       parse_triple line' ≠ Ret (str "b|B", str "r", t')) ∧
  (backward (sememe_dic example_kb) (str "c|C") (str "r") = Some (str "b|B") ↔
   ∃ pre line post,
     example_triples = pre ++ line :: post ∧
     parse_triple line = Ret (str "b|B", str "r", str "c|C") ∧
     ∀ line' h', line' ∈ post →
       parse_triple line' ≠ Ret (h', str "r", str "c|C")).
Proof.
  apply (loaded_relations_last_line example_sememes example_triples
           example_senses).
  vm_compute. reflexivity.
Defined.

Lemma loaded_senses_flattened_witness :
  Forall2 (λ kv ks,
             ks.1 = kv.1 ∧
             ks.2 = set_sememes (sememes ks.2) (Sense_init kv.2) ∧
             _gen_sememe_list (sememe_dic example_kb) (Sense_init kv.2)
               = Ret (sememes ks.2))
    example_senses (sense_dic example_kb) ∧
  HowNetDict_len example_kb = length example_senses.
Proof.
  apply (loaded_senses_flattened example_sememes example_triples).
  - vm_compute. reflexivity.
  - by_evaluation.
Defined.

Lemma loaded_back_references_witness :
  (∀ k s, sememe_dic example_kb !! k = Some s →
     senses s = flat_map (λ x, replicate (occurrences k (sememes x)) x)
                  (sense_dic example_kb).*2) ∧
  (∀ k s x, sememe_dic example_kb !! k = Some s →
     x ∈ senses s ↔ x ∈ (sense_dic example_kb).*2 ∧ k ∈ sememes x) ∧
  (∀ x k, x ∈ (sense_dic example_kb).*2 → k ∈ sememes x →
     is_Some (sememe_dic example_kb !! k)).
Proof.
  apply (loaded_back_references example_sememes example_triples
           example_senses).
  - vm_compute. reflexivity.
  - by_evaluation.
Defined.

Lemma loaded_word_index_witness :
  get example_kb (str "w") (Some (str "en"))
    = Ret (filter (λ x, py_strip (en_word x) = str "w")
             (sense_dic example_kb).*2) ∧
  get example_kb (str "w") (Some (str "zh"))
    = Ret (filter (λ x, py_strip (ch_word x) = str "w")
             (sense_dic example_kb).*2) ∧
  (has example_kb (str "w") (Some (str "en")) = true ↔
   ∃ x, x ∈ (sense_dic example_kb).*2 ∧ py_strip (en_word x) = str "w") ∧
  (has example_kb (str "w") (Some (str "zh")) = true ↔
   ∃ x, x ∈ (sense_dic example_kb).*2 ∧ py_strip (ch_word x) = str "w").
Proof.
  apply (loaded_word_index example_sememes example_triples example_senses).
  vm_compute. reflexivity.
Defined.

Lemma loader_exceptions_witness :
  (KeyError (str "z|Z") = ValueError ∧
   ∃ kv, kv ∈ example_sememes ∧ Sememe_init kv.1 kv.2 = Raise ValueError) ∨
  KeyError (str "z|Z") = IndexError ∨
  ∃ k, KeyError (str "z|Z") = KeyError k ∧ k ∉ example_sememes.*1.
Proof.
  apply (proj2 (loader_exceptions example_sememes [str "a|A r z|Z"] [])).
  vm_compute. reflexivity.
Defined.

